(** * ReportSys: the report execution engine

    A shallow embedding of the pure cores of the worker, and what they
    guarantee:

    - [Js]            : the values the worker handles, thrown errors, and the
                        built-ins the code calls;
    - [Partitioner]   : apps/worker/src/partitioner.ts ([buildObjectIdRanges],
                        [rangeToIdMatch]) and the chunk count reported by
                        [runPartitionedReduce] (apps/worker/src/job-processor.ts);
    - [Helpers]       : apps/worker/src/helpers.ts ([sanitizeFilters],
                        [normalizeValue], [writeSnapshot]);
    - [Generators]    : packages/report-generators/src/index.ts ([createPdfStream]);
    - [ReduceEngine]  : apps/worker/src/reduce-engine.ts (validation and the
                        accumulator).

    Conventions.  A [number] the code uses as a counter, a size or a limit is
    a [Z], and so is a [bigint]; the numbers inside documents are doubles: a
    rational, [NaN] or an infinity, added and divided with the rounding and
    the overflow of IEEE 754 binary64.  A property an object does not own is
    read through [Object.prototype].  A string is a [string], the bytes of
    its UTF-8 encoding.  A thrown [Error]
    is a constructor of [error] with the message of its [throw] site.
    Mutation is explicit: a function that mutates returns the new state.
    The ECMAScript and Node built-ins whose details no statement depends on
    ([JSON.stringify], [toISOString], [localeCompare], [Number] on strings and
    objects, [<] on strings, [path.join]) are the members of the class
    [Runtime]; asynchrony, stream back-pressure and I/O failures are outside
    the model.

    The definitions come first, the properties after them. *)

From Stdlib Require Import ZArith List String Ascii Bool Lia QArith Qabs.
From Stdlib Require Import DecimalString Sorting.Sorted Sorting.Permutation.
Import ListNotations.

Local Open Scope Z_scope.

(* ------------------------------------------------------------------ *)
(** ** JavaScript values, thrown errors and the built-ins taken as given *)

Module Js.

(** A [number]: a finite value (the rational a double denotes), [NaN] or an
    infinity.  The two zeros are one: nothing the code does tells them
    apart. *)
Inductive number : Type :=
| Fin (q : Q)
| NaN
| PosInf
| NegInf.

(** *** Double arithmetic *)

(** [2 ^ e] for any integer [e]. *)
Definition pow2 (e : Z) : Q :=
  if 0 <=? e then inject_Z (2 ^ e) else Qinv (inject_Z (2 ^ (- e))).

(** [floor (log2 a)] for a positive [a]. *)
Definition ilog2 (a : Q) : Z :=
  let e := Z.log2 (Qnum a) - Z.log2 (Zpos (Qden a)) in
  if Qle_bool (pow2 e) a then e else e - 1.

(** The integer nearest to a non-negative [x], the even one on a tie. *)
Definition round_half_even (x : Q) : Z :=
  let n := Qnum x in
  let d := Zpos (Qden x) in
  let fl := n / d in
  match 2 * (n mod d) ?= d with
  | Lt => fl
  | Gt => fl + 1
  | Eq => if Z.even fl then fl else fl + 1
  end.

(** The double nearest to [q] (binary64, round to nearest, ties to even):
    53 significant bits, the unit in the last place no finer than
    [2 ^ -1074], and an infinity from [2 ^ 1024] on. *)
Definition round (q0 : Q) : number :=
  let q := Qred q0 in
  if Qeq_bool q 0 then Fin 0%Q
  else
    let a := Qabs q in
    let e := Z.max (ilog2 a - 52) (-1074) in
    let r := (inject_Z (round_half_even (a / pow2 e)) * pow2 e)%Q in
    if Qle_bool (pow2 1024) r then (if Qle_bool 0 q then PosInf else NegInf)
    else Fin (Qred (if Qle_bool 0 q then r else - r)).

(** [a + b] *)
Definition add (a b : number) : number :=
  match a, b with
  | NaN, _ | _, NaN => NaN
  | PosInf, NegInf | NegInf, PosInf => NaN
  | PosInf, _ | _, PosInf => PosInf
  | NegInf, _ | _, NegInf => NegInf
  | Fin x, Fin y => round (x + y)
  end.

(** [a / b] *)
Definition div (a b : number) : number :=
  match a, b with
  | NaN, _ | _, NaN => NaN
  | Fin x, Fin y =>
      if Qeq_bool y 0 then
        (if Qeq_bool x 0 then NaN else if Qle_bool 0 x then PosInf else NegInf)
      else round (x / y)
  | Fin _, _ => Fin 0%Q
  | PosInf, Fin y => if Qle_bool 0 y then PosInf else NegInf
  | NegInf, Fin y => if Qle_bool 0 y then NegInf else PosInf
  | _, _ => NaN
  end.

(** [a === 0] *)
Definition is_zero (a : number) : bool :=
  match a with
  | Fin x => Qeq_bool x 0
  | _ => false
  end.

(** [Number.isFinite(a)] *)
Definition is_finite (a : number) : bool :=
  match a with
  | Fin _ => true
  | _ => false
  end.

(** A non-negative integer, as a count is. *)
Definition whole (q : Q) : Prop := exists n : Z, 0 <= n /\ (q == inject_Z n)%Q.

(** [a < b] on numbers: false as soon as one side is [NaN]. *)
Definition number_ltb (a b : number) : bool :=
  match a, b with
  | NaN, _ | _, NaN => false
  | Fin x, Fin y => negb (Qle_bool y x)
  | Fin _, PosInf | NegInf, Fin _ | NegInf, PosInf => true
  | _, _ => false
  end.

(** A value as the worker sees it: the JSON/BSON scalars, the two native
    classes the code tests with [instanceof] ([ObjectId], [Date]), arrays, and
    objects, and what a read through the prototype chain of an object can
    give: a method of [Object.prototype], by its name, and [Object.prototype]
    itself.  An object is the list of its own enumerable string-keyed
    entries in enumeration order ([Object.entries]), its prototype being
    [Object.prototype]; the [__proto__] setter is outside the model.  A
    [Date] carries its time value in epoch milliseconds, [None] for an
    invalid date. *)
#[local] Unset Elimination Schemes.
Inductive value : Type :=
| VUndefined
| VNull
| VBool (b : bool)
| VNum (n : number)
| VStr (s : string)
| VObjectId (id : Z)
| VDate (t : option Z)
| VArr (items : list value)
| VObj (entries : list (string * value))
| VFunction (name : string)
| VObjectPrototype.
#[local] Set Elimination Schemes.

(** *** Insertion-ordered string-keyed tables (objects, [Map]) *)

Fixpoint lookup {A : Type} (k : string) (l : list (string * A)) : option A :=
  match l with
  | [] => None
  | (k', a) :: rest => if String.eqb k k' then Some a else lookup k rest
  end.

(** [o[k] = a] / [map.set(k, a)]: an existing key keeps its place. *)
Fixpoint upsert {A : Type} (k : string) (a : A) (l : list (string * A))
  : list (string * A) :=
  match l with
  | [] => [(k, a)]
  | (k', a') :: rest =>
      if String.eqb k k' then (k', a) :: rest else (k', a') :: upsert k a rest
  end.

(** [Object.fromEntries] *)
Definition fromEntries {A : Type} (l : list (string * A)) : list (string * A) :=
  fold_left (fun o kv => upsert (fst kv) (snd kv) o) l [].

(** The methods of [Object.prototype]. *)
Definition object_prototype_methods : list string :=
  ["constructor"; "hasOwnProperty"; "isPrototypeOf"; "propertyIsEnumerable";
   "toLocaleString"; "toString"; "valueOf"; "__defineGetter__";
   "__defineSetter__"; "__lookupGetter__"; "__lookupSetter__"]%string.

Definition is_object_prototype_method (k : string) : bool :=
  existsb (String.eqb k) object_prototype_methods.

(** What a plain object gives for a key it does not own: a method of
    [Object.prototype], the prototype itself for [__proto__], and
    [undefined] for any other key. *)
Definition inherited (k : string) : value :=
  if is_object_prototype_method k then VFunction k
  else if String.eqb k "__proto__" then VObjectPrototype
  else VUndefined.

(** [o[k]] on a plain object: the own entry, or what [Object.prototype]
    gives. *)
Definition prop (o : list (string * value)) (k : string) : value :=
  match lookup k o with Some v => v | None => inherited k end.

(** [a[k]] on an array: an element for a canonical index, the length for
    ["length"]. *)
Definition array_index (k : string) : option nat :=
  match NilEmpty.uint_of_string k with
  | Some u =>
      let n := Nat.of_uint u in
      if String.eqb (NilZero.string_of_uint (Nat.to_uint n)) k then Some n else None
  | None => None
  end.

(** [v ?? d] *)
Definition nullish (v : value) : bool :=
  match v with VUndefined | VNull => true | _ => false end.

Definition coalesce (v d : value) : value := if nullish v then d else v.

(** *** Strings *)

(** [s.includes(needle)] *)
Fixpoint includes (needle s : string) : bool :=
  String.prefix needle s ||
  match s with
  | EmptyString => false
  | String _ s' => includes needle s'
  end.

(** [s.startsWith(p)] *)
Definition startsWith (p s : string) : bool := String.prefix p s.

Definition lower_ascii (c : ascii) : ascii :=
  let n := nat_of_ascii c in
  if (Nat.leb 65 n && Nat.leb n 90)%bool then ascii_of_nat (n + 32) else c.

Fixpoint lower (s : string) : string :=
  match s with
  | EmptyString => EmptyString
  | String c s' => String (lower_ascii c) (lower s')
  end.

(** [/literal/i.test(s)] for a pattern without metacharacters. *)
Definition test_ci (literal s : string) : bool := includes (lower literal) (lower s).

(** [`${n}`] for an integral number below 1e21. *)
Definition show_Z (n : Z) : string := NilZero.string_of_int (Z.to_int n).

Definition LF : string := String (ascii_of_nat 10) EmptyString.

(** [Buffer.byteLength(s)]; a string stands for its UTF-8 bytes. *)
Definition byteLength (s : string) : Z := Z.of_nat (String.length s).

Definition hex_digit (d : Z) : ascii :=
  match String.get (Z.to_nat d) "0123456789abcdef" with
  | Some c => c
  | None => "0"%char
  end.

Fixpoint hex_digits (n : nat) (v : Z) (acc : string) : string :=
  match n with
  | O => acc
  | S n' => hex_digits n' (v / 16) (String (hex_digit (v mod 16)) acc)
  end.

(** [ObjectId.prototype.toHexString] *)
Definition toHexString (id : Z) : string := hex_digits 24 id EmptyString.

(** *** Errors *)

(** One constructor per [throw] site of the modelled code, the
    [RangeError] of [toISOString] on an invalid date, and the [TypeError] of
    a method call on [undefined]. *)
Inductive error : Type :=
| SnapshotSizeExceeded (maxBytes : Z)
| PdfRowLimitExceeded (pdfMaxRows : Z)
| ReduceCardinalityExceeded (maxGroups : Z)
| NonNumericValue (fieldName : string)
| InvalidTimeValue
| IncludesOfUndefined.

Definition message (e : error) : string :=
  match e with
  | SnapshotSizeExceeded maxBytes =>
      "Temporary snapshot size exceeded REPORT_TMP_MAX_BYTES (" ++ show_Z maxBytes ++ " bytes)"
  | PdfRowLimitExceeded m =>
      "PDF row limit exceeded. max=" ++ show_Z m ++ ", received>" ++ show_Z m
  | ReduceCardinalityExceeded m =>
      "Reduce group cardinality exceeded REPORT_REDUCE_MAX_GROUPS (" ++ show_Z m ++ ")"
  | NonNumericValue fieldName =>
      "Non numeric value found in reduce field: " ++ fieldName
  | InvalidTimeValue => "Invalid time value"
  | IncludesOfUndefined => "Cannot read properties of undefined (reading 'includes')"
  end%string.

Inductive result (A : Type) : Type :=
| Ok (a : A)
| Throw (e : error).
Arguments Ok {A} a.
Arguments Throw {A} e.

Definition bind {A B : Type} (r : result A) (f : A -> result B) : result B :=
  match r with
  | Ok a => f a
  | Throw e => Throw e
  end.

(** [list.map(f)] where [f] may throw: the first failure wins. *)
Definition mapM {A B : Type} (f : A -> result B) : list A -> result (list B) :=
  fix go (l : list A) : result (list B) :=
    match l with
    | [] => Ok []
    | x :: rest =>
        match f x with
        | Throw e => Throw e
        | Ok y => match go rest with
                  | Throw e => Throw e
                  | Ok ys => Ok (y :: ys)
                  end
        end
    end.

(** *** Built-ins *)

(** The ECMAScript and Node built-ins the code calls and no property below
    depends on the details of. *)
Class Runtime : Type := {
  (** [JSON.stringify], as a template literal prints its result *)
  JSON_stringify : value -> string;
  (** [Date.prototype.toISOString] on a valid time value *)
  toISOString : Z -> string;
  (** [String.prototype.localeCompare]: negative, zero or positive *)
  localeCompare : string -> string -> Z;
  (** [Number(s)] on a string *)
  StringToNumber : string -> number;
  (** [Number(o)] on an array, an object or an [ObjectId] *)
  ObjectToNumber : value -> number;
  (** [a < b] on strings (code-unit order) *)
  string_lt : string -> string -> bool;
  (** [path.join] *)
  path_join : string -> string -> string;
  (** [v[k]] on an array (for a key that is neither an index nor [length]),
      on a [Date] and on an [ObjectId]: what the class and the prototypes
      behind it give, [undefined] when nothing defines the key *)
  class_member : value -> string -> value
}.

(** [v[k]] where [typeof v] is ['object']. *)
Definition member {RT : Runtime} (v : value) (k : string) : value :=
  match v with
  | VObj entries => prop entries k
  | VObjectPrototype =>
      if is_object_prototype_method k then VFunction k
      else if String.eqb k "__proto__" then VNull
      else VUndefined
  | VArr items =>
      if String.eqb k "length" then VNum (Fin (inject_Z (Z.of_nat (List.length items))))
      else match array_index k with
           | Some i =>
               match nth_error items i with
               | Some item => item
               | None => class_member v k
               end
           | None => class_member v k
           end
  | VDate _ | VObjectId _ => class_member v k
  | _ => VUndefined
  end.

End Js.

(* ------------------------------------------------------------------ *)
(** ** partitioner.ts *)

Module Partitioner.

(** An [ObjectId] is twelve bytes; it is represented by the unsigned integer
    its 24 hexadecimal digits denote. *)
Definition ObjectId := Z.

Definition valid_oid (id : ObjectId) : Prop := 0 <= id < 2 ^ 96.

Record ObjectIdRange := mkRange {
  index : Z;
  startInclusive : ObjectId;
  endExclusive : option ObjectId
}.

(** [BigInt(`0x${id.toHexString()}`)] *)
Definition objectIdToBigInt (id : ObjectId) : Z := id.

(** [value.toString(16).padStart(24, '0').slice(-24)]: the low 24 hex digits. *)
Definition bigIntToObjectId (value : Z) : ObjectId := value mod 2 ^ 96.

(** The [for] loop of [buildObjectIdRanges]; [n] is the number of iterations
    left before [index < chunks] fails. *)
Fixpoint ranges_loop (n : nat) (idx min max chunkSize : Z) : list ObjectIdRange :=
  match n with
  | O => []
  | S n' =>
      let start := min + idx * chunkSize in
      if start >? max then []
      else
        let nextStart := start + chunkSize in
        mkRange idx (bigIntToObjectId start)
                (if nextStart <=? max then Some (bigIntToObjectId nextStart) else None)
        :: ranges_loop n' (idx + 1) min max chunkSize
  end.

Definition buildObjectIdRanges (minId maxId : ObjectId) (requestedChunks : Z)
  : list ObjectIdRange :=
  let min := objectIdToBigInt minId in
  let max := objectIdToBigInt maxId in
  if max <? min then []
  else
    let chunks := Z.max 1 requestedChunks in
    if chunks =? 1 then [mkRange 0 minId None]
    else
      let span := max - min + 1 in
      let chunkSize := Z.quot (span + chunks - 1) chunks in
      ranges_loop (Z.to_nat chunks) 0 min max chunkSize.

(** [rangeToIdMatch]: the [_id] predicate of a range, [$gte] and, when the
    range is closed, [$lt]. *)
Record IdMatch := mkIdMatch { gte : ObjectId; lt : option ObjectId }.

Definition rangeToIdMatch (range : ObjectIdRange) : IdMatch :=
  match endExclusive range with
  | None => mkIdMatch (startInclusive range) None
  | Some e => mkIdMatch (startInclusive range) (Some e)
  end.

(** The documents an [_id] predicate selects. *)
Definition matches (m : IdMatch) (id : ObjectId) : Prop :=
  gte m <= id /\ match lt m with Some e => id < e | None => True end.

(** A chain of ranges from [s]: every closed range ends where the next one
    starts, strictly above its own start, and the chain ends with the only
    open range. *)
Inductive chain : Z -> list ObjectIdRange -> Prop :=
| chain_last : forall s i, chain s [mkRange i s None]
| chain_cons : forall s i e rs,
    s < e -> chain e rs -> chain s (mkRange i s (Some e) :: rs).

(** *** The part of [runPartitionedReduce] that decides [chunks] *)

Record PartitionSpec := mkPartitionSpec { chunks : option Z }.

(** [partitionSpec?.chunks ?? partitionDefaultChunks] *)
Definition requestedChunks (partitionSpec : option PartitionSpec)
           (partitionDefaultChunks : Z) : Z :=
  match partitionSpec with
  | Some ps => match chunks ps with Some c => c | None => partitionDefaultChunks end
  | None => partitionDefaultChunks
  end.

(** [minDoc]/[maxDoc] are the two probes; a missing probe is the empty
    dataset and reports [chunks: 0], otherwise [chunks: ranges.length]. *)
Definition runPartitionedReduce_chunks (minDoc maxDoc : option ObjectId)
           (partitionSpec : option PartitionSpec) (partitionDefaultChunks : Z) : Z :=
  match minDoc, maxDoc with
  | Some minId, Some maxId =>
      Z.of_nat (List.length (buildObjectIdRanges minId maxId
                          (requestedChunks partitionSpec partitionDefaultChunks)))
  | _, _ => 0
  end.

End Partitioner.

(* ------------------------------------------------------------------ *)
(** ** helpers.ts *)

Module Helpers.
Import Js.

(** [key.startsWith('$') || key.includes('.')] *)
Definition unsafe_key (key : string) : bool :=
  startsWith "$" key || includes "." key.

(** [value && typeof value === 'object' && !Array.isArray(value)] *)
Definition is_object (v : value) : bool :=
  match v with
  | VObj _ | VDate _ | VObjectId _ | VObjectPrototype => true
  | _ => false
  end.

(** The [for ... of Object.entries(input)] loop of [sanitizeFilters], with
    the recursive call as [self]. *)
Definition sanitize_loop (self : value -> value)
  : list (string * value) -> list (string * value) -> list (string * value) :=
  fix loop (entries output : list (string * value)) : list (string * value) :=
    match entries with
    | [] => output
    | (key, v) :: rest =>
        if unsafe_key key then loop rest output
        else if is_object v then loop rest (upsert key (self v) output)
        else loop rest (upsert key v output)
    end.

(** A [Date] passes the [typeof] test and has no own enumerable entry, so it
    is sanitized to [{}], and so is [Object.prototype]; an [ObjectId] is
    taken likewise, its bytes not being an entry the model tracks. *)
Fixpoint sanitizeFilters (input : value) : value :=
  match input with
  | VObj entries => VObj (sanitize_loop sanitizeFilters entries [])
  | _ => VObj []
  end.

(** *** Predicates the statements about [sanitizeFilters] and
    [normalizeValue] use *)

(** No key of the mapping, or of a mapping nested in it through mappings,
    begins with [$] or contains a dot.  Arrays are not descended into: the
    sanitizer keeps them as they are. *)
Fixpoint safe_keys (v : value) : bool :=
  match v with
  | VObj entries =>
      forallb (fun kv => negb (unsafe_key (fst kv)) && safe_keys (snd kv)) entries
  | _ => true
  end.

(** An entry with a safe key and a value with safe keys. *)
Definition safe_entry (kv : string * value) : Prop :=
  unsafe_key (fst kv) = false /\ safe_keys (snd kv) = true.

(** The own entries of a mapping. *)
Definition own_entries (v : value) : list (string * value) :=
  match v with
  | VObj entries => entries
  | _ => []
  end.

(** No [ObjectId] and no [Date] at any depth, arrays included. *)
Fixpoint portable (v : value) : bool :=
  match v with
  | VObjectId _ | VDate _ => false
  | VArr items => forallb portable items
  | VObj entries => forallb (fun kv => portable (snd kv)) entries
  | _ => true
  end.

(** What [normalizeValue] produces: no [ObjectId], no [Date], no
    [Object.prototype], and objects whose keys are distinct. *)
#[local] Unset Elimination Schemes.
Inductive normal : value -> Prop :=
| normal_undefined : normal VUndefined
| normal_null : normal VNull
| normal_bool : forall b, normal (VBool b)
| normal_num : forall n, normal (VNum n)
| normal_str : forall s, normal (VStr s)
| normal_fun : forall name, normal (VFunction name)
| normal_arr : forall items, Forall normal items -> normal (VArr items)
| normal_obj : forall entries,
    NoDup (map fst entries) ->
    Forall (fun kv => normal (snd kv)) entries ->
    normal (VObj entries).
#[local] Set Elimination Schemes.

(** *** Positions inside a value *)

Inductive step : Type :=
| Index (i : nat)
| Key (k : string).

(** The value at a path of array indices and mapping keys. *)
Fixpoint at_path (v : value) (path : list step) : option value :=
  match path with
  | [] => Some v
  | s :: rest =>
      match v, s with
      | VArr items, Index i =>
          match nth_error items i with
          | Some x => at_path x rest
          | None => None
          end
      | VObj entries, Key k =>
          match lookup k entries with
          | Some x => at_path x rest
          | None => None
          end
      | _, _ => None
      end
  end.

Fixpoint all_distinct (keys : list string) : bool :=
  match keys with
  | [] => true
  | k :: rest => negb (existsb (String.eqb k) rest) && all_distinct rest
  end.

(** Every mapping inside the value has distinct keys, as an object has. *)
Fixpoint distinct_keys (v : value) : bool :=
  match v with
  | VArr items => forallb distinct_keys items
  | VObj entries =>
      all_distinct (map fst entries) && forallb (fun kv => distinct_keys (snd kv)) entries
  | _ => true
  end.

(** Some [Date] inside the value is invalid. *)
Fixpoint has_invalid_date (v : value) : bool :=
  match v with
  | VDate None => true
  | VArr items => existsb has_invalid_date items
  | VObj entries => existsb (fun kv => has_invalid_date (snd kv)) entries
  | _ => false
  end.

(** The lines of a snapshot and their sizes. *)
Fixpoint total_bytes (lines : list string) : Z :=
  match lines with
  | [] => 0
  | line :: rest => byteLength line + total_bytes rest
  end.

Fixpoint joined (lines : list string) : string :=
  match lines with
  | [] => EmptyString
  | line :: rest => (line ++ joined rest)%string
  end.

Section WithRuntime.
Context {RT : Runtime}.

Definition normalize_entry (self : value -> result value) (kv : string * value)
  : result (string * value) :=
  match self (snd kv) with
  | Ok child => Ok (fst kv, child)
  | Throw e => Throw e
  end.

Fixpoint normalizeValue (v : value) : result value :=
  match v with
  | VObjectId id => Ok (VStr (toHexString id))
  | VDate t =>
      match t with
      | Some ms => Ok (VStr (toISOString ms))
      | None => Throw InvalidTimeValue
      end
  | VArr items =>
      match mapM normalizeValue items with
      | Ok items' => Ok (VArr items')
      | Throw e => Throw e
      end
  | VObj entries =>
      match mapM (normalize_entry normalizeValue) entries with
      | Ok entries' => Ok (VObj (fromEntries entries'))
      | Throw e => Throw e
      end
  | VObjectPrototype => Ok (VObj [])
  | _ => Ok v
  end.

(** What stands in the result of [normalizeValue] where [x] stood in the
    input: the hexadecimal string of an identifier, the ISO string of a
    timestamp, an array of the same length, a mapping with the same keys in
    the same order, the empty mapping for [Object.prototype], and [x] itself
    otherwise. *)
Definition replaces (x y : value) : Prop :=
  match x with
  | VObjectId id => y = VStr (toHexString id)
  | VDate t => exists ms, t = Some ms /\ y = VStr (toISOString ms)
  | VArr items => exists items', y = VArr items' /\ List.length items' = List.length items
  | VObj entries => exists entries', y = VObj entries' /\ map fst entries' = map fst entries
  | VObjectPrototype => y = VObj []
  | _ => y = x
  end.

(** The outcome of [normalizeValue] on [v]: a normal value, or the
    [RangeError] of an invalid date inside [v]. *)
Definition normalize_outcome (v : value) : Prop :=
  match normalizeValue v with
  | Ok w => normal w
  | Throw e => e = InvalidTimeValue /\ has_invalid_date v = true
  end.

(** *** [writeSnapshot] *)

Record SnapshotResult := mkSnapshotResult {
  path : string;
  rowCount : Z;
  bytes : Z
}.

(** What [writeSnapshot] does to the file system, in order. *)
Inductive fs_event : Type :=
| Mkdir (dir : string)
| CreateWriteStream (path : string)
| Write (line : string)
| End_
| Destroy
| Rm (path : string).

(** [`${JSON.stringify(row)}\n`] *)
Definition line_of (row : value) : string := (JSON_stringify row ++ LF)%string.

(** The [for await] loop: the lines written so far (latest last), and either
    the final [(rowCount, bytes)] or the error thrown. *)
Fixpoint write_rows (rows : list value) (maxBytes rowCount bytes : Z)
         (written : list string) : list string * result (Z * Z) :=
  match rows with
  | [] => (written, Ok (rowCount, bytes))
  | row :: rest =>
      let line := line_of row in
      let lineBytes := byteLength line in
      let bytes := bytes + lineBytes in
      if bytes >? maxBytes then (written, Throw (SnapshotSizeExceeded maxBytes))
      else write_rows rest maxBytes (rowCount + 1) bytes (written ++ [line])
  end.

(** I/O failures of the write stream and the optional [onProgress] callback
    are not modelled. *)
Definition writeSnapshot (rows : list value) (tmpDir fileName : string)
           (maxBytes : Z) : list fs_event * result SnapshotResult :=
  let path := path_join tmpDir fileName in
  let opened := [Mkdir tmpDir; CreateWriteStream path] in
  match write_rows rows maxBytes 0 0 [] with
  | (written, Ok (rowCount, bytes)) =>
      (opened ++ map Write written ++ [End_],
       Ok (mkSnapshotResult path rowCount bytes))
  | (written, Throw e) =>
      (opened ++ map Write written ++ [Destroy; Rm path], Throw e)
  end.

(** The content of the file at [p] after a sequence of events; [None] when
    the file does not exist. *)
Fixpoint file_after (p : string) (events : list fs_event) (file : option string)
  : option string :=
  match events with
  | [] => file
  | CreateWriteStream p' :: rest =>
      file_after p rest (if String.eqb p p' then Some EmptyString else file)
  | Write line :: rest =>
      file_after p rest (option_map (fun content => content ++ line)%string file)
  | Rm p' :: rest =>
      file_after p rest (if String.eqb p p' then None else file)
  | _ :: rest => file_after p rest file
  end.

End WithRuntime.

End Helpers.

(* ------------------------------------------------------------------ *)
(** ** report-generators/src/index.ts *)

Module Generators.
Import Js.

Record StreamOptions := mkStreamOptions {
  highWaterMark : option Z;
  pdfMaxRows : option Z
}.

(** How the output stream of a generator finishes. *)
Inductive stream_end : Type :=
| Ended
| Destroyed (e : error).

Section WithRuntime.
Context {RT : Runtime}.

(** [options?.pdfMaxRows !== undefined && index > options.pdfMaxRows] *)
Definition over_limit (options : option StreamOptions) (index : Z) : option Z :=
  match options with
  | Some o =>
      match pdfMaxRows o with
      | Some m => if index >? m then Some m else None
      | None => None
      end
  | None => None
  end.

(** The [for await] loop of [createPdfStream]: the text lines laid out so
    far (latest last) and how the stream finishes. *)
Fixpoint pdf_rows (rows : list value) (options : option StreamOptions)
         (index : Z) (texts : list string) : list string * stream_end :=
  match rows with
  | [] => (texts, Ended)
  | row :: rest =>
      let index := index + 1 in
      match over_limit options index with
      | Some m => (texts, Destroyed (PdfRowLimitExceeded m))
      | None =>
          pdf_rows rest options index
                   (texts ++ [(show_Z index ++ ". " ++ JSON_stringify row)%string])
      end
  end.

(** The text lines of [rows] when [index] rows came before them:
    [`${index}. ${JSON.stringify(row)}`]. *)
Fixpoint text_lines (index : Z) (rows : list value) : list string :=
  match rows with
  | [] => []
  | row :: rest =>
      (show_Z (index + 1) ++ ". " ++ JSON_stringify row)%string
      :: text_lines (index + 1) rest
  end.

Definition createPdfStream (rows : list value) (options : option StreamOptions)
  : list string * stream_end :=
  pdf_rows rows options 0 ["Report"%string].

End WithRuntime.

End Generators.

(* ------------------------------------------------------------------ *)
(** ** reduce-engine.ts *)

Module ReduceEngine.
Import Js.

Inductive ReduceOperation : Type := OpCount | OpSum | OpMin | OpMax | OpAvg.

(** [as] is a keyword here: the alias is [as_]. *)
Record ReduceMetricSpec := mkMetric {
  op : ReduceOperation;
  field : option string;
  as_ : string
}.

Record ReduceSpec := mkReduceSpec {
  groupBy : list string;
  metrics : list ReduceMetricSpec
}.

Record AverageState := mkAverage {
  sum : number;
  count : number
}.

Record ReduceGroupState := mkGroupState {
  group : list (string * value);
  values : list (string * value);
  averages : list (string * AverageState);
  inputCount : number
}.

Record ReduceSummary := mkSummary {
  rows : list (list (string * value));
  rowsIn : number;
  rowsOut : Z
}.

(** The accumulator's [Map<string, ReduceGroupState>], in insertion order. *)
Definition groups : Type := list (string * ReduceGroupState).

Definition AVG_SUM_PREFIX : string := "__avg_sum__".
Definition AVG_COUNT_PREFIX : string := "__avg_count__".
Definition INPUT_COUNT_FIELD : string := "__input_count".

(** [/^[A-Za-z0-9_]+$/.test(s)] *)
Definition is_word_char (c : ascii) : bool :=
  let n := nat_of_ascii c in
  (Nat.leb 48 n && Nat.leb n 57) || (Nat.leb 65 n && Nat.leb n 90)
  || (Nat.leb 97 n && Nat.leb n 122) || Nat.eqb n 95.

Fixpoint all_word_chars (s : string) : bool :=
  match s with
  | EmptyString => true
  | String c s' => is_word_char c && all_word_chars s'
  end.

Definition is_identifier (s : string) : bool :=
  match s with
  | EmptyString => false
  | _ => all_word_chars s
  end.

Fixpoint mem_string (s : string) (l : list string) : bool :=
  match l with
  | [] => false
  | x :: rest => String.eqb s x || mem_string s rest
  end.

(** The second loop of [validateReduceSpec]; [aliases] is the [Set] of the
    aliases seen so far.  [None] when no metric is rejected. *)
Fixpoint validate_metrics (ms : list ReduceMetricSpec) (aliases : list string)
  : option string :=
  match ms with
  | [] => None
  | metric :: rest =>
      if negb (is_identifier (as_ metric)) then
        Some ("Invalid metric alias: " ++ as_ metric)%string
      else if mem_string (as_ metric) aliases then
        Some ("Duplicated metric alias: " ++ as_ metric)%string
      else
        let bad_field :=
          match op metric with
          | OpCount => false
          | _ => match field metric with
                 | Some f => negb (is_identifier f)
                 | None => true
                 end
          end in
        if bad_field then
          Some ("Metric " ++ as_ metric ++ " requires a valid field")%string
        else validate_metrics rest (as_ metric :: aliases)
  end.

(** [validateReduceSpec]: the message of the error it throws, [None] when it
    returns. *)
Definition validateReduceSpec (spec : ReduceSpec) : option string :=
  match metrics spec with
  | [] => Some "reduceSpec.metrics must contain at least one metric"%string
  | _ =>
      match find (fun g => negb (is_identifier g)) (groupBy spec) with
      | Some g => Some ("Invalid groupBy field: " ++ g)%string
      | None => validate_metrics (metrics spec) []
      end
  end.

Section WithRuntime.
Context {RT : Runtime}.

(** [Number(value)] *)
Definition Number_ (v : value) : number :=
  match v with
  | VUndefined => NaN
  | VNull => Fin 0%Q
  | VBool b => Fin (if b then 1%Q else 0%Q)
  | VNum n => n
  | VStr s => StringToNumber s
  | VDate t => match t with Some ms => Fin (inject_Z ms) | None => NaN end
  | VObjectId _ | VArr _ | VObj _ => ObjectToNumber v
  | VFunction _ | VObjectPrototype => NaN
  end.

Definition numericFrom (v : value) (fieldName : string) : result Q :=
  if nullish v then Ok 0%Q
  else match Number_ v with
       | Fin q => Ok q
       | _ => Throw (NonNumericValue fieldName)
       end.

(** [!rawGroup || typeof rawGroup !== 'object'] fails exactly on the values
    whose [typeof] is ['object'] and that are not [null]. *)
Definition decodeGroup (groupBy : list string) (rawGroup : value)
  : list (string * value) :=
  match groupBy with
  | [] => []
  | _ =>
      match rawGroup with
      | VObj _ | VArr _ | VDate _ | VObjectId _ | VObjectPrototype =>
          fromEntries (map (fun f => (f, coalesce (member rawGroup f) VNull)) groupBy)
      | _ => fromEntries (map (fun f => (f, VNull)) groupBy)
      end
  end.

Inductive comparable : Type :=
| CNum (n : number)
| CStr (s : string).

Definition pickComparable (v : value) : option comparable :=
  match v with
  | VUndefined | VNull => None
  | VDate t => Some (CNum (match t with Some ms => Fin (inject_Z ms) | None => NaN end))
  | VNum n => Some (CNum n)
  | VStr s => Some (CStr s)
  | _ => None
  end.

(** [a < b] on the comparables: two strings compare as strings, anything
    else as numbers. *)
Definition js_lt (a b : comparable) : bool :=
  match a, b with
  | CStr x, CStr y => string_lt x y
  | CNum x, CNum y => number_ltb x y
  | CNum x, CStr y => number_ltb x (StringToNumber y)
  | CStr x, CNum y => number_ltb (StringToNumber x) y
  end.

Definition set_values (state : ReduceGroupState) (vs : list (string * value)) :=
  mkGroupState (group state) vs (averages state) (inputCount state).

Definition set_averages (state : ReduceGroupState) (avs : list (string * AverageState)) :=
  mkGroupState (group state) (values state) avs (inputCount state).

Definition set_inputCount (state : ReduceGroupState) (n : number) :=
  mkGroupState (group state) (values state) (averages state) n.

(** [state.values.get(k)] on the [Map]: [undefined] when absent. *)
Definition values_get (state : ReduceGroupState) (k : string) : value :=
  match lookup k (values state) with
  | Some v => v
  | None => VUndefined
  end.

(** [mergeMetricValue]: the group state after the call, which mutates it in
    place, and the error when it throws. *)
Definition mergeMetricValue (state : ReduceGroupState) (metric : ReduceMetricSpec)
           (doc : list (string * value)) : ReduceGroupState * option error :=
  match op metric with
  | OpAvg =>
      match numericFrom (prop doc (AVG_SUM_PREFIX ++ as_ metric)) (as_ metric ++ ".sum") with
      | Throw e => (state, Some e)
      | Ok sum' =>
          match numericFrom (prop doc (AVG_COUNT_PREFIX ++ as_ metric))
                            (as_ metric ++ ".count") with
          | Throw e => (state, Some e)
          | Ok count' =>
              let previous :=
                match lookup (as_ metric) (averages state) with
                | Some a => a
                | None => mkAverage (Fin 0%Q) (Fin 0%Q)
                end in
              (set_averages state
                 (upsert (as_ metric)
                         (mkAverage (add (sum previous) (Fin sum'))
                                    (add (count previous) (Fin count')))
                         (averages state)),
               None)
          end
      end
  | OpCount | OpSum =>
      match numericFrom (prop doc (as_ metric)) (as_ metric) with
      | Throw e => (state, Some e)
      | Ok current =>
          match numericFrom (values_get state (as_ metric)) (as_ metric) with
          | Throw e => (state, Some e)
          | Ok previous =>
              (set_values state
                 (upsert (as_ metric) (VNum (add (Fin previous) (Fin current)))
                         (values state)),
               None)
          end
      end
  | OpMin | OpMax =>
      let current := prop doc (as_ metric) in
      let previous := values_get state (as_ metric) in
      match previous with
      | VUndefined =>
          (set_values state (upsert (as_ metric) (coalesce current VNull) (values state)),
           None)
      | _ =>
          if nullish current then (state, None)
          else
            match pickComparable current, pickComparable previous with
            | Some currentComparable, Some previousComparable =>
                if match op metric with
                   | OpMin => js_lt currentComparable previousComparable
                   | _ => js_lt previousComparable currentComparable
                   end
                then (set_values state (upsert (as_ metric) current (values state)), None)
                else (state, None)
            | _, _ => (state, None)
            end
      end
  end%string.

(** [for (const metric of spec.metrics) mergeMetricValue(current, metric, row)] *)
Fixpoint merge_metrics (state : ReduceGroupState) (ms : list ReduceMetricSpec)
         (doc : list (string * value)) : ReduceGroupState * option error :=
  match ms with
  | [] => (state, None)
  | metric :: rest =>
      match mergeMetricValue state metric doc with
      | (state', Some e) => (state', Some e)
      | (state', None) => merge_metrics state' rest doc
      end
  end.

(** The key of the group a partial row belongs to:
    [JSON.stringify(decodeGroup(spec.groupBy, row._id))]. *)
Definition group_key (spec : ReduceSpec) (row : list (string * value)) : string :=
  JSON_stringify (VObj (decodeGroup (groupBy spec) (prop row "_id"))).

(** The tail of [consume], once the group record [current] is at hand: it
    is mutated in place, so what was done before a throw stays in the map
    (for a fresh record, [state.set(key, current)] came first). *)
Definition consume_into (spec : ReduceSpec) (state : groups)
           (row : list (string * value)) (current : ReduceGroupState)
  : groups * option error :=
  match numericFrom (prop row INPUT_COUNT_FIELD) INPUT_COUNT_FIELD with
  | Throw e => (upsert (group_key spec row) current state, Some e)
  | Ok n =>
      let (current', thrown) :=
        merge_metrics (set_inputCount current (add (inputCount current) (Fin n)))
                      (metrics spec) row in
      (upsert (group_key spec row) current' state, thrown)
  end.

(** [consume]: the accumulator's map after the call and the error when it
    throws. *)
Definition consume (spec : ReduceSpec) (maxGroups : option Z) (state : groups)
           (row : list (string * value)) : groups * option error :=
  let group := decodeGroup (groupBy spec) (prop row "_id") in
  match lookup (group_key spec row) state with
  | Some current => consume_into spec state row current
  | None =>
      match maxGroups with
      | Some m =>
          if Z.of_nat (List.length state) >=? m
          then (state, Some (ReduceCardinalityExceeded m))
          else consume_into spec state row (mkGroupState group [] [] (Fin 0%Q))
      | None => consume_into spec state row (mkGroupState group [] [] (Fin 0%Q))
      end
  end.

(** [[...entries].sort(cmp)] is stable: insertion from the right keeps equal
    keys in their original order. *)
Fixpoint sort_insert {A : Type} (x : string * A) (l : list (string * A))
  : list (string * A) :=
  match l with
  | [] => [x]
  | y :: rest =>
      if localeCompare (fst x) (fst y) <=? 0 then x :: y :: rest
      else y :: sort_insert x rest
  end.

Fixpoint sort_entries {A : Type} (l : list (string * A)) : list (string * A) :=
  match l with
  | [] => []
  | x :: rest => sort_insert x (sort_entries rest)
  end.

(** The inner loop of [toReduceSummary], writing the metrics into [output]. *)
Fixpoint write_metrics (entry : ReduceGroupState) (ms : list ReduceMetricSpec)
         (output : list (string * value)) : list (string * value) :=
  match ms with
  | [] => output
  | metric :: rest =>
      match op metric with
      | OpAvg =>
          let avg := match lookup (as_ metric) (averages entry) with
                     | Some a => a
                     | None => mkAverage (Fin 0%Q) (Fin 0%Q)
                     end in
          write_metrics entry rest
            (upsert (as_ metric)
                    (if is_zero (count avg) then VNull
                     else VNum (div (sum avg) (count avg)))
                    output)
      | _ =>
          write_metrics entry rest
            (upsert (as_ metric) (coalesce (values_get entry (as_ metric)) VNull) output)
      end
  end.

Definition output_row (spec : ReduceSpec) (entry : ReduceGroupState)
  : list (string * value) :=
  write_metrics entry (metrics spec) (group entry).

Definition toReduceSummary (spec : ReduceSpec) (state : groups) : ReduceSummary :=
  let sortedEntries := sort_entries state in
  let rows := map (fun entry => output_row spec (snd entry)) sortedEntries in
  mkSummary rows
            (fold_left (fun rowsIn entry => add rowsIn (inputCount (snd entry)))
                       sortedEntries (Fin 0%Q))
            (Z.of_nat (List.length rows)).

(** [finalize] and [groupCount] of the accumulator over [state]. *)
Definition finalize (spec : ReduceSpec) (state : groups) : ReduceSummary :=
  toReduceSummary spec state.

Definition groupCount (state : groups) : Z := Z.of_nat (List.length state).

(** Consuming a sequence of partial rows, stopping at the first throw. *)
Fixpoint consume_all (spec : ReduceSpec) (maxGroups : option Z) (state : groups)
         (partialRows : list (list (string * value))) : groups * option error :=
  match partialRows with
  | [] => (state, None)
  | row :: rest =>
      match consume spec maxGroups state row with
      | (state', Some e) => (state', Some e)
      | (state', None) => consume_all spec maxGroups state' rest
      end
  end.

(** [reducePartitionRows]: an accumulator without a bound. *)
Definition reducePartitionRows (spec : ReduceSpec)
           (partialRows : list (list (string * value))) : result ReduceSummary :=
  match consume_all spec None [] partialRows with
  | (state, None) => Ok (finalize spec state)
  | (_, Some e) => Throw e
  end.

(** *** What the statements about the accumulator use *)

(** The numbers a partial row carries, as [numericFrom] reads them ([0] where
    it throws; the statements use them for rows that were consumed). *)
Definition numeric_or_zero (r : result Q) : Q :=
  match r with
  | Ok q => q
  | Throw _ => 0%Q
  end.

Definition partial_count (row : list (string * value)) : Q :=
  numeric_or_zero (numericFrom (prop row INPUT_COUNT_FIELD) INPUT_COUNT_FIELD).

Definition partial_avg_sum (metric : ReduceMetricSpec) (row : list (string * value)) : Q :=
  numeric_or_zero (numericFrom (prop row (AVG_SUM_PREFIX ++ as_ metric))
                               (as_ metric ++ ".sum")).

Definition partial_avg_count (metric : ReduceMetricSpec) (row : list (string * value)) : Q :=
  numeric_or_zero (numericFrom (prop row (AVG_COUNT_PREFIX ++ as_ metric))
                               (as_ metric ++ ".count")).

(** A sum of doubles taken left to right from [0], as the accumulator adds:
    every addition rounds. *)
Definition sum_doubles (l : list Q) : number :=
  fold_left (fun acc q => add acc (Fin q)) l (Fin 0%Q).

Definition total (l : list number) : number := fold_left add l (Fin 0%Q).

(** The exact sum. *)
Definition sumQ (l : list Q) : Q := fold_left Qplus l 0%Q.

(** The partial rows of one group, in arrival order. *)
Definition partials_of (spec : ReduceSpec) (key : string)
           (partialRows : list (list (string * value))) : list (list (string * value)) :=
  filter (fun row => String.eqb (group_key spec row) key) partialRows.

(** [sum / count] of an [avg] metric over the partial rows of a group, [null]
    when the count is [0]; the sum and the count are sums of doubles in
    arrival order and the quotient is rounded. *)
Definition average_of (metric : ReduceMetricSpec)
           (groupRows : list (list (string * value))) : value :=
  let s := sum_doubles (map (partial_avg_sum metric) groupRows) in
  let c := sum_doubles (map (partial_avg_count metric) groupRows) in
  if is_zero c then VNull else VNum (div s c).

(** The order [toReduceSummary] sorts by. *)
Definition key_le (a b : string) : Prop := localeCompare a b <= 0.

Definition entry_le {A : Type} (x y : string * A) : Prop := key_le (fst x) (fst y).

Definition is_avg (o : ReduceOperation) : bool :=
  match o with
  | OpAvg => true
  | _ => false
  end.

Definition entry_count (entry : string * ReduceGroupState) : number :=
  inputCount (snd entry).

(** [rowsIn] as [toReduceSummary] adds it up over a list of entries. *)
Definition groups_total (entries : groups) : number :=
  fold_left (fun rowsIn entry => add rowsIn (inputCount (snd entry))) entries (Fin 0%Q).

(** The [inputCount] of the group [key] after [partialRows]. *)
Definition group_count (spec : ReduceSpec) (partialRows : list (list (string * value)))
           (key : string) : number :=
  sum_doubles (map partial_count (partials_of spec key partialRows)).

(** The running average of an alias in a group record. *)
Definition average_state (g : ReduceGroupState) (alias : string) : AverageState :=
  match lookup alias (averages g) with
  | Some a => a
  | None => mkAverage (Fin 0%Q) (Fin 0%Q)
  end.

(** What [toReduceSummary] writes under the alias of a metric. *)
Definition metric_value (g : ReduceGroupState) (metric : ReduceMetricSpec) : value :=
  match op metric with
  | OpAvg =>
      let avg := match lookup (as_ metric) (averages g) with
                 | Some a => a
                 | None => mkAverage (Fin 0%Q) (Fin 0%Q)
                 end in
      if is_zero (count avg) then VNull else VNum (div (sum avg) (count avg))
  | _ => coalesce (values_get g (as_ metric)) VNull
  end.

(** [row] is the output row of the group [key] of [partialRows]: outside the
    metric aliases it is the group mapping decoded from a partial row of that
    key, and under the alias of an [avg] metric it holds the group's
    average. *)
Definition row_of_group (spec : ReduceSpec) (partialRows : list (list (string * value)))
           (key : string) (row : list (string * value)) : Prop :=
  (exists p, In p partialRows /\ group_key spec p = key /\
     forall f, ~ In f (map as_ (metrics spec)) ->
               lookup f row = lookup f (decodeGroup (groupBy spec) (prop p "_id"))) /\
  (forall metric, In metric (metrics spec) -> op metric = OpAvg ->
     lookup (as_ metric) row = Some (average_of metric (partials_of spec key partialRows))).

(** [a] comes before [b] in the list. *)
Inductive precedes {A : Type} (a b : A) : list A -> Prop :=
| precedes_here : forall l, In b l -> precedes a b (a :: l)
| precedes_later : forall x l, precedes a b l -> precedes a b (x :: l).

(** The group [a] has a partial row before the group [b] has any. *)
Definition arrives_before (spec : ReduceSpec) (partialRows : list (list (string * value)))
           (a b : string) : Prop :=
  exists done rest,
    partialRows = done ++ rest /\
    In a (map (group_key spec) done) /\ ~ In b (map (group_key spec) done).

(** What the map holds once the partial rows [done] have been consumed: one
    record per key, in the order in which the keys first arrived, each with
    the counts and averages of its partial rows. *)
Definition accumulated (spec : ReduceSpec) (done : list (list (string * value)))
           (state : groups) : Prop :=
  NoDup (map fst state) /\
  (forall k, In k (map fst state) <-> In k (map (group_key spec) done)) /\
  (forall a b, precedes a b (map fst state) -> arrives_before spec done a b) /\
  (forall k g, lookup k state = Some g ->
     (exists p, In p done /\ group_key spec p = k /\
                group g = decodeGroup (groupBy spec) (prop p "_id")) /\
     inputCount g = group_count spec done k /\
     forall metric, In metric (metrics spec) -> op metric = OpAvg ->
       average_state g (as_ metric) =
       mkAverage (sum_doubles (map (partial_avg_sum metric) (partials_of spec k done)))
                 (sum_doubles (map (partial_avg_count metric) (partials_of spec k done)))).

Definition is_cardinality_error (thrown : option error) : bool :=
  match thrown with
  | Some (ReduceCardinalityExceeded _) => true
  | _ => false
  end.

End WithRuntime.

(** *** A [min] over two partial rows of one group *)

(** [{groupBy: ['region'], metrics: [{op: 'min', field: 'amount', as: 'minAmount'}]}] *)
Definition min_spec : ReduceSpec :=
  mkReduceSpec ["region"%string] [mkMetric OpMin (Some "amount"%string) "minAmount"].

(** A partial row of the group [{region: 'us'}] with [minAmount: v] and
    [__input_count: n]. *)
Definition min_partial (v : value) (n : Z) : list (string * value) :=
  [("_id", VObj [("region", VStr "us")]); ("minAmount", v);
   ("__input_count", VNum (Fin (inject_Z n)))]%string.

(** *** The partial rows of the repository's reduce test, with a count and
    an average *)

(** [{groupBy: ['region'], metrics: [{op: 'count', as: 'orders'},
    {op: 'avg', field: 'amount', as: 'avgAmount'}]}] *)
Definition orders_spec : ReduceSpec :=
  mkReduceSpec ["region"%string]
               [mkMetric OpCount None "orders";
                mkMetric OpAvg (Some "amount"%string) "avgAmount"].

Definition orders_partial (region : string) (orders amount : Z) : list (string * value) :=
  [("_id", VObj [("region", VStr region)]);
   ("orders", VNum (Fin (inject_Z orders)));
   ("__avg_sum__avgAmount", VNum (Fin (inject_Z amount)));
   ("__avg_count__avgAmount", VNum (Fin (inject_Z orders)));
   ("__input_count", VNum (Fin (inject_Z orders)))]%string.

Definition orders_partials : list (list (string * value)) :=
  [orders_partial "us" 2 30; orders_partial "us" 1 15; orders_partial "br" 1 5].

End ReduceEngine.

(* ------------------------------------------------------------------ *)
(** ** reduce-engine.ts and job-processor.ts: the aggregation pipelines *)

Module Pipelines.
Import Js ReduceEngine.
#[local] Open Scope string_scope.

(** [Object.assign(target, source)] and the spread of [source] into an
    object literal that already holds [target]: every entry of [source] is
    written in order, a key that is present keeping its place. *)
Definition assign (target source : list (string * value)) : list (string * value) :=
  fold_left (fun o kv => upsert (fst kv) (snd kv) o) source target.

(** [`$${field}`]; the template prints a missing field as [undefined]. *)
Definition field_ref (field : option string) : value :=
  VStr ("$" ++ match field with Some f => f | None => "undefined" end).

Definition one : value := VNum (Fin 1%Q).

(** [buildGroupIdExpression] *)
Definition buildGroupIdExpression (groupBy : list string) : value :=
  match groupBy with
  | [] => VNull
  | _ => VObj (fromEntries (map (fun f => (f, VStr ("$" ++ f))) groupBy))
  end.

(** [buildMetricAccumulator]; the [default] branch of the [switch] has no
    operation left to reach it. *)
Definition buildMetricAccumulator (metric : ReduceMetricSpec) : list (string * value) :=
  match op metric with
  | OpCount => fromEntries [(as_ metric, VObj [("$sum", one)])]
  | OpSum => fromEntries [(as_ metric, VObj [("$sum", field_ref (field metric))])]
  | OpMin => fromEntries [(as_ metric, VObj [("$min", field_ref (field metric))])]
  | OpMax => fromEntries [(as_ metric, VObj [("$max", field_ref (field metric))])]
  | OpAvg =>
      fromEntries
        [(AVG_SUM_PREFIX ++ as_ metric, VObj [("$sum", field_ref (field metric))]);
         (AVG_COUNT_PREFIX ++ as_ metric,
          VObj [("$sum",
                 VObj [("$cond",
                        VArr [VObj [("$ne", VArr [field_ref (field metric); VNull])];
                              one; VNum (Fin 0%Q)])])])]
  end%string.

(** The accumulators of the [$group] stage: the metrics' in order, then
    [groupAcc[INPUT_COUNT_FIELD] = { $sum: 1 }]. *)
Definition group_accumulators (spec : ReduceSpec) : list (string * value) :=
  upsert INPUT_COUNT_FIELD (VObj [("$sum", one)]%string)
         (fold_left (fun acc metric => assign acc (buildMetricAccumulator metric))
                    (metrics spec) []).

(** [{ tenantId, ...filters, ...idMatch }] *)
Definition match_stage (tenantId : string) (filters idMatch : list (string * value))
  : list (string * value) :=
  assign (assign [("tenantId", VStr tenantId)]%string filters) idMatch.

(** [{ _id: groupIdExpr, ...groupAcc }] *)
Definition group_stage (spec : ReduceSpec) : list (string * value) :=
  assign [("_id", buildGroupIdExpression (groupBy spec))]%string (group_accumulators spec).

(** [buildReducePartitionPipeline] *)
Definition buildReducePartitionPipeline (tenantId : string)
           (filters idMatch : list (string * value)) (spec : ReduceSpec) : list value :=
  [VObj [("$match", VObj (match_stage tenantId filters idMatch))];
   VObj [("$group", VObj (group_stage spec))]]%string.

(** The object [rangeToIdMatch] returns, as a document. *)
Definition id_match_doc (m : Partitioner.IdMatch) : list (string * value) :=
  [("_id",
    VObj (("$gte", VObjectId (Partitioner.gte m))
          :: match Partitioner.lt m with
             | Some e => [("$lt", VObjectId e)]
             | None => []
             end))]%string.

(** The keys [mergeMetricValue] reads from a partial row for a metric. *)
Definition metric_keys (metric : ReduceMetricSpec) : list string :=
  match op metric with
  | OpAvg => [AVG_SUM_PREFIX ++ as_ metric; AVG_COUNT_PREFIX ++ as_ metric]
  | _ => [as_ metric]
  end%string.

End Pipelines.

(* ------------------------------------------------------------------ *)
(** ** report-generators/src/index.ts: the delimited and the JSON array
    streams *)

Module Formats.
Import Js.

Definition dquote_char : ascii := ascii_of_nat 34.
Definition dquote : string := String dquote_char EmptyString.
Definition comma_char : ascii := ascii_of_nat 44.
Definition lf_char : ascii := ascii_of_nat 10.

(** [raw.replace] of every double quote by two of them. *)
Fixpoint double_quotes (raw : string) : string :=
  match raw with
  | EmptyString => EmptyString
  | String c rest =>
      if Ascii.eqb c dquote_char then String c (String c (double_quotes rest))
      else String c (double_quotes rest)
  end.

(** [raw.includes] of a comma, of a double quote or of a line feed. *)
Definition needs_quotes (raw : string) : bool :=
  includes "," raw || includes dquote raw || includes LF raw.

(** The second half of [escapeCsv], on the text of the value. *)
Definition escape_raw (raw : string) : string :=
  if needs_quotes raw then (dquote ++ double_quotes raw ++ dquote)%string else raw.

(** [array.join(sep)] on strings. *)
Fixpoint join (sep : string) (l : list string) : string :=
  match l with
  | [] => EmptyString
  | [x] => x
  | x :: rest => (x ++ sep ++ join sep rest)%string
  end.

Fixpoint concat_all (chunks : list string) : string :=
  match chunks with
  | [] => EmptyString
  | c :: rest => (c ++ concat_all rest)%string
  end.

Section WithRuntime.
Context {RT : Runtime}.

(** The text [escapeCsv] escapes: a string as it is, a [Date] by
    [toISOString], anything else by [JSON.stringify], which gives
    [undefined] for a function, so that [raw.includes] throws. *)
Definition raw_text (v : value) : result string :=
  match v with
  | VStr s => Ok s
  | VDate t =>
      match t with
      | Some ms => Ok (toISOString ms)
      | None => Throw InvalidTimeValue
      end
  | VFunction _ => Throw IncludesOfUndefined
  | _ => Ok (JSON_stringify v)
  end.

Definition escapeCsv (v : value) : result string :=
  if nullish v then Ok EmptyString
  else match raw_text v with
       | Ok raw => Ok (escape_raw raw)
       | Throw e => Throw e
       end.

(** The [transform] of [createCsvStream] over the rows that arrive:
    [headers] is the closure's variable, [chunks] what was pushed so far
    (latest last); the second component is the error when [transform]
    throws. *)
Fixpoint csv_rows (rows : list (list (string * value))) (headers : option (list string))
         (chunks : list string) : list string * option error :=
  match rows with
  | [] => (chunks, None)
  | row :: rest =>
      let headers' := match headers with Some h => h | None => map fst row end in
      let chunks' :=
        match headers with
        | Some _ => chunks
        | None => chunks ++ [(join "," headers' ++ LF)%string]
        end in
      match mapM (fun header => escapeCsv (prop row header)) headers' with
      | Throw e => (chunks', Some e)
      | Ok values =>
          csv_rows rest (Some headers') (chunks' ++ [(join "," values ++ LF)%string])
      end
  end.

Definition createCsvStream (rows : list (list (string * value)))
  : list string * option error :=
  csv_rows rows None [].

(** The line [transform] pushes for [row] under the columns [headers]. *)
Definition is_line (headers : list string) (row : list (string * value))
           (line : string) : Prop :=
  exists cells,
    Forall2 (fun header cell => escapeCsv (prop row header) = Ok cell) headers cells /\
    line = (join "," cells ++ LF)%string.

(** The cells [escapeCsv] throws on, with the error: the [RangeError] of an
    invalid [Date] and the [TypeError] of a function, whose
    [JSON.stringify] is [undefined]. *)
Definition failing_cell (cell : value) (e : error) : Prop :=
  (cell = VDate None /\ e = InvalidTimeValue) \/
  (exists name, cell = VFunction name /\ e = IncludesOfUndefined).

(** The [transform] and the [final] of [createJsonArrayStream]. *)
Fixpoint json_rows (rows : list (list (string * value))) (isFirst : bool)
         (chunks : list string) : list string :=
  match rows with
  | [] => chunks ++ [if isFirst then "[]" else "]"]%string
  | row :: rest =>
      json_rows rest false
        (chunks ++ [((if isFirst then "[" else ",") ++ JSON_stringify (VObj row))%string])
  end.

Definition createJsonArrayStream (rows : list (list (string * value))) : list string :=
  json_rows rows true [].

End WithRuntime.

(** *** Reading a delimited record back *)

(** A reader of one record in the common CSV convention: a field that
    begins with a quote runs to the closing quote, a doubled quote inside it
    standing for one; any other field runs to the next comma.  [field] holds
    the characters of the current field, latest first. *)
Inductive read_state : Type :=
| AtStart
| InPlain
| InQuoted
| AfterQuote.

Fixpoint rev_string (s acc : string) : string :=
  match s with
  | EmptyString => acc
  | String c rest => rev_string rest (String c acc)
  end.

Fixpoint read_record (s : string) (st : read_state) (field : string)
  : list string :=
  match s with
  | EmptyString => [rev_string field EmptyString]
  | String c rest =>
      match st with
      | AtStart =>
          if Ascii.eqb c dquote_char then read_record rest InQuoted field
          else if Ascii.eqb c comma_char
               then rev_string field EmptyString :: read_record rest AtStart EmptyString
               else read_record rest InPlain (String c field)
      | InPlain =>
          if Ascii.eqb c comma_char
          then rev_string field EmptyString :: read_record rest AtStart EmptyString
          else read_record rest InPlain (String c field)
      | InQuoted =>
          if Ascii.eqb c dquote_char then read_record rest AfterQuote field
          else read_record rest InQuoted (String c field)
      | AfterQuote =>
          if Ascii.eqb c dquote_char then read_record rest InQuoted (String c field)
          else if Ascii.eqb c comma_char
               then rev_string field EmptyString :: read_record rest AtStart EmptyString
               else read_record rest InPlain (String c field)
      end
  end.

Definition read_fields (line : string) : list string := read_record line AtStart EmptyString.

(** What follows a field in a record: nothing, or a comma and the rest. *)
Definition after_field (tail : string) : list string :=
  match tail with
  | EmptyString => []
  | String _ more => read_fields more
  end.

End Formats.

(* ------------------------------------------------------------------ *)
(** ** What the further statements use *)

Module Statements.
Import Js ReduceEngine.

(** A metric [validateReduceSpec] lets through. *)
Definition metric_ok (metric : ReduceMetricSpec) : Prop :=
  is_identifier (as_ metric) = true /\
  (op metric <> OpCount ->
   exists f, field metric = Some f /\ is_identifier f = true).

Definition spec_ok (spec : ReduceSpec) : Prop :=
  metrics spec <> [] /\
  Forall (fun g => is_identifier g = true) (groupBy spec) /\
  Forall metric_ok (metrics spec) /\
  NoDup (map as_ (metrics spec)).

Definition is_sum (o : ReduceOperation) : bool :=
  match o with
  | OpCount | OpSum => true
  | _ => false
  end.

Definition is_extremum (o : ReduceOperation) : bool :=
  match o with
  | OpMin | OpMax => true
  | _ => false
  end.

(** [a] is at least as good as [b] for the operation: below it for [min],
    above it for [max]. *)
Definition beats (o : ReduceOperation) (a b : Q) : Prop :=
  match o with
  | OpMin => (a <= b)%Q
  | _ => (b <= a)%Q
  end.

Section WithRuntime.
Context {RT : Runtime}.

(** The record [consume] creates for a key it has not seen. *)
Definition fresh_group (spec : ReduceSpec) (row : list (string * value)) : ReduceGroupState :=
  mkGroupState (decodeGroup (groupBy spec) (prop row "_id")) [] [] (Fin 0%Q).

(** One [consume] of [row] into the record [g] of its group, without a
    throw, leaves [g']. *)
Definition folds_into (spec : ReduceSpec) (g : ReduceGroupState)
           (row : list (string * value)) (g' : ReduceGroupState) : Prop :=
  exists n,
    numericFrom (prop row INPUT_COUNT_FIELD) INPUT_COUNT_FIELD = Ok n /\
    merge_metrics (set_inputCount g (add (inputCount g) (Fin n))) (metrics spec) row
    = (g', None).

(** [g] is the record of a group after its partial rows [rows] were
    consumed, in this order, without a throw. *)
Inductive folded (spec : ReduceSpec)
  : list (list (string * value)) -> ReduceGroupState -> Prop :=
| folded_first : forall row g,
    folds_into spec (fresh_group spec row) row g -> folded spec [row] g
| folded_next : forall rows g row g',
    folded spec rows g -> folds_into spec g row g' -> folded spec (rows ++ [row]) g'.

(** What the map holds, group by group, once [done] has been consumed. *)
Definition grouped (spec : ReduceSpec) (done : list (list (string * value)))
           (state : groups) : Prop :=
  NoDup (map fst state) /\
  (forall k, In k (map fst state) <-> In k (map (group_key spec) done)) /\
  (forall k g, lookup k state = Some g -> folded spec (partials_of spec k done) g).

(** The value a partial row carries for a [count] or [sum] metric. *)
Definition partial_value (metric : ReduceMetricSpec) (row : list (string * value)) : Q :=
  numeric_or_zero (numericFrom (prop row (as_ metric)) (as_ metric)).

(** The values [numericFrom] reads without a throw. *)
Definition is_number (v : value) : bool :=
  nullish v || match Number_ v with Fin _ => true | _ => false end.

(** A partial row whose count and whose [count], [sum] and [avg] columns
    all read as numbers. *)
Definition numeric_partial (spec : ReduceSpec) (row : list (string * value)) : Prop :=
  is_number (prop row INPUT_COUNT_FIELD) = true /\
  forall metric, In metric (metrics spec) ->
    match op metric with
    | OpCount | OpSum => is_number (prop row (as_ metric)) = true
    | OpAvg =>
        is_number (prop row (AVG_SUM_PREFIX ++ as_ metric)) = true /\
        is_number (prop row (AVG_COUNT_PREFIX ++ as_ metric)) = true
    | OpMin | OpMax => True
    end.

(** Before each partial row, the running sum of every [count] and [sum]
    metric in the group of the row is finite: no addition has overflowed. *)
Definition sums_stay_finite (spec : ReduceSpec)
           (partialRows : list (list (string * value))) : Prop :=
  forall done row rest, partialRows = done ++ row :: rest ->
  forall metric, In metric (metrics spec) -> is_sum (op metric) = true ->
    is_finite (sum_doubles (map (partial_value metric)
                                (partials_of spec (group_key spec row) done))) = true.

(** The field names [mergeMetricValue] can report for a metric. *)
Definition reported_by (metric : ReduceMetricSpec) (fieldName : string) : Prop :=
  match op metric with
  | OpCount | OpSum => fieldName = as_ metric
  | OpAvg => fieldName = (as_ metric ++ ".sum")%string \/
             fieldName = (as_ metric ++ ".count")%string
  | OpMin | OpMax => False
  end.

(** The number of distinct group keys among the partial rows. *)
Definition distinct_groups (spec : ReduceSpec)
           (partialRows : list (list (string * value))) : Z :=
  Z.of_nat (List.length (nodup string_dec (map (group_key spec) partialRows))).

End WithRuntime.

End Statements.

(* ------------------------------------------------------------------ *)
(** ** A runtime for the closed examples *)

(** An instance of [Runtime] to run the definitions on concrete inputs.  It
    prints integral numbers and strings that need no escape, collates strings
    by length and then bytewise, reads decimal integers, and knows no class
    member beyond the methods of [Object.prototype]; the examples stay within
    that. *)
Module TestRuntime.
Import Js.

Definition quote : string := String (ascii_of_nat 34) EmptyString.

Definition quoted (s : string) : string := (quote ++ s ++ quote)%string.

Fixpoint join_with (sep : string) (l : list string) : string :=
  match l with
  | [] => EmptyString
  | [x] => x
  | x :: rest => (x ++ sep ++ join_with sep rest)%string
  end.

(** [n] decimal digits of [v], zero-padded. *)
Fixpoint digits (n : nat) (v : Z) (acc : string) : string :=
  match n with
  | O => acc
  | S n' => digits n' (v / 10) (String (ascii_of_nat (48 + Z.to_nat (v mod 10))) acc)
  end.

(** The proleptic Gregorian date of a day number (days since 1970-01-01). *)
Definition civil_from_days (z : Z) : Z * Z * Z :=
  let z := z + 719468 in
  let era := z / 146097 in
  let doe := z - era * 146097 in
  let yoe := (doe - doe / 1460 + doe / 36524 - doe / 146096) / 365 in
  let doy := doe - (365 * yoe + yoe / 4 - yoe / 100) in
  let mp := (5 * doy + 2) / 153 in
  let d := doy - (153 * mp + 2) / 5 + 1 in
  let m := if mp <? 10 then mp + 3 else mp - 9 in
  let y := yoe + era * 400 + (if m <=? 2 then 1 else 0) in
  (y, m, d).

(** [YYYY-MM-DDTHH:mm:ss.sssZ], for the years 0 to 9999. *)
Definition iso (ms : Z) : string :=
  let '(y, m, d) := civil_from_days (ms / 86400000) in
  let t := ms mod 86400000 in
  (digits 4 y "" ++ "-" ++ digits 2 m "" ++ "-" ++ digits 2 d "" ++ "T"
   ++ digits 2 (t / 3600000) "" ++ ":" ++ digits 2 (t / 60000 mod 60) "" ++ ":"
   ++ digits 2 (t / 1000 mod 60) "" ++ "." ++ digits 3 (t mod 1000) "" ++ "Z")%string.

Definition stringify_number (n : number) : string :=
  match n with
  | Fin q => show_Z (Qnum q / Zpos (Qden q))
  | _ => "null"
  end.

(** A property [JSON.stringify] leaves out of an object. *)
Definition omitted (v : value) : bool :=
  match v with
  | VUndefined | VFunction _ => true
  | _ => false
  end.

Fixpoint stringify (v : value) : string :=
  match v with
  | VUndefined | VNull => "null"
  | VBool b => if b then "true" else "false"
  | VNum n => stringify_number n
  | VStr s => quoted s
  | VObjectId id => quoted (toHexString id)
  | VDate t => match t with Some ms => quoted (iso ms) | None => "null" end
  | VArr items => "[" ++ join_with "," (map stringify items) ++ "]"
  | VObj entries =>
      "{" ++ join_with ","
               (filter (fun text => negb (String.eqb text EmptyString))
                       (map (fun kv => if omitted (snd kv) then EmptyString
                                       else quoted (fst kv) ++ ":" ++ stringify (snd kv))
                            entries))
          ++ "}"
  | VFunction _ => "null"
  | VObjectPrototype => "{}"
  end%string.

(** An order-preserving key for "shorter first, then bytewise". *)
Fixpoint collation_key (s : string) (acc : Z) : Z :=
  match s with
  | EmptyString => acc
  | String c s' => collation_key s' (256 * acc + Z.of_nat (nat_of_ascii c))
  end.

Definition collate (a b : string) : Z :=
  let ka := collation_key a 1 in
  let kb := collation_key b 1 in
  if ka <? kb then -1 else if ka =? kb then 0 else 1.

Definition read_number (s : string) : number :=
  match s with
  | EmptyString => Fin 0%Q
  | _ => match NilZero.int_of_string s with
         | Some i => Fin (inject_Z (Z.of_int i))
         | None => NaN
         end
  end.

Definition runtime : Runtime := {|
  JSON_stringify := stringify;
  toISOString := iso;
  localeCompare := collate;
  StringToNumber := read_number;
  ObjectToNumber := fun _ => NaN;
  string_lt := String.ltb;
  path_join := fun dir name => (dir ++ "/" ++ name)%string;
  class_member := fun _ k => if is_object_prototype_method k then VFunction k else VUndefined
|}.

End TestRuntime.

(* ================================================================== *)
(** * Properties *)

(* ------------------------------------------------------------------ *)
(** ** Values and tables *)

Module JsProps.
Import Js.

(** Induction on values with the hypothesis for every element of an array
    and every entry of an object. *)
Lemma value_ind : forall P : value -> Prop,
  P VUndefined -> P VNull -> (forall b, P (VBool b)) -> (forall n, P (VNum n)) ->
  (forall s, P (VStr s)) -> (forall id, P (VObjectId id)) -> (forall t, P (VDate t)) ->
  (forall items, Forall P items -> P (VArr items)) ->
  (forall entries, Forall (fun kv => P (snd kv)) entries -> P (VObj entries)) ->
  (forall name, P (VFunction name)) -> P VObjectPrototype ->
  forall v, P v.
Proof.
  intros P P_undefined P_null P_bool P_num P_str P_oid P_date P_arr P_obj P_fun P_proto.
  exact (fix self (v : value) : P v :=
           match v with
           | VUndefined => P_undefined
           | VNull => P_null
           | VBool b => P_bool b
           | VNum n => P_num n
           | VStr s => P_str s
           | VObjectId id => P_oid id
           | VDate t => P_date t
           | VArr items =>
               P_arr items
                 ((fix all (l : list value) : Forall P l :=
                     match l with
                     | [] => Forall_nil P
                     | x :: rest => Forall_cons x (self x) (all rest)
                     end) items)
           | VObj entries =>
               P_obj entries
                 ((fix all (l : list (string * value))
                     : Forall (fun kv => P (snd kv)) l :=
                     match l with
                     | [] => Forall_nil _
                     | kv :: rest => Forall_cons kv (self (snd kv)) (all rest)
                     end) entries)
           | VFunction name => P_fun name
           | VObjectPrototype => P_proto
           end).
Qed.

Section Tables.
Context {A : Type}.
Implicit Types (l : list (string * A)) (k : string) (a : A).

Lemma lookup_upsert_same : forall l k a, lookup k (upsert k a l) = Some a.
Proof.
  induction l as [|[k' a'] l IH]; intros k a; cbn.
  - now rewrite String.eqb_refl.
  - destruct (String.eqb_spec k k') as [->|Hne]; cbn.
    + now rewrite String.eqb_refl.
    + destruct (String.eqb_spec k k'); [contradiction | apply IH].
Qed.

Lemma lookup_upsert_other : forall l k k' a,
  k <> k' -> lookup k (upsert k' a l) = lookup k l.
Proof.
  induction l as [|[k0 a0] l IH]; intros k k' a Hne; cbn.
  - destruct (String.eqb_spec k k'); [contradiction | reflexivity].
  - destruct (String.eqb_spec k' k0) as [->|Hne0]; cbn.
    + destruct (String.eqb_spec k k0); [contradiction | reflexivity].
    + destruct (String.eqb_spec k k0); [reflexivity | now apply IH].
Qed.

Lemma lookup_None_iff : forall l k, lookup k l = None <-> ~ In k (map fst l).
Proof.
  induction l as [|[k' a'] l IH]; intros k; cbn.
  - tauto.
  - destruct (String.eqb_spec k k') as [->|Hne].
    + split; [discriminate | intros H; exfalso; apply H; now left].
    + rewrite IH. split; [intros H [E|I]; [congruence | tauto] | tauto].
Qed.

Lemma lookup_In : forall l k a,
  NoDup (map fst l) -> In (k, a) l -> lookup k l = Some a.
Proof.
  induction l as [|[k' a'] l IH]; intros k a Hnd Hin; [destruct Hin|].
  cbn in Hnd. inversion Hnd as [|? ? Hnotin Hnd']; subst.
  cbn. destruct Hin as [E|Hin].
  - injection E as -> ->. now rewrite String.eqb_refl.
  - destruct (String.eqb_spec k k') as [->|_]; [|now apply IH].
    exfalso. apply Hnotin. change k' with (fst (k', a)). now apply in_map.
Qed.


Lemma upsert_keys_absent : forall l k a,
  ~ In k (map fst l) -> upsert k a l = l ++ [(k, a)].
Proof.
  induction l as [|[k' a'] l IH]; intros k a Hn; cbn; [reflexivity|].
  destruct (String.eqb_spec k k') as [->|_].
  - exfalso. apply Hn. now left.
  - f_equal. apply IH. intros Hin. apply Hn. now right.
Qed.

Lemma upsert_keys_present : forall l k a,
  In k (map fst l) -> map fst (upsert k a l) = map fst l.
Proof.
  induction l as [|[k' a'] l IH]; intros k a Hin; [destruct Hin|].
  cbn. destruct (String.eqb_spec k k') as [->|Hne]; [reflexivity|].
  cbn. f_equal. apply IH. destruct Hin as [E|Hin]; [cbn in E; congruence | exact Hin].
Qed.

Lemma upsert_length : forall l k a,
  List.length (upsert k a l) =
  match lookup k l with
  | Some _ => List.length l
  | None => S (List.length l)
  end.
Proof.
  induction l as [|[k' a'] l IH]; intros k a; cbn; [reflexivity|].
  destruct (String.eqb_spec k k'); cbn; [reflexivity|].
  rewrite IH. now destruct (lookup k l).
Qed.

Lemma upsert_Forall : forall (P : string * A -> Prop) l k a,
  Forall P l -> (forall k', k' = k -> P (k', a)) -> Forall P (upsert k a l).
Proof.
  induction l as [|[k' a'] l IH]; intros k a Hl Hk; cbn.
  - constructor; [now apply Hk | constructor].
  - inversion Hl; subst.
    destruct (String.eqb_spec k k') as [->|_]; constructor; auto.
Qed.

Lemma upsert_NoDup : forall l k a,
  NoDup (map fst l) -> NoDup (map fst (upsert k a l)).
Proof.
  intros l k a Hnd.
  destruct (in_dec string_dec k (map fst l)) as [Hin|Hout].
  - now rewrite upsert_keys_present.
  - rewrite upsert_keys_absent, map_app by assumption. cbn.
    apply NoDup_app; [exact Hnd | repeat constructor; intros [] | ].
    intros x Hx [<-|[]]. contradiction.
Qed.

Lemma fromEntries_acc : forall l acc,
  NoDup (map fst (acc ++ l)) ->
  fold_left (fun o kv => upsert (fst kv) (snd kv) o) l acc = acc ++ l.
Proof.
  induction l as [|[k a] l IH]; intros acc Hnd; cbn.
  - now rewrite app_nil_r.
  - assert (Hout : ~ In k (map fst acc)).
    { rewrite map_app in Hnd. cbn in Hnd. apply NoDup_remove_2 in Hnd.
      intros Hin. apply Hnd. apply in_or_app. now left. }
    rewrite upsert_keys_absent by exact Hout.
    rewrite IH; rewrite <- app_assoc; [reflexivity | exact Hnd].
Qed.

Lemma fromEntries_unique : forall l, NoDup (map fst l) -> fromEntries l = l.
Proof. intros l Hnd. unfold fromEntries. now rewrite fromEntries_acc. Qed.

Lemma fromEntries_invariant : forall (P : string * A -> Prop) l,
  Forall P l -> NoDup (map fst (fromEntries l)) /\ Forall P (fromEntries l).
Proof.
  intros P l Hl. unfold fromEntries.
  assert (H : forall acc, NoDup (map fst acc) -> Forall P acc ->
            NoDup (map fst (fold_left (fun o kv => upsert (fst kv) (snd kv) o) l acc))
            /\ Forall P (fold_left (fun o kv => upsert (fst kv) (snd kv) o) l acc)).
  { induction Hl as [|[k a] l Hk Hl IH]; intros acc Hnd Hacc; cbn; [now split|].
    apply IH; [now apply upsert_NoDup|].
    apply upsert_Forall; [exact Hacc | now intros k' ->]. }
  apply H; constructor.
Qed.
End Tables.

Lemma append_assoc : forall a b c : string, ((a ++ b) ++ c = a ++ (b ++ c))%string.
Proof. induction a as [|x a IH]; intros b c; cbn; [reflexivity | now rewrite IH]. Qed.

Lemma append_empty_r : forall a : string, (a ++ "" = a)%string.
Proof. induction a as [|x a IH]; cbn; [reflexivity | now rewrite IH]. Qed.

Lemma length_append : forall a b : string,
  String.length (a ++ b) = (String.length a + String.length b)%nat.
Proof. induction a as [|x a IH]; intros b; cbn; [reflexivity | now rewrite IH]. Qed.

Lemma prefix_append : forall p s : string, String.prefix p (p ++ s) = true.
Proof.
  induction p as [|c p IH]; intros s; cbn; [now destruct s|].
  destruct (ascii_dec c c); [apply IH | contradiction].
Qed.

Lemma lower_append : forall a b : string, lower (a ++ b) = (lower a ++ lower b)%string.
Proof. induction a as [|x a IH]; intros b; cbn; [reflexivity | now rewrite IH]. Qed.

Lemma includes_prefix : forall p s : string, includes p (p ++ s) = true.
Proof.
  intros p s. destruct (p ++ s)%string eqn:E; cbn [includes];
    rewrite <- E, prefix_append; reflexivity.
Qed.

Section MapM.
Context {A B : Type} (f : A -> result B).

Lemma mapM_Ok : forall l l',
  mapM f l = Ok l' -> Forall2 (fun x y => f x = Ok y) l l'.
Proof.
  induction l as [|x l IH]; intros l' H; cbn in H.
  - injection H as <-. constructor.
  - destruct (f x) as [y|e] eqn:Hx; [|discriminate].
    destruct (mapM f l) as [ys|e] eqn:Hl; [|discriminate].
    injection H as <-. constructor; [exact Hx | now apply IH].
Qed.

Lemma mapM_Throw : forall l e,
  mapM f l = Throw e -> exists x, In x l /\ f x = Throw e.
Proof.
  induction l as [|x l IH]; intros e H; cbn in H; [discriminate|].
  destruct (f x) as [y|e'] eqn:Hx.
  - destruct (mapM f l) as [ys|e'] eqn:Hl; [discriminate|].
    injection H as ->. destruct (IH e eq_refl) as [x' [Hin Hx']].
    exists x'. split; [now right | exact Hx'].
  - injection H as ->. exists x. split; [now left | exact Hx].
Qed.
End MapM.

Lemma mapM_fixed : forall {A : Type} (f : A -> result A) (l : list A),
  Forall (fun x => f x = Ok x) l -> mapM f l = Ok l.
Proof.
  intros A f l H. induction H as [|x l Hx Hl IH]; cbn; [reflexivity|].
  now rewrite Hx, IH.
Qed.


(** *** Double arithmetic on whole numbers *)

Lemma Qred_inject_Z : forall n, Qred (inject_Z n) = inject_Z n.
Proof.
  intros n. unfold Qred, inject_Z.
  pose proof (Z.ggcd_gcd n 1) as Hg.
  pose proof (Z.ggcd_correct_divisors n 1) as Hd.
  destruct (Z.ggcd n 1) as [g [a b]]. cbn [fst snd] in *.
  rewrite Z.gcd_1_r in Hg. subst g. destruct Hd as [Ha Hb].
  rewrite Z.mul_1_l in Ha, Hb. now subst.
Qed.

Lemma round_half_even_integer : forall x k,
  (x == inject_Z k)%Q -> round_half_even x = k.
Proof.
  intros [n d] k H. unfold Qeq in H. cbn in H. rewrite Z.mul_1_r in H.
  unfold round_half_even. cbn [Qnum Qden]. subst n.
  rewrite Z.mod_mul by discriminate. rewrite Z.div_mul by discriminate.
  cbn. reflexivity.
Qed.

Lemma pow2_nonpos : forall e, e <= 0 -> (pow2 e * inject_Z (2 ^ (- e)) == 1)%Q.
Proof.
  intros e He. unfold pow2. destruct (Z.leb_spec 0 e) as [H0|H0].
  - assert (e = 0) by lia. subst e. reflexivity.
  - rewrite Qmult_comm. apply Qmult_inv_r.
    intros H. unfold Qeq in H. cbn in H. rewrite Z.mul_1_r in H.
    pose proof (Z.pow_pos_nonneg 2 (- e) ltac:(lia) ltac:(lia)). lia.
Qed.

(** A whole number below [2 ^ 53] is a double: rounding leaves it as it
    is. *)
Lemma round_whole : forall q,
  whole q -> (q < inject_Z (2 ^ 53))%Q -> round q = Fin (Qred q).
Proof.
  intros q [n [Hn Hq]] Hlt.
  assert (Hlt' : n < 2 ^ 53).
  { rewrite Hq in Hlt. now rewrite <- Zlt_Qlt in Hlt. }
  unfold round. rewrite (Qred_complete _ _ Hq), Qred_inject_Z.
  destruct (Z.eq_dec n 0) as [->|Hne]; [reflexivity|].
  assert (Hpos : 0 < n) by lia.
  replace (Qeq_bool (inject_Z n) 0) with false.
  2: { symmetry. apply not_true_iff_false. intros H. apply Qeq_bool_iff in H.
       unfold Qeq in H. cbn in H. lia. }
  assert (Habs : Qabs (inject_Z n) = inject_Z n).
  { unfold Qabs, inject_Z. now rewrite Z.abs_eq by lia. }
  rewrite Habs.
  assert (Hlog : ilog2 (inject_Z n) = Z.log2 n).
  { unfold ilog2. cbn [Qnum Qden inject_Z]. change (Z.log2 1) with 0. rewrite Z.sub_0_r.
    pose proof (Z.log2_spec n Hpos) as [Hlo _].
    pose proof (Z.log2_nonneg n).
    assert (Hb : Qle_bool (pow2 (Z.log2 n)) (inject_Z n) = true).
    { apply Qle_bool_iff. unfold pow2.
      destruct (Z.leb_spec 0 (Z.log2 n)); [|lia]. now rewrite <- Zle_Qle. }
    now rewrite Hb. }
  rewrite Hlog.
  assert (Hl52 : Z.log2 n <= 52).
  { pose proof (Z.log2_lt_pow2 n 53 Hpos). lia. }
  pose proof (Z.log2_nonneg n) as Hl0.
  rewrite Z.max_l by lia.
  set (e := Z.log2 n - 52).
  assert (He : e <= 0) by (subst e; lia).
  pose proof (pow2_nonpos e He) as Hp.
  assert (Hp0 : ~ (pow2 e == 0)%Q).
  { intros H0. rewrite H0 in Hp. now apply (Q_apart_0_1). }
  assert (Hint : (inject_Z n / pow2 e == inject_Z (n * 2 ^ (- e)))%Q).
  { rewrite inject_Z_mult. unfold Qdiv.
    assert (Hinv : (/ pow2 e == inject_Z (2 ^ (- e)))%Q).
    { rewrite <- (Qmult_1_l (/ pow2 e)), <- Hp. field. exact Hp0. }
    now rewrite Hinv. }
  rewrite (round_half_even_integer _ _ Hint).
  assert (Hr : (inject_Z (n * 2 ^ (- e)) * pow2 e == inject_Z n)%Q).
  { rewrite inject_Z_mult.
    rewrite <- Qmult_assoc, (Qmult_comm (inject_Z (2 ^ (- e)))), Hp. ring. }
  replace (Qle_bool (pow2 1024) (inject_Z (n * 2 ^ (- e)) * pow2 e)) with false.
  2: { symmetry. apply not_true_iff_false. intros H. apply Qle_bool_iff in H.
       rewrite Hr in H. change (pow2 1024) with (inject_Z (2 ^ 1024)) in H.
       rewrite <- Zle_Qle in H.
       assert (2 ^ 53 < 2 ^ 1024) by (apply Z.pow_lt_mono_r; lia). lia. }
  replace (Qle_bool 0 (inject_Z n)) with true.
  2: { symmetry. apply Qle_bool_iff. change 0%Q with (inject_Z 0).
       rewrite <- Zle_Qle. lia. }
  rewrite (Qred_complete _ _ Hr), Qred_inject_Z. reflexivity.
Qed.

Lemma whole_proper : forall q q', (q == q')%Q -> whole q -> whole q'.
Proof. intros q q' E [n [Hn Hq]]. exists n. split; [exact Hn|]. now rewrite <- E. Qed.

Lemma whole_nonneg : forall q, whole q -> (0 <= q)%Q.
Proof.
  intros q [n [Hn Hq]]. rewrite Hq. change 0%Q with (inject_Z 0). now rewrite <- Zle_Qle.
Qed.

Lemma whole_plus : forall x y, whole x -> whole y -> whole (x + y)%Q.
Proof.
  intros x y [n [Hn Hx]] [m [Hm Hy]]. exists (n + m). split; [lia|].
  now rewrite Hx, Hy, inject_Z_plus.
Qed.

Lemma whole_Qred : forall q, whole q -> whole (Qred q).
Proof. intros q. apply whole_proper. symmetry. apply Qred_correct. Qed.

(** Double addition is exact on whole numbers while the sum stays below
    [2 ^ 53]. *)
Lemma add_whole : forall x y,
  whole x -> whole y -> (x + y < inject_Z (2 ^ 53))%Q ->
  add (Fin x) (Fin y) = Fin (Qred (x + y)).
Proof. intros x y Hx Hy Hlt. cbn [add]. apply round_whole; [now apply whole_plus | exact Hlt]. Qed.

(** Rounding is where the doubles part from the rationals: [0.1 + 0.2] is
    not [0.3], and a sum past the largest double is an infinity. *)
Example tenth_plus_fifth :
  let tenth := (3602879701896397 # 36028797018963968)%Q in
  let fifth := (3602879701896397 # 18014398509481984)%Q in
  round (1 # 10) = Fin tenth /\ round (2 # 10) = Fin fifth /\
  add (Fin tenth) (Fin fifth) = Fin (1351079888211149 # 4503599627370496) /\
  round (3 # 10) = Fin (5404319552844595 # 18014398509481984).
Proof. cbv zeta. repeat split; vm_compute; reflexivity. Qed.

Example sum_past_the_largest_double :
  add (round (inject_Z (10 ^ 308))) (round (inject_Z (10 ^ 308))) = PosInf /\
  is_finite (round (inject_Z (10 ^ 308))) = true.
Proof. split; vm_compute; reflexivity. Qed.

End JsProps.

(* ------------------------------------------------------------------ *)
(** ** helpers.ts *)

Module HelpersProps.
Import Js Helpers JsProps.

Lemma sanitizeFilters_obj : forall entries,
  sanitizeFilters (VObj entries) = VObj (sanitize_loop sanitizeFilters entries []).
Proof. reflexivity. Qed.

Lemma safe_keys_obj : forall entries,
  safe_keys (VObj entries) = true <-> Forall safe_entry entries.
Proof.
  intros entries. cbn [safe_keys]. rewrite forallb_forall, Forall_forall.
  unfold safe_entry.
  split; intros H kv Hin; specialize (H kv Hin).
  - apply andb_true_iff in H. destruct H as [H1 H2].
    now apply negb_true_iff in H1.
  - destruct H as [H1 H2]. now rewrite H1, H2.
Qed.

Lemma not_object_safe : forall v, is_object v = false -> safe_keys v = true.
Proof. intros []; cbn; congruence. Qed.

Lemma sanitize_loop_safe : forall self entries output,
  Forall (fun kv => safe_keys (self (snd kv)) = true) entries ->
  Forall safe_entry output ->
  Forall safe_entry (sanitize_loop self entries output).
Proof.
  intros self. induction entries as [|[key v] rest IH]; intros output Hself Hout.
  - exact Hout.
  - inversion Hself as [|? ? Hv Hrest]; subst. cbn [sanitize_loop].
    destruct (unsafe_key key) eqn:Hkey; [now apply IH|].
    destruct (is_object v) eqn:Hobj; apply IH; try assumption;
      apply upsert_Forall; try assumption; intros k' ->; split; cbn; auto.
    now apply not_object_safe.
Qed.

Lemma sanitizeFilters_safe : forall input, safe_keys (sanitizeFilters input) = true.
Proof.
  induction input using value_ind; try reflexivity.
  rewrite sanitizeFilters_obj. apply safe_keys_obj.
  apply sanitize_loop_safe; [assumption | constructor].
Qed.

Lemma sanitize_loop_lookup : forall self entries output k,
  NoDup (map fst entries) ->
  lookup k (sanitize_loop self entries output) =
  match lookup k entries with
  | Some v =>
      if unsafe_key k then lookup k output
      else Some (if is_object v then self v else v)
  | None => lookup k output
  end.
Proof.
  intros self. induction entries as [|[key v] rest IH]; intros output k Hnd.
  - reflexivity.
  - cbn in Hnd. inversion Hnd as [|? ? Hout Hnd']; subst.
    apply lookup_None_iff in Hout.
    cbn [sanitize_loop lookup].
    destruct (String.eqb_spec k key) as [->|Hne].
    + destruct (unsafe_key key); [|destruct (is_object v)];
        rewrite IH, Hout by assumption; try reflexivity;
        apply lookup_upsert_same.
    + destruct (unsafe_key key); [|destruct (is_object v)];
        rewrite IH by assumption;
        try rewrite (lookup_upsert_other _ _ _ _ Hne); reflexivity.
Qed.


(** Arrays are kept as they are, with whatever keys the mappings inside
    them have; unsafe keys go at every depth of nested mappings. *)
Example sanitizeFilters_on_nested_filters :
  sanitizeFilters
    (VObj [("status", VStr "paid");
           ("$where", VStr "1");
           ("a.b", VNull);
           ("tags", VArr [VObj [("$in", VNull)]]);
           ("range", VObj [("$gt", VNum (Fin 1)); ("unit", VStr "day")])]%string)
  = VObj [("status", VStr "paid");
          ("tags", VArr [VObj [("$in", VNull)]]);
          ("range", VObj [("unit", VStr "day")])]%string.
Proof. reflexivity. Qed.

Section WithRuntime.
Context {RT : Runtime}.

Lemma normal_portable : forall v, normal v -> portable v = true.
Proof.
  induction v using value_ind; intros Hn; inversion Hn; subst; try reflexivity.
  - cbn [portable]. apply forallb_forall. intros x Hx.
    rewrite Forall_forall in H, H1. auto.
  - cbn [portable]. apply forallb_forall. intros kv Hkv.
    rewrite Forall_forall in H, H2. auto.
Qed.

Lemma normalizeValue_outcome : forall v, normalize_outcome v.
Proof.
  induction v using value_ind; unfold normalize_outcome;
    try (cbn; constructor; constructor).
  - destruct t; cbn; [constructor | split; reflexivity].
  - cbn [normalizeValue].
    destruct (mapM normalizeValue items) as [items'|e] eqn:Hm.
    + constructor. apply mapM_Ok in Hm.
      induction Hm as [|x y l l' Hxy Hm IHm]; constructor.
      * inversion H; subst. unfold normalize_outcome in *. now rewrite Hxy in *.
      * apply IHm. now inversion H.
    + apply mapM_Throw in Hm. destruct Hm as [x [Hin Hx]].
      rewrite Forall_forall in H. specialize (H x Hin).
      unfold normalize_outcome in H. rewrite Hx in H. destruct H as [-> Hinv].
      split; [reflexivity|]. cbn [has_invalid_date].
      apply existsb_exists. now exists x.
  - cbn [normalizeValue].
    destruct (mapM (normalize_entry normalizeValue) entries) as [entries'|e] eqn:Hm.
    + apply mapM_Ok in Hm.
      assert (Hall : Forall (fun kv => normal (snd kv)) entries').
      { induction Hm as [|x y l l' Hxy Hm IHm]; constructor.
        - inversion H; subst. unfold normalize_outcome, normalize_entry in *.
          destruct (normalizeValue (snd x)); [|discriminate].
          now injection Hxy as <-.
        - apply IHm. now inversion H. }
      destruct (fromEntries_invariant _ _ Hall) as [Hnd Hfa].
      now constructor.
    + apply mapM_Throw in Hm. destruct Hm as [x [Hin Hx]].
      rewrite Forall_forall in H. specialize (H x Hin).
      unfold normalize_outcome, normalize_entry in *.
      destruct (normalizeValue (snd x)); [discriminate|].
      injection Hx as ->. destruct H as [-> Hinv].
      split; [reflexivity|]. cbn [has_invalid_date].
      apply existsb_exists. now exists x.
Qed.

Lemma normalizeValue_fixed : forall w, normal w -> normalizeValue w = Ok w.
Proof.
  induction w using value_ind; intros Hn; inversion Hn; subst; try reflexivity.
  - cbn [normalizeValue]. rewrite mapM_fixed; [reflexivity|].
    rewrite Forall_forall in *. auto.
  - cbn [normalizeValue]. rewrite mapM_fixed.
    + now rewrite fromEntries_unique.
    + rewrite Forall_forall in *. intros [k c] Hin.
      unfold normalize_entry.
      now rewrite (H (k, c) Hin (H2 (k, c) Hin)).
Qed.

(** C8. [normalizeValue] is idempotent: normalizing the result of
    [normalizeValue] gives that result again; when the first call throws (an
    invalid date), so does the composition. *)
Theorem normalizeValue_idempotent : forall v,
  bind (normalizeValue v) normalizeValue = normalizeValue v.
Proof.
  intros v. pose proof (normalizeValue_outcome v) as H.
  unfold normalize_outcome in H.
  destruct (normalizeValue v) as [w|e]; cbn [bind]; [|reflexivity].
  now apply normalizeValue_fixed.
Qed.

Lemma all_distinct_NoDup : forall keys, all_distinct keys = true -> NoDup keys.
Proof.
  induction keys as [|k rest IH]; cbn [all_distinct]; intros H; constructor.
  - apply andb_true_iff in H. destruct H as [H _]. apply negb_true_iff in H.
    intros Hin. assert (Hex : existsb (String.eqb k) rest = true).
    { apply existsb_exists. exists k. split; [exact Hin | apply String.eqb_refl]. }
    congruence.
  - apply IH. apply andb_true_iff in H. tauto.
Qed.

Lemma nth_error_Forall2 : forall {A B : Type} (R : A -> B -> Prop) l l' i,
  Forall2 R l l' ->
  match nth_error l i with
  | Some x => exists y, nth_error l' i = Some y /\ R x y /\ In x l
  | None => nth_error l' i = None
  end.
Proof.
  intros A B R l l' i H. revert i.
  induction H as [|x y l l' Hxy H IH]; intros [|i]; cbn [nth_error]; try reflexivity.
  - exists y. repeat split; [exact Hxy | now left].
  - specialize (IH i). destruct (nth_error l i) as [x'|]; [|exact IH].
    destruct IH as [y' [Hy [Hr Hin]]]. exists y'. repeat split; [exact Hy | exact Hr | now right].
Qed.

Lemma lookup_Forall2 : forall (R : value -> value -> Prop)
                              (l l' : list (string * value)) k,
  Forall2 (fun kv kv' => fst kv' = fst kv /\ R (snd kv) (snd kv')) l l' ->
  match lookup k l with
  | Some x => exists y, lookup k l' = Some y /\ R x y /\ In (k, x) l
  | None => lookup k l' = None
  end.
Proof.
  intros R l l' k H.
  induction H as [|[k0 x0] [k1 y1] l l' [Hk Hxy] H IH]; cbn [lookup]; [reflexivity|].
  cbn [fst snd] in Hk, Hxy. subst k1.
  destruct (String.eqb_spec k k0) as [->|Hne].
  - exists y1. repeat split; [exact Hxy | now left].
  - destruct (lookup k l) as [x|]; [|exact IH].
    destruct IH as [y [Hy [Hr Hin]]]. exists y. repeat split; [exact Hy | exact Hr | now right].
Qed.

Lemma normalize_entry_Ok : forall kv kv',
  normalize_entry normalizeValue kv = Ok kv' ->
  fst kv' = fst kv /\ normalizeValue (snd kv) = Ok (snd kv').
Proof.
  intros kv kv'. unfold normalize_entry.
  destruct (normalizeValue (snd kv)) as [c|e]; [|discriminate].
  intros H. injection H as <-. now split.
Qed.

(** The result, position by position. *)
Lemma normalizeValue_at_path : forall v w,
  distinct_keys v = true -> normalizeValue v = Ok w ->
  forall path,
    match at_path v path with
    | Some x => exists y, at_path w path = Some y /\ replaces x y
    | None => at_path w path = None
    end.
Proof.
  induction v as [| | | | | |t|items IH|entries IH| |] using value_ind;
    intros w Hd Hv path;
    try (cbn in Hv; injection Hv as <-;
         destruct path as [|[i|k] rest]; cbn; try reflexivity;
         eexists; split; reflexivity).
  - destruct t as [ms|]; [|discriminate]. cbn in Hv. injection Hv as <-.
    destruct path as [|[i|k] rest]; cbn; try reflexivity.
    eexists; split; [reflexivity|]. now exists ms.
  - cbn [normalizeValue] in Hv.
    destruct (mapM normalizeValue items) as [items'|e] eqn:Hm; [|discriminate].
    injection Hv as <-. apply mapM_Ok in Hm.
    destruct path as [|[i|k] rest]; cbn [at_path]; [| |reflexivity].
    + eexists. split; [reflexivity|]. exists items'. split; [reflexivity|].
      symmetry. eapply Forall2_length. exact Hm.
    + pose proof (nth_error_Forall2 _ _ _ i Hm) as Hi.
      destruct (nth_error items i) as [x|]; [|now rewrite Hi].
      destruct Hi as [y [-> [Hxy Hin]]].
      rewrite Forall_forall in IH. apply (IH x Hin); [|exact Hxy].
      cbn [distinct_keys] in Hd. rewrite forallb_forall in Hd. now apply Hd.
  - cbn [normalizeValue] in Hv.
    destruct (mapM (normalize_entry normalizeValue) entries) as [entries'|e] eqn:Hm;
      [|discriminate].
    injection Hv as <-. apply mapM_Ok in Hm.
    cbn [distinct_keys] in Hd. apply andb_true_iff in Hd. destruct Hd as [Hnd Hd].
    assert (Hpairs : Forall2 (fun kv kv' => fst kv' = fst kv /\
                                normalizeValue (snd kv) = Ok (snd kv')) entries entries').
    { clear -Hm. induction Hm; constructor; [now apply normalize_entry_Ok | assumption]. }
    assert (Hkeys : map fst entries' = map fst entries).
    { clear -Hpairs. induction Hpairs as [|kv kv' l l' [Hk _] H IHp]; [reflexivity|].
      cbn [map]. now rewrite Hk, IHp. }
    rewrite fromEntries_unique
      by (rewrite Hkeys; now apply all_distinct_NoDup).
    destruct path as [|[i|k] rest]; cbn [at_path]; [|reflexivity|].
    + eexists. split; [reflexivity|]. now exists entries'.
    + pose proof (lookup_Forall2 (fun x y => normalizeValue x = Ok y) _ _ k Hpairs) as Hk.
      destruct (lookup k entries) as [x|]; [|now rewrite Hk].
      destruct Hk as [y [-> [Hxy Hin]]].
      rewrite Forall_forall in IH. apply (IH (k, x) Hin); [|exact Hxy].
      rewrite forallb_forall in Hd. now apply (Hd (k, x)).
Qed.

Lemma toHexString_length : forall id, String.length (toHexString id) = 24%nat.
Proof. reflexivity. Qed.


(** *** [writeSnapshot] *)

Lemma total_bytes_app : forall a b,
  total_bytes (a ++ b) = total_bytes a + total_bytes b.
Proof. induction a as [|x a IH]; intros b; cbn [app total_bytes]; [|rewrite IH]; lia. Qed.

Lemma joined_app : forall a b, joined (a ++ b) = (joined a ++ joined b)%string.
Proof.
  induction a as [|x a IH]; intros b; cbn [app joined]; [reflexivity|].
  now rewrite IH, append_assoc.
Qed.

Lemma byteLength_joined : forall lines, byteLength (joined lines) = total_bytes lines.
Proof.
  induction lines as [|x l IH]; cbn [joined total_bytes]; [reflexivity|].
  rewrite <- IH. unfold byteLength. rewrite length_append. lia.
Qed.


(** The loop, from any point reached: [bytes] counts what [written] holds. *)
Lemma write_rows_spec : forall maxBytes rows rowCount bytes written,
  let lines := map line_of rows in
  match write_rows rows maxBytes rowCount bytes written with
  | (written', Ok (rowCount', bytes')) =>
      written' = written ++ lines /\
      rowCount' = rowCount + Z.of_nat (List.length rows) /\
      bytes' = bytes + total_bytes lines /\
      (forall n, (0 < n <= List.length rows)%nat ->
                 bytes + total_bytes (firstn n lines) <= maxBytes)
  | (written', Throw e) =>
      e = SnapshotSizeExceeded maxBytes /\
      exists n, (n < List.length rows)%nat /\
        written' = written ++ firstn n lines /\
        bytes + total_bytes (firstn (S n) lines) > maxBytes /\
        (forall m, (0 < m <= n)%nat ->
                   bytes + total_bytes (firstn m lines) <= maxBytes)
  end.
Proof.
  intros maxBytes. induction rows as [|row rest IH]; intros rowCount bytes written lines.
  - cbn. rewrite app_nil_r. repeat split; try (intros; lia).
  - cbn [write_rows]. subst lines. cbn [map].
    destruct (Z.gtb_spec (bytes + byteLength (line_of row)) maxBytes) as [Hover|Hfit].
    + split; [reflexivity|]. exists 0%nat. cbn [List.length firstn total_bytes].
      rewrite app_nil_r. repeat split; try (intros; lia).
    + specialize (IH (rowCount + 1) (bytes + byteLength (line_of row))
                     (written ++ [line_of row])).
      cbv zeta in IH.
      destruct (write_rows rest maxBytes (rowCount + 1)
                  (bytes + byteLength (line_of row)) (written ++ [line_of row]))
        as [written' [[rowCount' bytes']|e]].
      * destruct IH as [Hw [Hrc [Hb Hall]]]. repeat split.
        -- now rewrite Hw, <- app_assoc.
        -- cbn [List.length]. lia.
        -- cbn [total_bytes]. lia.
        -- intros [|n] Hn; [lia|]. cbn [firstn total_bytes].
           destruct n as [|n]; [cbn; lia|].
           specialize (Hall (S n) ltac:(cbn [List.length] in Hn; lia)). lia.
      * destruct IH as [He [n [Hn [Hw [Hover Hall]]]]].
        split; [exact He|]. exists (S n). cbn [List.length firstn total_bytes].
        repeat split.
        -- lia.
        -- now rewrite Hw, <- app_assoc.
        -- cbn [firstn total_bytes] in Hover. lia.
        -- intros [|m] Hm; [lia|]. cbn [firstn total_bytes].
           destruct m as [|m]; [cbn; lia|].
           specialize (Hall (S m) ltac:(lia)). lia.
Qed.

Lemma file_after_writes : forall p lines rest content,
  file_after p (map Write lines ++ rest) (Some content) =
  file_after p rest (Some (content ++ joined lines)%string).
Proof.
  intros p. induction lines as [|x l IH]; intros rest content; cbn [map app joined file_after].
  - now rewrite append_empty_r.
  - cbn [option_map]. now rewrite IH, append_assoc.
Qed.

(** C3. [writeSnapshot] writes the LF-terminated JSON lines in order while
    the cumulative byte count stays within [maxBytes].  At the first row
    whose line would take the count over [maxBytes] it throws the size
    error: that line is not written, the stream is destroyed and the file is
    removed, so no file is left.  When no row goes over, it returns
    [{path, rowCount, bytes}] with [rowCount] the number of rows and [bytes]
    the number of bytes written, and the file holds exactly those lines. *)
Theorem writeSnapshot_spec : forall rows tmpDir fileName maxBytes,
  let lines := map line_of rows in
  let p := path_join tmpDir fileName in
  let events := fst (writeSnapshot rows tmpDir fileName maxBytes) in
  match snd (writeSnapshot rows tmpDir fileName maxBytes) with
  | Ok r =>
      (forall n, (0 < n <= List.length rows)%nat ->
                 total_bytes (firstn n lines) <= maxBytes) /\
      r = mkSnapshotResult p (Z.of_nat (List.length rows)) (total_bytes lines) /\
      events = [Mkdir tmpDir; CreateWriteStream p] ++ map Write lines ++ [End_] /\
      file_after p events None = Some (joined lines) /\
      bytes r = byteLength (joined lines)
  | Throw e =>
      e = SnapshotSizeExceeded maxBytes /\
      exists n, (n < List.length rows)%nat /\
        total_bytes (firstn (S n) lines) > maxBytes /\
        (forall m, (0 < m <= n)%nat -> total_bytes (firstn m lines) <= maxBytes) /\
        events = [Mkdir tmpDir; CreateWriteStream p]
                   ++ map Write (firstn n lines) ++ [Destroy; Rm p] /\
        file_after p events None = None
  end.
Proof.
  intros rows tmpDir fileName maxBytes lines p events.
  subst events. unfold writeSnapshot. fold p.
  pose proof (write_rows_spec maxBytes rows 0 0 []) as H. cbv zeta in H. fold lines in H.
  destruct (write_rows rows maxBytes 0 0 []) as [written [[rowCount bytes]|e]];
    cbn [fst snd].
  - destruct H as [Hw [Hrc [Hb Hall]]]. cbn [app] in Hw. subst written.
    repeat split.
    + intros n Hn. specialize (Hall n Hn). lia.
    + f_equal; lia.
    + cbn [app file_after]. rewrite String.eqb_refl.
      rewrite file_after_writes. reflexivity.
    + cbn [Helpers.bytes]. rewrite byteLength_joined. lia.
  - destruct H as [He [n [Hn [Hw [Hover Hall]]]]]. cbn [app] in Hw. subst written.
    split; [exact He|]. exists n. repeat split; try lia.
    + intros m Hm. specialize (Hall m Hm). lia.
    + cbn [app file_after]. rewrite String.eqb_refl.
      rewrite file_after_writes. cbn [file_after]. now rewrite String.eqb_refl.
Qed.

End WithRuntime.


(** The result on that value: the identifiers and the timestamp are strings
    where they stood. *)
Example normalizeValue_on_nested_identifiers :
  normalizeValue (RT := TestRuntime.runtime)
    (VObj [("ids", VArr [VObjectId 255; VDate (Some 0)]);
           ("owner", VObj [("id", VObjectId 4096); ("name", VStr "ana")]);
           ("n", VNum (Fin 1))]%string)
  = Ok (VObj [("ids", VArr [VStr "0000000000000000000000ff";
                            VStr "1970-01-01T00:00:00.000Z"]);
              ("owner", VObj [("id", VStr "000000000000000000001000");
                              ("name", VStr "ana")]);
              ("n", VNum (Fin 1))]%string).
Proof. vm_compute. reflexivity. Qed.

End HelpersProps.

(* ------------------------------------------------------------------ *)
(** ** report-generators: the PDF row limit *)

Module GeneratorsProps.
Import Js Generators JsProps.

Section WithRuntime.
Context {RT : Runtime}.

Lemma text_lines_app : forall a b index,
  text_lines index (a ++ b) =
  text_lines index a ++ text_lines (index + Z.of_nat (List.length a)) b.
Proof.
  induction a as [|row a IH]; intros b index; cbn [app text_lines List.length].
  - now rewrite Z.add_0_r.
  - rewrite IH. do 3 f_equal. lia.
Qed.

Lemma pdf_rows_spec : forall highWaterMark m rows index texts,
  0 <= index <= m ->
  pdf_rows rows (Some (mkStreamOptions highWaterMark (Some m))) index texts =
  if index + Z.of_nat (List.length rows) >? m
  then (texts ++ text_lines index (firstn (Z.to_nat (m - index)) rows),
        Destroyed (PdfRowLimitExceeded m))
  else (texts ++ text_lines index rows, Ended).
Proof.
  intros hwm m. induction rows as [|row rest IH]; intros index texts Hidx.
  - cbn [pdf_rows List.length text_lines].
    destruct (Z.gtb_spec (index + Z.of_nat 0) m); [lia|]. now rewrite app_nil_r.
  - cbn [pdf_rows over_limit pdfMaxRows].
    destruct (Z.gtb_spec (index + 1) m) as [Hover|Hfit].
    + assert (index = m) by lia. subst index.
      destruct (Z.gtb_spec (m + Z.of_nat (List.length (row :: rest))) m) as [_|Hc];
        [|cbn [List.length] in Hc; lia].
      rewrite Z.sub_diag. cbn [Z.to_nat firstn text_lines]. now rewrite app_nil_r.
    + rewrite IH by lia. cbn [List.length].
      replace (index + 1 + Z.of_nat (List.length rest))
        with (index + Z.of_nat (S (List.length rest))) by lia.
      destruct (Z.gtb_spec (index + Z.of_nat (S (List.length rest))) m) as [Hgt|Hle].
      * replace (Z.to_nat (m - index)) with (S (Z.to_nat (m - (index + 1)))) by lia.
        cbn [firstn text_lines]. now rewrite <- app_assoc.
      * cbn [text_lines]. now rewrite <- app_assoc.
Qed.

Lemma pdf_limit_message : forall m,
  test_ci "PDF row limit exceeded" (message (PdfRowLimitExceeded m)) = true.
Proof.
  intros m. unfold test_ci. cbn [message].
  change ("PDF row limit exceeded. max=" ++ show_Z m ++ ", received>" ++ show_Z m)%string
    with ("PDF row limit exceeded"
            ++ (". max=" ++ show_Z m ++ ", received>" ++ show_Z m))%string.
  rewrite lower_append. apply includes_prefix.
Qed.

(** C4 (as amended). With [pdfMaxRows] set to [m], a row sequence of more
    than [m] rows makes the generator fail at row [m + 1]: the title and the
    first [m] rows have been laid out, and the byte stream is destroyed with
    an error whose message matches [/PDF row limit exceeded/i].  With at most
    [m] rows every row is laid out as [<index>. <JSON(row)>] and the stream
    ends normally. *)
Theorem createPdfStream_row_limit : forall rows highWaterMark m,
  0 <= m ->
  let options := Some (mkStreamOptions highWaterMark (Some m)) in
  if Z.of_nat (List.length rows) >? m
  then
    createPdfStream rows options =
      ("Report"%string :: text_lines 0 (firstn (Z.to_nat m) rows),
       Destroyed (PdfRowLimitExceeded m)) /\
    test_ci "PDF row limit exceeded" (message (PdfRowLimitExceeded m)) = true
  else
    createPdfStream rows options = ("Report"%string :: text_lines 0 rows, Ended).
Proof.
  intros rows hwm m Hm options. subst options. unfold createPdfStream.
  rewrite pdf_rows_spec by lia. rewrite Z.add_0_l, Z.sub_0_r.
  destruct (Z.of_nat (List.length rows) >? m); [split|];
    first [apply pdf_limit_message | reflexivity].
Qed.

(** Without a limit the generator never fails. *)
Lemma createPdfStream_unlimited : forall rows highWaterMark,
  createPdfStream rows (Some (mkStreamOptions highWaterMark None))
  = ("Report"%string :: text_lines 0 rows, Ended)
  /\ createPdfStream rows None = ("Report"%string :: text_lines 0 rows, Ended).
Proof.
  intros rows hwm. unfold createPdfStream.
  assert (H : forall options index texts, over_limit options (index + 1) = None ->
            (forall i, over_limit options i = None) ->
            pdf_rows rows options index texts = (texts ++ text_lines index rows, Ended)).
  { intros options. induction rows as [|row rest IH]; intros index texts _ Hall.
    - cbn. now rewrite app_nil_r.
    - cbn [pdf_rows text_lines]. rewrite Hall. rewrite IH by apply Hall.
      now rewrite <- app_assoc. }
  split; apply H; reflexivity.
Qed.

End WithRuntime.

Lemma createPdfStream_row_limit_witness :
  let RT := TestRuntime.runtime in
  let rows := [VObj [("n", VNum (Fin 1))]; VObj [("n", VNum (Fin 2))]]%string in
  let options := Some (mkStreamOptions None (Some 1)) in
  if Z.of_nat (List.length rows) >? 1
  then
    createPdfStream rows options =
      ("Report"%string :: text_lines 0 (firstn (Z.to_nat 1) rows),
       Destroyed (PdfRowLimitExceeded 1)) /\
    test_ci "PDF row limit exceeded" (message (PdfRowLimitExceeded 1)) = true
  else
    createPdfStream rows options = ("Report"%string :: text_lines 0 rows, Ended).
Proof.
  exact (createPdfStream_row_limit (RT := TestRuntime.runtime)
           [VObj [("n", VNum (Fin 1))]; VObj [("n", VNum (Fin 2))]]%string
           None 1 ltac:(lia)).
Defined.

(** C4 as stated fails: with a limit of one row and two rows arriving, the
    error that destroys the stream reads
    [PDF row limit exceeded. max=1, received>1], which
    [/document row limit exceeded/i] does not match. *)
Lemma pdf_limit_message_is_not_document :
  let RT := TestRuntime.runtime in
  let rows := [VObj [("n", VNum (Fin 1))]; VObj [("n", VNum (Fin 2))]]%string in
  exists texts e,
    createPdfStream rows (Some (mkStreamOptions None (Some 1))) = (texts, Destroyed e) /\
    message e = "PDF row limit exceeded. max=1, received>1"%string /\
    test_ci "document row limit exceeded" (message e) = false.
Proof.
  cbv zeta. eexists. eexists. split; [reflexivity|]. split; reflexivity.
Qed.

End GeneratorsProps.

(* ------------------------------------------------------------------ *)
(** ** reduce-engine.ts: the accumulator *)

Module ReduceEngineProps.
Import Js ReduceEngine JsProps.

Section WithRuntime.
Context {RT : Runtime}.

(** *** Errors of [consume] *)

Lemma numericFrom_throws : forall v fieldName e,
  numericFrom v fieldName = Throw e -> e = NonNumericValue fieldName.
Proof.
  intros v fieldName e. unfold numericFrom.
  destruct (nullish v); [discriminate|].
  destruct (Number_ v); congruence.
Qed.

Lemma mergeMetricValue_throws : forall state metric doc state' e,
  mergeMetricValue state metric doc = (state', Some e) ->
  is_cardinality_error (Some e) = false.
Proof.
  intros state metric doc state' e. unfold mergeMetricValue.
  repeat match goal with
         | |- context [numericFrom ?v ?f] =>
             let E := fresh "E" in destruct (numericFrom v f) eqn:E
         | |- context [match ?x with _ => _ end] => destruct x
         end;
    intros H; inversion H; subst;
    match goal with
    | E : numericFrom _ _ = Throw _ |- _ =>
        apply numericFrom_throws in E; subst; reflexivity
    end.
Qed.

Lemma merge_metrics_throws : forall ms state doc state' e,
  merge_metrics state ms doc = (state', Some e) ->
  is_cardinality_error (Some e) = false.
Proof.
  induction ms as [|metric rest IH]; intros state doc state' e H; cbn in H.
  - discriminate.
  - destruct (mergeMetricValue state metric doc) as [s1 [e1|]] eqn:Hm.
    + injection H as <- <-. eapply mergeMetricValue_throws; eassumption.
    + eapply IH; eassumption.
Qed.

Lemma consume_into_throws : forall spec state row current,
  is_cardinality_error (snd (consume_into spec state row current)) = false.
Proof.
  intros spec state row current. unfold consume_into.
  destruct (numericFrom _ _) as [n|e] eqn:Hn.
  - destruct (merge_metrics _ _ _) as [c' [e|]] eqn:Hm; cbn [snd]; [|reflexivity].
    eapply merge_metrics_throws; eassumption.
  - apply numericFrom_throws in Hn. now subst.
Qed.

Lemma consume_unfold : forall spec maxGroups state row,
  consume spec maxGroups state row =
  match lookup (group_key spec row) state with
  | Some current => consume_into spec state row current
  | None =>
      let fresh := mkGroupState (decodeGroup (groupBy spec) (prop row "_id")) [] []
                                (Fin 0%Q) in
      match maxGroups with
      | Some m =>
          if Z.of_nat (List.length state) >=? m
          then (state, Some (ReduceCardinalityExceeded m))
          else consume_into spec state row fresh
      | None => consume_into spec state row fresh
      end
  end.
Proof. reflexivity. Qed.

(** C5. With a bound [maxGroups], [consume] throws the cardinality error
    exactly when the key of the incoming partial row is not in the map and
    the map already holds [maxGroups] groups or more; then the map is left
    as it was.  A partial row of a group that is present never throws it. *)
Theorem consume_cardinality : forall spec maxGroups state row,
  let outcome := consume spec (Some maxGroups) state row in
  (is_cardinality_error (snd outcome) = true <->
     lookup (group_key spec row) state = None /\ maxGroups <= groupCount state) /\
  (is_cardinality_error (snd outcome) = true ->
     outcome = (state, Some (ReduceCardinalityExceeded maxGroups))) /\
  (lookup (group_key spec row) state <> None ->
     is_cardinality_error (snd outcome) = false).
Proof.
  intros spec m state row outcome. subst outcome. rewrite consume_unfold.
  unfold groupCount.
  destruct (lookup (group_key spec row) state) as [current|] eqn:Hl.
  - pose proof (consume_into_throws spec state row current) as Hc.
    rewrite Hc. intuition (try discriminate; try congruence).
  - cbv zeta.
    destruct (Z.geb_spec (Z.of_nat (List.length state)) m) as [Hge|Hlt].
    + cbn [snd is_cardinality_error].
      intuition (try discriminate; try congruence; try lia).
    + pose proof (consume_into_throws spec state row
                    (mkGroupState (decodeGroup (groupBy spec) (prop row "_id")) [] [] (Fin 0%Q)))
        as Hc.
      rewrite Hc. intuition (try discriminate; try congruence; try lia).
Qed.

(** With a bound, the map never grows past it, whether [consume] throws or
    not. *)
Lemma consume_keeps_bound : forall spec maxGroups state row,
  groupCount state <= Z.max 0 maxGroups ->
  groupCount (fst (consume spec (Some maxGroups) state row)) <= Z.max 0 maxGroups.
Proof.
  intros spec m state row Hb. rewrite consume_unfold. unfold groupCount in *.
  assert (Hinto : forall c,
            List.length (fst (consume_into spec state row c)) =
            match lookup (group_key spec row) state with
            | Some _ => List.length state
            | None => S (List.length state)
            end).
  { intros c. unfold consume_into.
    destruct (numericFrom _ _); [destruct (merge_metrics _ _ _)|];
      cbn [fst]; apply upsert_length. }
  destruct (lookup (group_key spec row) state) as [current|] eqn:Hl.
  - now rewrite Hinto.
  - cbv zeta. destruct (Z.geb_spec (Z.of_nat (List.length state)) m) as [Hge|Hlt].
    + exact Hb.
    + rewrite Hinto. lia.
Qed.

(** Without a bound the cardinality error is never thrown. *)
Lemma consume_unbounded : forall spec state row,
  is_cardinality_error (snd (consume spec None state row)) = false.
Proof.
  intros spec state row. rewrite consume_unfold.
  destruct (lookup _ _); apply consume_into_throws.
Qed.

(** C6, the code at the failing input.  The chunk that arrives first has no
    value for the metric ([minAmount: null], as [$min] gives over documents
    without the field) and the next one has [minAmount: 5].  The first call
    stores [null] as the running value, the second finds a previous value
    that is not [undefined] and whose comparable is [null], and returns
    without storing: the group's minimum comes out [null], not [5]. *)
Theorem min_seeded_with_null_stays_null :
  reducePartitionRows min_spec [min_partial VNull 2; min_partial (VNum (Fin 5)) 1]
  = Ok (mkSummary [[("region", VStr "us"); ("minAmount", VNull)]%string] (Fin 3%Q) 1).
Proof.
  unfold reducePartitionRows. cbn [consume_all].
  rewrite consume_unfold. cbn [lookup]. cbv zeta.
  unfold consume_into at 1. cbn.
  rewrite consume_unfold. cbn [lookup]. rewrite String.eqb_refl.
  unfold consume_into. cbn. rewrite !String.eqb_refl. reflexivity.
Qed.

(** The same two partial rows in the other order give [5]: what a later
    [null] does, an earlier one does not. *)
Lemma min_with_later_null_keeps_value :
  reducePartitionRows min_spec [min_partial (VNum (Fin 5)) 1; min_partial VNull 2]
  = Ok (mkSummary [[("region", VStr "us"); ("minAmount", VNum (Fin 5))]%string]
          (Fin 3%Q) 1).
Proof.
  unfold reducePartitionRows. cbn [consume_all].
  rewrite consume_unfold. cbn [lookup]. cbv zeta.
  unfold consume_into at 1. cbn.
  rewrite consume_unfold. cbn [lookup]. rewrite String.eqb_refl.
  unfold consume_into. cbn. rewrite !String.eqb_refl. reflexivity.
Qed.

(** *** Sorting the entries *)

Section Sorting.
Context {A : Type}.
Implicit Types (x y : string * A) (l : list (string * A)).

Hypothesis localeCompare_total : forall a b, key_le a b \/ key_le b a.
Hypothesis localeCompare_trans : forall a b c, key_le a b -> key_le b c -> key_le a c.

Lemma sort_insert_perm : forall x l, Permutation (sort_insert x l) (x :: l).
Proof.
  intros x. induction l as [|y l IH]; cbn [sort_insert]; [reflexivity|].
  destruct (localeCompare (fst x) (fst y) <=? 0); [reflexivity|].
  rewrite IH. apply perm_swap.
Qed.

Lemma sort_entries_perm : forall l, Permutation (sort_entries l) l.
Proof.
  induction l as [|x l IH]; cbn [sort_entries]; [reflexivity|].
  rewrite sort_insert_perm. now constructor.
Qed.

Lemma sort_insert_sorted : forall x l,
  StronglySorted entry_le l -> StronglySorted entry_le (sort_insert x l).
Proof.
  intros x. induction l as [|y l IH]; intros Hs; cbn [sort_insert].
  - repeat constructor.
  - apply StronglySorted_inv in Hs. destruct Hs as [Hl Hy].
    destruct (Z.leb_spec (localeCompare (fst x) (fst y)) 0) as [Hxy|Hxy].
    + constructor; [now constructor|].
      constructor; [exact Hxy|].
      rewrite Forall_forall in *. intros z Hz.
      eapply localeCompare_trans; [exact Hxy | now apply Hy].
    + constructor; [now apply IH|].
      assert (Hyx : entry_le y x).
      { destruct (localeCompare_total (fst y) (fst x)) as [H|H]; [exact H|].
        unfold key_le in H. lia. }
      rewrite Forall_forall in *. intros z Hz.
      apply (Permutation_in _ (sort_insert_perm x l)) in Hz.
      destruct Hz as [<-|Hz]; [exact Hyx | now apply Hy].
Qed.

Lemma sort_entries_sorted : forall l, StronglySorted entry_le (sort_entries l).
Proof.
  induction l as [|x l IH]; cbn [sort_entries]; [constructor|].
  now apply sort_insert_sorted.
Qed.

Lemma sorted_keys : forall l,
  StronglySorted entry_le l -> StronglySorted key_le (map fst l).
Proof.
  induction l as [|x l IH]; intros Hs; cbn [map]; [constructor|].
  apply StronglySorted_inv in Hs. destruct Hs as [Hl Hx].
  constructor; [now apply IH|].
  rewrite Forall_forall in *. intros k Hk.
  apply in_map_iff in Hk. destruct Hk as [y [<- Hy]]. now apply Hx.
Qed.

(** The sort is stable: what comes out before an entry that does not rank
    after it came in before it. *)
Lemma sort_insert_precedes : forall x l a b,
  precedes a b (sort_insert x l) ->
  precedes a b l \/ (a = x /\ In b l) \/ (b = x /\ In a l /\ ~ entry_le x a).
Proof.
  intros x. induction l as [|y l IH]; intros a b H; cbn [sort_insert] in H.
  - inversion H as [l' Hb|y' l' H']; subst; [destruct Hb | inversion H'].
  - destruct (Z.leb_spec (localeCompare (fst x) (fst y)) 0) as [Hxy|Hxy].
    + inversion H as [l' Hb|y' l' H']; subst.
      * right. left. now split.
      * now left.
    + inversion H as [l' Hb|y' l' H']; subst.
      * apply (Permutation_in _ (sort_insert_perm x l)) in Hb.
        destruct Hb as [<-|Hb].
        -- right. right. split; [reflexivity|]. split; [now left|].
           unfold entry_le, key_le. lia.
        -- left. now constructor.
      * destruct (IH _ _ H') as [Hp|[[-> Hb]|[-> [Ha Hn]]]].
        -- left. now apply precedes_later.
        -- right. left. split; [reflexivity | now right].
        -- right. right. split; [reflexivity|]. split; [now right | exact Hn].
Qed.

Lemma sort_entries_stable : forall l a b,
  precedes a b (sort_entries l) -> key_le (fst b) (fst a) -> precedes a b l.
Proof.
  induction l as [|x l IH]; intros a b H Hba; cbn [sort_entries] in H.
  - inversion H.
  - apply sort_insert_precedes in H. destruct H as [Hp|[[-> Hb]|[-> [_ Hn]]]].
    + apply precedes_later. now apply IH.
    + constructor. now apply (Permutation_in _ (sort_entries_perm l)).
    + contradiction.
Qed.

End Sorting.

(** *** Valid specs *)

Lemma mem_string_In : forall s l, mem_string s l = true <-> In s l.
Proof.
  intros s. induction l as [|x l IH]; cbn; [split; [discriminate | tauto]|].
  rewrite orb_true_iff, IH, String.eqb_eq. split; intros [H|H]; auto.
Qed.

Lemma validate_metrics_NoDup : forall ms seen,
  validate_metrics ms seen = None ->
  NoDup (map as_ ms) /\ forall a, In a (map as_ ms) -> ~ In a seen.
Proof.
  induction ms as [|metric rest IH]; intros seen H; cbn [map].
  - split; [constructor | intros a []].
  - cbn [validate_metrics] in H.
    destruct (negb (is_identifier (as_ metric))); [discriminate|].
    destruct (mem_string (as_ metric) seen) eqn:Hseen; [discriminate|].
    match type of H with (if ?b then _ else _) = _ => destruct b end; [discriminate|].
    destruct (IH _ H) as [Hnd Hout]. split.
    + constructor; [|exact Hnd]. intros Hin. apply (Hout _ Hin). now left.
    + intros a [<-|Hin].
      * intros Hs. apply mem_string_In in Hs. congruence.
      * intros Hs. apply (Hout _ Hin). now right.
Qed.

Lemma valid_spec_aliases : forall spec,
  validateReduceSpec spec = None -> NoDup (map as_ (metrics spec)).
Proof.
  intros spec H. unfold validateReduceSpec in H.
  destruct (metrics spec) as [|m ms] eqn:Hm; [discriminate|].
  destruct (find _ (groupBy spec)); [discriminate|].
  now apply validate_metrics_NoDup in H.
Qed.

(** *** Sums *)

Lemma sumQ_snoc : forall l x, sumQ (l ++ [x]) = (sumQ l + x)%Q.
Proof. intros l x. unfold sumQ. now rewrite fold_left_app. Qed.

Lemma fold_Qplus_acc : forall l a, (fold_left Qplus l a == a + sumQ l)%Q.
Proof.
  unfold sumQ. induction l as [|x l IH]; intros a; cbn [fold_left].
  - ring.
  - rewrite (IH (a + x)%Q), (IH (0 + x)%Q). ring.
Qed.

Lemma sumQ_cons : forall x l, (sumQ (x :: l) == x + sumQ l)%Q.
Proof.
  intros x l. unfold sumQ at 1. cbn [fold_left]. rewrite fold_Qplus_acc. ring.
Qed.

Lemma sumQ_ext : forall {A : Type} (f g : A -> Q) l,
  (forall x, In x l -> (f x == g x)%Q) -> (sumQ (map f l) == sumQ (map g l))%Q.
Proof.
  intros A f g. induction l as [|x l IH]; intros H; cbn [map]; [reflexivity|].
  rewrite !sumQ_cons, (H x) by now left. rewrite IH; [reflexivity|].
  intros y Hy. apply H. now right.
Qed.

Lemma sumQ_plus : forall {A : Type} (f g : A -> Q) l,
  (sumQ (map (fun x => f x + g x) l) == sumQ (map f l) + sumQ (map g l))%Q.
Proof.
  intros A f g. induction l as [|x l IH]; cbn [map]; [reflexivity|].
  rewrite !sumQ_cons, IH. ring.
Qed.

Lemma sumQ_zero : forall {A : Type} (l : list A), (sumQ (map (fun _ => 0) l) == 0)%Q.
Proof.
  intros A. induction l as [|x l IH]; cbn [map]; [reflexivity|].
  rewrite sumQ_cons, IH. ring.
Qed.

Lemma sumQ_one_key : forall (k0 : string) (c : Q) keys,
  NoDup keys -> In k0 keys ->
  (sumQ (map (fun k => if String.eqb k0 k then c else 0) keys) == c)%Q.
Proof.
  intros k0 c. induction keys as [|k keys IH]; intros Hnd Hin; [destruct Hin|].
  inversion Hnd as [|? ? Hout Hnd']; subst. cbn [map]. rewrite sumQ_cons.
  destruct (String.eqb_spec k0 k) as [->|Hne].
  - rewrite (sumQ_ext _ (fun _ => 0%Q)), sumQ_zero; [ring|].
    intros x Hx. destruct (String.eqb_spec k x) as [->|_]; [contradiction | reflexivity].
  - destruct Hin as [E|Hin]; [congruence|]. rewrite IH by assumption. ring.
Qed.

Lemma sumQ_nonneg : forall l, Forall (fun x => 0 <= x)%Q l -> (0 <= sumQ l)%Q.
Proof.
  induction l as [|x l IH]; intros H; [apply Qle_refl|].
  inversion H; subst. rewrite sumQ_cons.
  replace 0%Q with (0 + 0)%Q by reflexivity. apply Qplus_le_compat; auto.
Qed.

Lemma sumQ_term_le : forall l y,
  Forall (fun x => 0 <= x)%Q l -> In y l -> (y <= sumQ l)%Q.
Proof.
  induction l as [|x l IH]; intros y H Hin; [destruct Hin|].
  inversion H as [|? ? Hx Hl]; subst. rewrite sumQ_cons.
  pose proof (sumQ_nonneg l Hl) as Hs. destruct Hin as [->|Hin].
  - rewrite <- (Qplus_0_r y) at 1. now apply Qplus_le_compat; [apply Qle_refl|].
  - rewrite <- (Qplus_0_l y). apply Qplus_le_compat; [exact Hx | now apply IH].
Qed.

Lemma whole_sumQ : forall l, Forall whole l -> whole (sumQ l).
Proof.
  induction l as [|x l IH] using rev_ind; intros H.
  - exists 0. split; [lia | reflexivity].
  - apply Forall_app in H. destruct H as [Hl Hx]. inversion Hx; subst.
    rewrite sumQ_snoc. apply whole_plus; auto.
Qed.

Lemma sum_doubles_snoc : forall l x,
  sum_doubles (l ++ [x]) = add (sum_doubles l) (Fin x).
Proof. intros l x. unfold sum_doubles. now rewrite fold_left_app. Qed.

Lemma total_Fin : forall l, total (map Fin l) = sum_doubles l.
Proof.
  intros l. unfold total, sum_doubles. generalize (Fin 0%Q).
  induction l as [|x l IH]; intros a; cbn [map fold_left]; [reflexivity | apply IH].
Qed.

(** A sum of whole numbers is exact while it stays below [2 ^ 53]. *)
Lemma sum_doubles_whole : forall l,
  Forall whole l -> (sumQ l < inject_Z (2 ^ 53))%Q ->
  sum_doubles l = Fin (Qred (sumQ l)).
Proof.
  induction l as [|x l IH] using rev_ind; intros H Hlt; [reflexivity|].
  apply Forall_app in H. destruct H as [Hl Hx]. inversion Hx as [|? ? Hwx _]; subst.
  rewrite sumQ_snoc in Hlt |- *.
  assert (Hprefix : (sumQ l < inject_Z (2 ^ 53))%Q).
  { eapply Qle_lt_trans; [|exact Hlt].
    rewrite <- (Qplus_0_r (sumQ l)) at 1.
    apply Qplus_le_compat; [apply Qle_refl | now apply whole_nonneg]. }
  rewrite sum_doubles_snoc, (IH Hl Hprefix).
  assert (E : (Qred (sumQ l) + x == sumQ l + x)%Q) by now rewrite Qred_correct.
  rewrite add_whole.
  - f_equal. now apply Qred_complete.
  - apply whole_Qred. now apply whole_sumQ.
  - exact Hwx.
  - now rewrite E.
Qed.

(** *** One call of [mergeMetricValue], and the loop over the metrics *)


Lemma average_state_upsert : forall g alias a avs,
  averages g = avs ->
  forall alias',
  average_state (set_averages g (upsert alias a avs)) alias' =
  if String.eqb alias' alias then a else average_state g alias'.
Proof.
  intros g alias a avs <- alias'. unfold average_state, set_averages. cbn [averages].
  destruct (String.eqb_spec alias' alias) as [->|Hne].
  - now rewrite lookup_upsert_same.
  - now rewrite lookup_upsert_other.
Qed.

Lemma mergeMetricValue_ok : forall g metric doc g',
  mergeMetricValue g metric doc = (g', None) ->
  group g' = group g /\ inputCount g' = inputCount g /\
  forall alias,
    average_state g' alias =
    if is_avg (op metric) && String.eqb alias (as_ metric)
    then mkAverage (add (sum (average_state g (as_ metric)))
                        (Fin (partial_avg_sum metric doc)))
                   (add (count (average_state g (as_ metric)))
                        (Fin (partial_avg_count metric doc)))
    else average_state g alias.
Proof.
  intros g metric doc g'. unfold mergeMetricValue.
  destruct (op metric) eqn:Hop; cbn [is_avg andb].
  5: { unfold partial_avg_sum, partial_avg_count.
       destruct (numericFrom (prop doc (AVG_SUM_PREFIX ++ as_ metric)) _) as [s|e];
         [|discriminate].
       destruct (numericFrom (prop doc (AVG_COUNT_PREFIX ++ as_ metric)) _) as [c|e];
         [|discriminate].
       intros H. injection H as <-. cbn [numeric_or_zero].
       split; [reflexivity|]. split; [reflexivity|]. intros alias.
       rewrite average_state_upsert by reflexivity.
       unfold average_state at 2 3. now destruct (lookup (as_ metric) (averages g)). }
  all: repeat match goal with
         | |- context [numericFrom ?v ?f] => destruct (numericFrom v f)
         | |- context [match ?x with _ => _ end] => destruct x
         end;
    intros H; inversion H; subst; repeat split; reflexivity.
Qed.

Lemma merge_metrics_ok : forall ms g doc g',
  merge_metrics g ms doc = (g', None) ->
  NoDup (map as_ ms) ->
  group g' = group g /\ inputCount g' = inputCount g /\
  (forall alias, ~ In alias (map as_ ms) -> average_state g' alias = average_state g alias) /\
  (forall metric, In metric ms -> op metric = OpAvg ->
     average_state g' (as_ metric) =
     mkAverage (add (sum (average_state g (as_ metric)))
                    (Fin (partial_avg_sum metric doc)))
               (add (count (average_state g (as_ metric)))
                    (Fin (partial_avg_count metric doc)))).
Proof.
  induction ms as [|m0 rest IH]; intros g doc g' H Hnd.
  - cbn in H. injection H as <-. repeat split; try reflexivity. intros metric [].
  - cbn [merge_metrics] in H.
    destruct (mergeMetricValue g m0 doc) as [g1 [e|]] eqn:Hm; [discriminate|].
    cbn [map] in Hnd. inversion Hnd as [|? ? Hout Hnd']; subst.
    destruct (mergeMetricValue_ok _ _ _ _ Hm) as [Hg [Hi Ha]].
    destruct (IH _ _ _ H Hnd') as [Hg' [Hi' [Hkeep Havg]]].
    split; [congruence|]. split; [congruence|]. split.
    + intros alias Hnot. rewrite Hkeep by (intros Hin; apply Hnot; now right).
      rewrite Ha. destruct (String.eqb_spec alias (as_ m0)) as [->|_].
      * exfalso. apply Hnot. now left.
      * now rewrite andb_false_r.
    + intros metric [<-|Hin] Hop.
      * rewrite Hkeep by exact Hout. rewrite Ha, Hop, String.eqb_refl. reflexivity.
      * rewrite (Havg _ Hin Hop). rewrite !Ha.
        destruct (String.eqb_spec (as_ metric) (as_ m0)) as [E|_].
        -- exfalso. apply Hout. rewrite <- E. now apply in_map.
        -- now rewrite andb_false_r.
Qed.

(** *** The map after a sequence of [consume] calls *)

Lemma partials_of_snoc_same : forall spec done row,
  partials_of spec (group_key spec row) (done ++ [row]) =
  partials_of spec (group_key spec row) done ++ [row].
Proof.
  intros spec done row. unfold partials_of. rewrite filter_app. cbn [filter].
  now rewrite String.eqb_refl.
Qed.

Lemma partials_of_snoc_other : forall spec k done row,
  k <> group_key spec row ->
  partials_of spec k (done ++ [row]) = partials_of spec k done.
Proof.
  intros spec k done row Hne. unfold partials_of. rewrite filter_app. cbn [filter].
  destruct (String.eqb_spec (group_key spec row) k); [congruence|].
  apply app_nil_r.
Qed.

Lemma partials_of_absent : forall spec k done,
  ~ In k (map (group_key spec) done) -> partials_of spec k done = [].
Proof.
  intros spec k. induction done as [|p done IH]; intros Hout; [reflexivity|].
  unfold partials_of in *. cbn [filter].
  destruct (String.eqb_spec (group_key spec p) k) as [E|_].
  - exfalso. apply Hout. now left.
  - apply IH. intros Hin. apply Hout. now right.
Qed.


Lemma upsert_keys_In : forall {A : Type} (l : list (string * A)) k k' a,
  In k (map fst (upsert k' a l)) <-> In k (map fst l) \/ k = k'.
Proof.
  intros A l k k' a.
  destruct (in_dec string_dec k' (map fst l)) as [Hin|Hout].
  - rewrite upsert_keys_present by exact Hin. split; [now left|].
    intros [H | ->]; assumption.
  - rewrite upsert_keys_absent, map_app, in_app_iff by exact Hout. cbn.
    split; intros [H|H]; auto. destruct H as [H|[]]; auto.
Qed.

(** *** Order of arrival *)

Lemma precedes_In : forall {A : Type} (a b : A) l, precedes a b l -> In a l /\ In b l.
Proof.
  intros A a b l H. induction H as [l Hb|x l H [IHa IHb]].
  - split; [now left | now right].
  - split; now right.
Qed.

Lemma precedes_snoc : forall {A : Type} (a b x : A) l,
  precedes a b (l ++ [x]) -> precedes a b l \/ (In a l /\ b = x).
Proof.
  intros A a b x. induction l as [|y l IH]; cbn [app]; intros H.
  - inversion H as [l' Hb|y' l' H']; subst; [destruct Hb | inversion H'].
  - inversion H as [l' Hb|y' l' H']; subst.
    + apply in_app_or in Hb. destruct Hb as [Hb|[<-|[]]].
      * left. now constructor.
      * right. split; [now left | reflexivity].
    + destruct (IH H') as [Hp|[Ha ->]].
      * left. now apply precedes_later.
      * right. split; [now right | reflexivity].
Qed.

Lemma precedes_map : forall {A B : Type} (f : A -> B) a b l,
  precedes a b (map f l) -> exists x y, f x = a /\ f y = b /\ precedes x y l.
Proof.
  intros A B f a b. induction l as [|z l IH]; cbn [map]; intros H.
  - inversion H.
  - inversion H as [l' Hb|y' l' H']; subst.
    + apply in_map_iff in Hb. destruct Hb as [y [Hy Hin]].
      exists z, y. repeat split; [exact Hy | now constructor].
    + destruct (IH H') as [x [y [Hx [Hy Hp]]]].
      exists x, y. repeat split; [exact Hx | exact Hy | now apply precedes_later].
Qed.

Lemma map_precedes : forall {A B : Type} (f : A -> B) x y l,
  precedes x y l -> precedes (f x) (f y) (map f l).
Proof.
  intros A B f x y l H. induction H as [l Hb|z l H IH]; cbn [map].
  - constructor. now apply in_map.
  - now apply precedes_later.
Qed.

Lemma arrives_before_snoc : forall spec done row a b,
  arrives_before spec done a b -> arrives_before spec (done ++ [row]) a b.
Proof.
  intros spec done row a b [d [r [-> [Ha Hb]]]].
  exists d, (r ++ [row]). split; [now rewrite app_assoc | now split].
Qed.

Lemma accumulated_nil : forall spec, accumulated spec [] [].
Proof.
  intros spec. split; [constructor|]. split; [reflexivity|]. split.
  - intros a b H. inversion H.
  - intros k g H. discriminate.
Qed.

Lemma consume_into_accumulated : forall spec done state row c state',
  NoDup (map as_ (metrics spec)) ->
  accumulated spec done state ->
  (exists p, In p (done ++ [row]) /\ group_key spec p = group_key spec row /\
             group c = decodeGroup (groupBy spec) (prop p "_id")) ->
  inputCount c = group_count spec done (group_key spec row) ->
  (forall metric, In metric (metrics spec) -> op metric = OpAvg ->
     average_state c (as_ metric) =
     mkAverage
       (sum_doubles (map (partial_avg_sum metric)
                         (partials_of spec (group_key spec row) done)))
       (sum_doubles (map (partial_avg_count metric)
                         (partials_of spec (group_key spec row) done)))) ->
  consume_into spec state row c = (state', None) ->
  accumulated spec (done ++ [row]) state'.
Proof.
  intros spec done state row c state' Hnd [Hkeys [Hin [Hord Hrec]]] Hgrp Hcnt Havg.
  unfold consume_into.
  destruct (numericFrom (prop row INPUT_COUNT_FIELD) INPUT_COUNT_FIELD) as [n|e] eqn:Hn;
    [|discriminate].
  destruct (merge_metrics _ _ _) as [c' thrown] eqn:Hm.
  intros H. injection H as <- ->.
  destruct (merge_metrics_ok _ _ _ _ Hm Hnd) as [Hg [Hi [_ Ha]]].
  cbn [set_inputCount group inputCount] in Hg, Hi.
  assert (Hpc : partial_count row = n) by (unfold partial_count; now rewrite Hn).
  split; [now apply upsert_NoDup|]. split; [|split].
  - intros k. rewrite upsert_keys_In, map_app, in_app_iff, Hin. cbn.
    split; intros [H|H]; auto. destruct H as [H|[]]; auto.
  - intros a b Hp.
    destruct (in_dec string_dec (group_key spec row) (map fst state)) as [Hold|Hnew].
    + rewrite upsert_keys_present in Hp by exact Hold.
      now apply arrives_before_snoc, Hord.
    + rewrite upsert_keys_absent, map_app in Hp by exact Hnew. cbn [map fst] in Hp.
      apply precedes_snoc in Hp. destruct Hp as [Hp|[Hina ->]].
      * now apply arrives_before_snoc, Hord.
      * exists done, [row]. split; [reflexivity|]. split; [now apply Hin|].
        intros Hb. apply Hnew. now apply Hin.
  - intros k g Hl. destruct (String.eqb_spec k (group_key spec row)) as [->|Hne].
    + rewrite lookup_upsert_same in Hl. injection Hl as <-.
      unfold group_count. rewrite partials_of_snoc_same, !map_app. cbn [map].
      split; [|split].
      * destruct Hgrp as [p [Hp [Hk Hd]]]. exists p. repeat split; congruence.
      * rewrite sum_doubles_snoc, Hi, Hcnt, Hpc. reflexivity.
      * intros metric Hmet Hop. rewrite (Ha _ Hmet Hop).
        change (average_state (set_inputCount c (add (inputCount c) (Fin n))) (as_ metric))
          with (average_state c (as_ metric)).
        rewrite (Havg _ Hmet Hop). cbn [sum count].
        rewrite !map_app. cbn [map]. now rewrite !sum_doubles_snoc.
    + rewrite lookup_upsert_other in Hl by exact Hne.
      destruct (Hrec _ _ Hl) as [[p [Hp [Hk Hd]]] [Hc Hav]].
      unfold group_count in *. rewrite partials_of_snoc_other by exact Hne.
      split; [|split; assumption].
      exists p. repeat split; try assumption. apply in_or_app. now left.
Qed.

Lemma consume_accumulated : forall spec maxGroups done state row state',
  NoDup (map as_ (metrics spec)) ->
  accumulated spec done state ->
  consume spec maxGroups state row = (state', None) ->
  accumulated spec (done ++ [row]) state'.
Proof.
  intros spec maxGroups done state row state' Hnd Hacc.
  pose proof Hacc as [Hkeys [Hin [Hord Hrec]]].
  unfold consume.
  destruct (lookup (group_key spec row) state) as [current|] eqn:Hl.
  - intros H. destruct (Hrec _ _ Hl) as [[p [Hp [Hk Hd]]] [Hc Hav]].
    eapply consume_into_accumulated; try eassumption.
    exists p. repeat split; try assumption. apply in_or_app. now left.
  - assert (Hfresh : forall H : consume_into spec state row
                       (mkGroupState (decodeGroup (groupBy spec) (prop row "_id")) [] []
                                     (Fin 0%Q))
                       = (state', None),
              accumulated spec (done ++ [row]) state').
    { intros H.
      assert (Hnone : partials_of spec (group_key spec row) done = []).
      { apply partials_of_absent. rewrite <- Hin. now apply lookup_None_iff. }
      eapply consume_into_accumulated; try eassumption.
      - exists row. repeat split. apply in_or_app. right. now left.
      - unfold group_count. now rewrite Hnone.
      - intros metric _ _. now rewrite Hnone. }
    destruct maxGroups as [m|]; [|exact Hfresh].
    destruct (Z.of_nat (List.length state) >=? m); [discriminate | exact Hfresh].
Qed.

Lemma consume_all_accumulated : forall spec maxGroups rest done state state',
  NoDup (map as_ (metrics spec)) ->
  accumulated spec done state ->
  consume_all spec maxGroups state rest = (state', None) ->
  accumulated spec (done ++ rest) state'.
Proof.
  intros spec maxGroups. induction rest as [|row rest IH]; intros done state state' Hnd Hacc H.
  - cbn in H. injection H as <-. now rewrite app_nil_r.
  - cbn [consume_all] in H.
    destruct (consume spec maxGroups state row) as [s1 [e|]] eqn:Hc; [discriminate|].
    replace (done ++ row :: rest) with ((done ++ [row]) ++ rest)
      by (now rewrite <- app_assoc).
    eapply IH; [exact Hnd | | exact H].
    eapply consume_accumulated; eassumption.
Qed.

(** *** The groups' sums add up to the whole *)

Lemma partials_of_cons : forall spec k p partialRows,
  partials_of spec k (p :: partialRows) =
  if String.eqb (group_key spec p) k then p :: partials_of spec k partialRows
  else partials_of spec k partialRows.
Proof. reflexivity. Qed.

Lemma group_sums : forall (f : list (string * value) -> Q) spec partialRows keys,
  NoDup keys ->
  (forall p, In p partialRows -> In (group_key spec p) keys) ->
  (sumQ (map (fun k => sumQ (map f (partials_of spec k partialRows))) keys)
   == sumQ (map f partialRows))%Q.
Proof.
  intros f spec. induction partialRows as [|p rows IH]; intros keys Hnd Hcover.
  - cbn [map]. apply sumQ_zero.
  - rewrite (sumQ_ext _ (fun k => (if String.eqb (group_key spec p) k then f p else 0)
                                  + sumQ (map f (partials_of spec k rows)))%Q).
    + rewrite sumQ_plus, sumQ_one_key, IH; try assumption.
      * cbn [map]. now rewrite sumQ_cons.
      * intros q Hq. apply Hcover. now right.
      * apply Hcover. now left.
    + intros k _. rewrite partials_of_cons.
      destruct (String.eqb (group_key spec p) k); cbn [map].
      * apply sumQ_cons.
      * ring.
Qed.

Lemma partials_whole : forall (f : list (string * value) -> Q) spec k partialRows,
  Forall (fun p => whole (f p)) partialRows ->
  Forall whole (map f (partials_of spec k partialRows)).
Proof.
  intros f spec k partialRows H. apply Forall_forall. intros q Hq.
  apply in_map_iff in Hq. destruct Hq as [p [<- Hp]].
  unfold partials_of in Hp. apply filter_In in Hp.
  rewrite Forall_forall in H. now apply H.
Qed.

Lemma group_sum_le : forall (f : list (string * value) -> Q) spec partialRows keys k,
  NoDup keys ->
  (forall p, In p partialRows -> In (group_key spec p) keys) ->
  Forall (fun p => whole (f p)) partialRows ->
  In k keys ->
  (sumQ (map f (partials_of spec k partialRows)) <= sumQ (map f partialRows))%Q.
Proof.
  intros f spec partialRows keys k Hnd Hcover Hwhole Hk.
  rewrite <- (group_sums f spec partialRows keys Hnd Hcover).
  apply (sumQ_term_le
           (map (fun k => sumQ (map f (partials_of spec k partialRows))) keys)).
  - apply Forall_forall. intros q Hq. apply in_map_iff in Hq.
    destruct Hq as [k' [<- _]]. apply whole_nonneg, whole_sumQ.
    now apply partials_whole.
  - apply in_map_iff. now exists k.
Qed.

(** Group by group and then over the groups, the sum of whole numbers is
    exact while the whole stays below [2 ^ 53]. *)
Lemma grouped_total_exact : forall (f : list (string * value) -> Q) spec partialRows keys,
  NoDup keys ->
  (forall p, In p partialRows -> In (group_key spec p) keys) ->
  Forall (fun p => whole (f p)) partialRows ->
  (sumQ (map f partialRows) < inject_Z (2 ^ 53))%Q ->
  total (map (fun k => sum_doubles (map f (partials_of spec k partialRows))) keys)
  = Fin (Qred (sumQ (map f partialRows))).
Proof.
  intros f spec partialRows keys Hnd Hcover Hwhole Hlt.
  rewrite (map_ext_in _ (fun k => Fin (Qred (sumQ (map f (partials_of spec k partialRows)))))).
  2: { intros k Hk. apply sum_doubles_whole; [now apply partials_whole|].
       eapply Qle_lt_trans; [|exact Hlt]. now apply (group_sum_le f spec partialRows keys). }
  rewrite <- (map_map (fun k => Qred (sumQ (map f (partials_of spec k partialRows)))) Fin).
  rewrite total_Fin.
  assert (E : (sumQ (map (fun k => Qred (sumQ (map f (partials_of spec k partialRows)))) keys)
               == sumQ (map f partialRows))%Q).
  { rewrite <- (group_sums f spec partialRows keys Hnd Hcover).
    apply sumQ_ext. intros k _. apply Qred_correct. }
  rewrite sum_doubles_whole.
  - f_equal. now apply Qred_complete.
  - apply Forall_forall. intros q Hq. apply in_map_iff in Hq.
    destruct Hq as [k [<- _]]. apply whole_Qred, whole_sumQ. now apply partials_whole.
  - now rewrite E.
Qed.

(** *** [toReduceSummary] *)

Lemma write_metrics_cons : forall g metric rest output,
  write_metrics g (metric :: rest) output =
  write_metrics g rest (upsert (as_ metric) (metric_value g metric) output).
Proof. intros g metric rest output. unfold metric_value. cbn. now destruct (op metric). Qed.

Lemma write_metrics_other : forall g ms output f,
  ~ In f (map as_ ms) -> lookup f (write_metrics g ms output) = lookup f output.
Proof.
  intros g. induction ms as [|metric rest IH]; intros output f Hout; [reflexivity|].
  rewrite write_metrics_cons, IH by (intros Hin; apply Hout; now right).
  apply lookup_upsert_other. intros ->. apply Hout. now left.
Qed.

Lemma write_metrics_alias : forall g ms output metric,
  NoDup (map as_ ms) -> In metric ms ->
  lookup (as_ metric) (write_metrics g ms output) = Some (metric_value g metric).
Proof.
  intros g. induction ms as [|m0 rest IH]; intros output metric Hnd Hin; [destruct Hin|].
  cbn [map] in Hnd. inversion Hnd as [|? ? Hout Hnd']; subst.
  rewrite write_metrics_cons. destruct Hin as [<-|Hin].
  - rewrite write_metrics_other by exact Hout. apply lookup_upsert_same.
  - now apply IH.
Qed.

Lemma Forall2_maps : forall {A B C : Type} (P : B -> C -> Prop)
                            (f : A -> B) (g : A -> C) (l : list A),
  Forall (fun a => P (f a) (g a)) l -> Forall2 P (map f l) (map g l).
Proof. intros A B C P f g l H. induction H; cbn [map]; constructor; assumption. Qed.

Lemma groups_total_counts : forall entries,
  groups_total entries = total (map entry_count entries).
Proof.
  intros entries. unfold groups_total, total. generalize (Fin 0%Q).
  induction entries as [|e l IH]; intros a; cbn [map fold_left]; [reflexivity | apply IH].
Qed.

(** What [finalize] returns after a run of [consume] calls without a throw. *)
Lemma finalize_after_run : forall spec maxGroups partialRows state,
  validateReduceSpec spec = None ->
  (forall a b, key_le a b \/ key_le b a) ->
  (forall a b c, key_le a b -> key_le b c -> key_le a c) ->
  consume_all spec maxGroups [] partialRows = (state, None) ->
  let r := finalize spec state in
  let keys := nodup string_dec (map (group_key spec) partialRows) in
  let sortedKeys := map fst (sort_entries state) in
  Permutation sortedKeys keys /\
  StronglySorted key_le sortedKeys /\
  (forall a b, precedes a b sortedKeys -> key_le b a ->
               arrives_before spec partialRows a b) /\
  Forall2 (row_of_group spec partialRows) sortedKeys (rows r) /\
  rowsOut r = Z.of_nat (List.length keys) /\
  rowsIn r = total (map (group_count spec partialRows) sortedKeys).
Proof.
  intros spec maxGroups partialRows state Hvalid Htotal Htrans Hrun r keys sortedKeys.
  pose proof (valid_spec_aliases _ Hvalid) as Hnd.
  pose proof (consume_all_accumulated spec maxGroups partialRows [] [] state Hnd
                (accumulated_nil spec) Hrun) as Hacc.
  cbn [app] in Hacc. destruct Hacc as [Hkeys [Hin [Hord Hrec]]].
  pose proof (sort_entries_perm state) as Hperm.
  assert (Hpk : Permutation sortedKeys keys).
  { subst sortedKeys keys. rewrite (Permutation_map fst Hperm).
    apply NoDup_Permutation; [exact Hkeys | apply NoDup_nodup|].
    intros k. now rewrite nodup_In, Hin. }
  split; [exact Hpk|]. split; [|split; [|split; [|split]]].
  - apply sorted_keys. now apply sort_entries_sorted.
  - intros a b Hp Hba. subst sortedKeys.
    apply precedes_map in Hp. destruct Hp as [x [y [<- [<- Hp]]]].
    apply Hord. apply map_precedes. now apply sort_entries_stable.
  - subst r sortedKeys. unfold finalize, toReduceSummary. cbn [rows].
    apply Forall2_maps. apply Forall_forall. intros [k g] He. cbn [fst snd].
    apply (Permutation_in _ Hperm) in He.
    pose proof (lookup_In _ _ _ Hkeys He) as Hl.
    destruct (Hrec _ _ Hl) as [[p [Hp [Hk Hd]]] [Hc Hav]].
    split.
    + exists p. repeat split; try assumption. intros f Hf.
      unfold output_row. rewrite write_metrics_other by exact Hf. now rewrite Hd.
    + intros metric Hmet Hop. unfold output_row.
      rewrite write_metrics_alias by assumption.
      unfold metric_value, average_of. rewrite Hop.
      fold (average_state g (as_ metric)). now rewrite (Hav _ Hmet Hop).
  - subst r. unfold finalize, toReduceSummary. cbn [rowsOut].
    rewrite length_map. f_equal.
    rewrite <- (Permutation_length Hpk). subst sortedKeys. now rewrite length_map.
  - subst r sortedKeys. unfold finalize, toReduceSummary. cbn [rowsIn].
    fold (groups_total (sort_entries state)).
    rewrite groups_total_counts, map_map. apply f_equal. apply map_ext_in.
    intros [k g] He. cbn [fst]. unfold entry_count. cbn [snd].
    apply (Permutation_in _ Hperm) in He.
    pose proof (lookup_In _ _ _ Hkeys He) as Hl.
    now destruct (Hrec _ _ Hl) as [_ [Hc _]].
Qed.


End WithRuntime.

(** *** The test runtime's collation is a total preorder *)

Lemma collate_total : forall a b,
  key_le (RT := TestRuntime.runtime) a b \/ key_le (RT := TestRuntime.runtime) b a.
Proof.
  intros a b. unfold key_le. cbn [localeCompare TestRuntime.runtime].
  unfold TestRuntime.collate.
  destruct (Z.ltb_spec (TestRuntime.collation_key a 1) (TestRuntime.collation_key b 1));
  destruct (Z.ltb_spec (TestRuntime.collation_key b 1) (TestRuntime.collation_key a 1));
  destruct (Z.eqb_spec (TestRuntime.collation_key a 1) (TestRuntime.collation_key b 1));
  destruct (Z.eqb_spec (TestRuntime.collation_key b 1) (TestRuntime.collation_key a 1));
  lia.
Qed.

Lemma collate_trans : forall a b c,
  key_le (RT := TestRuntime.runtime) a b -> key_le (RT := TestRuntime.runtime) b c ->
  key_le (RT := TestRuntime.runtime) a c.
Proof.
  intros a b c. unfold key_le. cbn [localeCompare TestRuntime.runtime].
  unfold TestRuntime.collate.
  destruct (Z.ltb_spec (TestRuntime.collation_key a 1) (TestRuntime.collation_key b 1));
  destruct (Z.ltb_spec (TestRuntime.collation_key b 1) (TestRuntime.collation_key c 1));
  destruct (Z.ltb_spec (TestRuntime.collation_key a 1) (TestRuntime.collation_key c 1));
  destruct (Z.eqb_spec (TestRuntime.collation_key a 1) (TestRuntime.collation_key b 1));
  destruct (Z.eqb_spec (TestRuntime.collation_key b 1) (TestRuntime.collation_key c 1));
  destruct (Z.eqb_spec (TestRuntime.collation_key a 1) (TestRuntime.collation_key c 1));
  lia.
Qed.


(** What the accumulator gives on the partial rows of the repository's
    reduce test: [br] before [us], the averages 5 and 15, four rows in. *)
Example finalize_orders :
  reducePartitionRows (RT := TestRuntime.runtime) orders_spec orders_partials
  = Ok (mkSummary
          [[("region", VStr "br"); ("orders", VNum (Fin 1)); ("avgAmount", VNum (Fin 5))];
           [("region", VStr "us"); ("orders", VNum (Fin 3));
            ("avgAmount", VNum (Fin 15))]]%string
          (Fin 4%Q) 2).
Proof. vm_compute. reflexivity. Qed.

(** The repository's cardinality test: a bound of one group, then a second
    group. *)
Example second_group_over_a_bound_of_one :
  let RT := TestRuntime.runtime in
  let spec := mkReduceSpec ["region"%string] [mkMetric OpCount None "orders"] in
  let state := fst (consume spec (Some 1) [] (orders_partial "us" 1 0)) in
  consume spec (Some 1) state (orders_partial "br" 1 0)
  = (state, Some (ReduceCardinalityExceeded 1)) /\
  test_ci "REPORT_REDUCE_MAX_GROUPS" (message (ReduceCardinalityExceeded 1)) = true.
Proof. cbv zeta. split; vm_compute; reflexivity. Qed.


End ReduceEngineProps.

(* ------------------------------------------------------------------ *)
(** ** The partitioner *)

Module PartitionerProps.
Import Partitioner.

Lemma bigIntToObjectId_id : forall v, valid_oid v -> bigIntToObjectId v = v.
Proof. intros v Hv. unfold bigIntToObjectId. apply Z.mod_small. exact Hv. Qed.

Lemma ranges_loop_past : forall n idx min max cs,
  min + idx * cs > max -> ranges_loop n idx min max cs = [].
Proof.
  intros [|n] idx min max cs H; simpl; [reflexivity|].
  destruct (Z.gtb_spec (min + idx * cs) max); [reflexivity | lia].
Qed.

Lemma ranges_loop_chain : forall n idx min max cs,
  0 <= min -> max < 2 ^ 96 -> 0 <= idx -> 1 <= cs ->
  min + idx * cs <= max ->
  min + (idx + Z.of_nat n) * cs > max ->
  chain (min + idx * cs) (ranges_loop n idx min max cs).
Proof.
  induction n as [|n IH]; intros idx min max cs Hmin Hmax Hidx Hcs Hle Hgt.
  - exfalso. rewrite Z.add_0_r in Hgt. lia.
  - cbn [ranges_loop].
    destruct (Z.gtb_spec (min + idx * cs) max) as [Hc|_]; [lia|].
    assert (Hs : valid_oid (min + idx * cs)) by (unfold valid_oid; nia).
    rewrite (bigIntToObjectId_id _ Hs).
    assert (Hnext : min + idx * cs + cs = min + (idx + 1) * cs) by lia.
    destruct (Z.leb_spec (min + idx * cs + cs) max) as [Hn|Hn].
    + assert (He : valid_oid (min + idx * cs + cs)) by (unfold valid_oid; nia).
      rewrite (bigIntToObjectId_id _ He).
      apply chain_cons; [lia|].
      rewrite Hnext. apply IH; lia.
    + rewrite ranges_loop_past by lia. apply chain_last.
Qed.

Lemma chain_head : forall s rs, chain s rs ->
  exists r, nth_error rs 0 = Some r /\ startInclusive r = s.
Proof. intros s rs H; destruct H; eexists; split; reflexivity. Qed.

Lemma chain_adjacent : forall s rs, chain s rs ->
  forall i r r', nth_error rs i = Some r -> nth_error rs (S i) = Some r' ->
  endExclusive r = Some (startInclusive r').
Proof.
  intros s rs H; induction H as [s j|s j e rs Hlt Hch IH]; intros i r r' Hi Hi'.
  - destruct i as [|[|i]]; discriminate.
  - destruct i as [|i].
    + cbn in Hi. injection Hi as <-. cbn [endExclusive].
      change (nth_error rs 0 = Some r') in Hi'.
      destruct (chain_head _ _ Hch) as [r0 [H0 Hs]].
      rewrite H0 in Hi'. injection Hi' as <-. now rewrite Hs.
    + change (nth_error rs i = Some r) in Hi.
      change (nth_error rs (S i) = Some r') in Hi'.
      eapply IH; eassumption.
Qed.

Lemma chain_open_iff_last : forall s rs, chain s rs ->
  forall i r, nth_error rs i = Some r ->
  (endExclusive r = None <-> nth_error rs (S i) = None).
Proof.
  intros s rs H; induction H as [s j|s j e rs Hlt Hch IH]; intros i r Hi.
  - destruct i as [|i]; [|destruct i; discriminate].
    cbn in Hi. injection Hi as <-. cbn. tauto.
  - destruct i as [|i].
    + cbn in Hi. injection Hi as <-. cbn [endExclusive].
      change (nth_error (mkRange j s (Some e) :: rs) 1) with (nth_error rs 0).
      destruct (chain_head _ _ Hch) as [r0 [H0 _]]. rewrite H0.
      split; discriminate.
    + change (nth_error rs i = Some r) in Hi.
      change (nth_error (mkRange j s (Some e) :: rs) (S (S i)))
        with (nth_error rs (S i)).
      now apply IH.
Qed.

Lemma chain_starts_above : forall s rs, chain s rs ->
  forall i r, nth_error rs i = Some r -> s <= startInclusive r.
Proof.
  intros s rs H; induction H as [s j|s j e rs Hlt Hch IH]; intros i r Hi.
  - destruct i as [|[|i]]; try discriminate. cbn in Hi. injection Hi as <-. cbn. lia.
  - destruct i as [|i]; cbn in Hi.
    + injection Hi as <-. cbn. lia.
    + specialize (IH _ _ Hi). lia.
Qed.

(** Every identifier from [s] upwards is selected by exactly one range. *)
Lemma chain_covers_once : forall s rs, chain s rs ->
  forall x, s <= x ->
  exists i r, nth_error rs i = Some r /\ matches (rangeToIdMatch r) x /\
    forall j r', nth_error rs j = Some r' -> matches (rangeToIdMatch r') x -> j = i.
Proof.
  intros s rs H; induction H as [s j|s j e rs Hlt Hch IH]; intros x Hx.
  - exists 0%nat, (mkRange j s None). split; [reflexivity|]. split.
    + unfold matches; cbn. split; [lia | exact I].
    + intros [|[|k]] r' Hk _; try discriminate; reflexivity.
  - destruct (Z_lt_le_dec x e) as [Hxe|Hxe].
    + exists 0%nat, (mkRange j s (Some e)). split; [reflexivity|]. split.
      * cbv [matches rangeToIdMatch endExclusive startInclusive gte lt]. lia.
      * intros [|k] r' Hk Hm; [reflexivity|]. exfalso. cbn in Hk.
        pose proof (chain_starts_above _ _ Hch _ _ Hk) as Hge.
        destruct Hm as [Hm _].
        unfold rangeToIdMatch in Hm. destruct (endExclusive r'); cbn in Hm; lia.
    + destruct (IH x Hxe) as [i [r [Hi [Hm Hu]]]].
      exists (S i), r. split; [exact Hi|]. split; [exact Hm|].
      intros [|k] r' Hk Hm'.
      * exfalso. cbn in Hk. injection Hk as <-.
        cbv [matches rangeToIdMatch endExclusive startInclusive gte lt] in Hm'. lia.
      * f_equal. eapply Hu; eassumption.
Qed.

Lemma chunkSize_bounds : forall span chunks,
  1 <= span -> 1 <= chunks ->
  let cs := Z.quot (span + chunks - 1) chunks in
  cs = (span + chunks - 1) / chunks /\ 1 <= cs /\ span <= chunks * cs.
Proof.
  intros span chunks Hs Hc cs. subst cs.
  rewrite Z.quot_div_nonneg by lia.
  split; [reflexivity|].
  pose proof (Z.mul_div_le (span + chunks - 1) chunks ltac:(lia)).
  pose proof (Z.mul_succ_div_gt (span + chunks - 1) chunks ltac:(lia)).
  split; nia.
Qed.

Lemma buildObjectIdRanges_chain : forall minId maxId k,
  valid_oid minId -> valid_oid maxId -> minId <= maxId ->
  chain minId (buildObjectIdRanges minId maxId k).
Proof.
  intros minId maxId k [Hmin _] [_ Hmax] Hle.
  unfold buildObjectIdRanges, objectIdToBigInt.
  destruct (Z.ltb_spec maxId minId) as [Hc|_]; [lia|].
  destruct (Z.eqb_spec (Z.max 1 k) 1) as [_|Hk]; [apply chain_last|].
  set (chunks := Z.max 1 k) in *.
  destruct (chunkSize_bounds (maxId - minId + 1) chunks) as [_ [Hcs Hspan]]; try lia.
  set (cs := Z.quot (maxId - minId + 1 + chunks - 1) chunks) in *.
  replace minId with (minId + 0 * cs) at 1 by lia.
  apply ranges_loop_chain; try lia; try (rewrite Z2Nat.id by lia; nia).
Qed.

Lemma ranges_loop_length : forall n idx min max cs,
  0 <= idx -> 1 <= cs -> min <= max ->
  Z.of_nat (List.length (ranges_loop n idx min max cs)) =
  Z.min (Z.of_nat n) (Z.max 0 ((max - min) / cs + 1 - idx)).
Proof.
  induction n as [|n IH]; intros idx min max cs Hidx Hcs Hle.
  - cbn [ranges_loop List.length]. lia.
  - cbn [ranges_loop].
    pose proof (Z.mul_div_le (max - min) cs ltac:(lia)) as Hlo.
    pose proof (Z.mul_succ_div_gt (max - min) cs ltac:(lia)) as Hhi.
    destruct (Z.gtb_spec (min + idx * cs) max) as [Hc|Hc].
    + cbn [List.length]. nia.
    + cbn [List.length]. rewrite Nat2Z.inj_succ, IH by lia. nia.
Qed.

(** C2. For valid identifiers and a positive chunk count, the ranges of
    [buildObjectIdRanges] partition the inclusive interval [minId, maxId]:
    the result is empty when [maxId < minId]; with one chunk (and a non-empty
    interval) it is the single open-ended range at [minId]; otherwise the
    first range starts at [minId], a range's exclusive end is the next
    range's inclusive start, exactly the last range is open-ended, and every
    identifier of the interval is selected by the [_id] predicate
    ([rangeToIdMatch]) of exactly one range. *)
Theorem buildObjectIdRanges_partitions_interval :
  forall minId maxId k,
  valid_oid minId -> valid_oid maxId -> 0 < k ->
  let rs := buildObjectIdRanges minId maxId k in
  (maxId < minId -> rs = []) /\
  (k = 1 -> minId <= maxId -> rs = [mkRange 0 minId None]) /\
  (minId <= maxId ->
     (exists r, nth_error rs 0 = Some r /\ startInclusive r = minId) /\
     (forall i r r', nth_error rs i = Some r -> nth_error rs (S i) = Some r' ->
        endExclusive r = Some (startInclusive r')) /\
     (forall i r, nth_error rs i = Some r ->
        (endExclusive r = None <-> nth_error rs (S i) = None)) /\
     (forall x, minId <= x <= maxId ->
        exists i r, nth_error rs i = Some r /\ matches (rangeToIdMatch r) x /\
          forall j r', nth_error rs j = Some r' ->
                       matches (rangeToIdMatch r') x -> j = i)).
Proof.
  intros minId maxId k Hmin Hmax Hk rs. split; [|split].
  - intros Hlt. subst rs. unfold buildObjectIdRanges, objectIdToBigInt.
    destruct (Z.ltb_spec maxId minId); [reflexivity | lia].
  - intros -> Hle. subst rs. unfold buildObjectIdRanges, objectIdToBigInt.
    destruct (Z.ltb_spec maxId minId); [lia | reflexivity].
  - intros Hle.
    pose proof (buildObjectIdRanges_chain minId maxId k Hmin Hmax Hle) as Hch.
    fold rs in Hch. repeat split.
    + exact (chain_head _ _ Hch).
    + exact (chain_adjacent _ _ Hch).
    + apply (chain_open_iff_last _ _ Hch); assumption.
    + apply (chain_open_iff_last _ _ Hch); assumption.
    + intros x [Hx _]. exact (chain_covers_once _ _ Hch x Hx).
Qed.

Lemma buildObjectIdRanges_partitions_interval_witness :
  let rs := buildObjectIdRanges 256 1535 8 in
  (1535 < 256 -> rs = []) /\
  (8 = 1 -> 256 <= 1535 -> rs = [mkRange 0 256 None]) /\
  (256 <= 1535 ->
     (exists r, nth_error rs 0 = Some r /\ startInclusive r = 256) /\
     (forall i r r', nth_error rs i = Some r -> nth_error rs (S i) = Some r' ->
        endExclusive r = Some (startInclusive r')) /\
     (forall i r, nth_error rs i = Some r ->
        (endExclusive r = None <-> nth_error rs (S i) = None)) /\
     (forall x, 256 <= x <= 1535 ->
        exists i r, nth_error rs i = Some r /\ matches (rangeToIdMatch r) x /\
          forall j r', nth_error rs j = Some r' ->
                       matches (rangeToIdMatch r') x -> j = i)).
Proof.
  apply (buildObjectIdRanges_partitions_interval 256 1535 8);
    unfold valid_oid; lia.
Defined.

(** C1 (as amended). Over a non-empty dataset the number of identifier
    ranges, which [runPartitionedReduce] reports as [chunks], is
    [ceil(span / ceil(span / k))] where [span = max - min + 1] and
    [k = max(1, requestedChunks)], with
    [requestedChunks = partitionSpec.chunks ?? partitionDefaultChunks]: it is
    at least 1 and at most [k], and it is [k] whenever [k] divides [span].
    No partition cap takes part. *)
Theorem runPartitionedReduce_chunk_count :
  forall minId maxId partitionSpec partitionDefaultChunks,
  valid_oid minId -> valid_oid maxId -> minId <= maxId ->
  let k := Z.max 1 (requestedChunks partitionSpec partitionDefaultChunks) in
  let span := maxId - minId + 1 in
  let chunkSize := (span + k - 1) / k in
  let n := runPartitionedReduce_chunks (Some minId) (Some maxId)
             partitionSpec partitionDefaultChunks in
  n = (span - 1) / chunkSize + 1 /\ 1 <= n <= k /\ (span mod k = 0 -> n = k).
Proof.
  intros minId maxId ps dflt Hmin Hmax Hle k span chunkSize n.
  assert (Hn : n = (span - 1) / chunkSize + 1 /\ 1 <= chunkSize /\ span <= k * chunkSize).
  { subst n. unfold runPartitionedReduce_chunks, buildObjectIdRanges, objectIdToBigInt.
    fold k. destruct (Z.ltb_spec maxId minId) as [Hc|_]; [lia|].
    destruct (Z.eqb_spec k 1) as [Hk|Hk].
    - subst chunkSize. rewrite Hk.
      replace (span + 1 - 1) with span by lia. rewrite Z.div_1_r.
      cbn [List.length]. split; [|lia].
      rewrite Z.div_small by (subst span; lia). reflexivity.
    - fold span.
      destruct (chunkSize_bounds span k) as [Hq [Hcs Hspan]]; try (subst span k; lia).
      rewrite Hq in *. fold chunkSize in Hcs, Hspan |- *.
      rewrite ranges_loop_length by lia.
      rewrite Z2Nat.id by (subst k; lia).
      replace (maxId - minId) with (span - 1) by (subst span; lia).
      split; [|lia].
      pose proof (Z.mul_div_le (span - 1) chunkSize ltac:(lia)).
      pose proof (Z.mul_succ_div_gt (span - 1) chunkSize ltac:(lia)).
      assert (0 <= (span - 1) / chunkSize) by (apply Z.div_pos; subst span; lia).
      nia. }
  destruct Hn as [Hn [Hcs Hspan]].
  assert (Hsp : 1 <= span) by (subst span; lia).
  assert (Hk1 : 1 <= k) by (subst k; lia).
  pose proof (Z.mul_div_le (span - 1) chunkSize ltac:(lia)) as Hlo.
  pose proof (Z.mul_succ_div_gt (span - 1) chunkSize ltac:(lia)) as Hhi.
  assert (Hq0 : 0 <= (span - 1) / chunkSize) by (apply Z.div_pos; lia).
  split; [exact Hn|]. split; [nia|].
  intros Hdiv. rewrite Hn.
  apply Z.mod_divide in Hdiv; [|lia]. destruct Hdiv as [c Hc].
  assert (HcS : chunkSize = c).
  { subst chunkSize. rewrite Hc.
    replace (c * k + k - 1) with (c * k + (k - 1)) by lia.
    rewrite Z.div_add_l by lia. rewrite (Z.div_small (k - 1) k) by lia. lia. }
  rewrite HcS in *. nia.
Qed.

Lemma runPartitionedReduce_chunk_count_witness :
  let k := Z.max 1 (requestedChunks (Some (mkPartitionSpec (Some 8))) 32) in
  let span := 2 - 0 + 1 in
  let chunkSize := (span + k - 1) / k in
  let n := runPartitionedReduce_chunks (Some 0) (Some 2)
             (Some (mkPartitionSpec (Some 8))) 32 in
  n = (span - 1) / chunkSize + 1 /\ 1 <= n <= k /\ (span mod k = 0 -> n = k).
Proof.
  apply (runPartitionedReduce_chunk_count 0 2 (Some (mkPartitionSpec (Some 8))) 32);
    unfold valid_oid; lia.
Defined.

(** C1 as stated fails: no value of a partition cap makes the reported chunk
    count equal [min(requestedChunks, cap)] on every non-empty dataset.  With
    identifiers 0..2 and eight requested chunks the code builds three ranges
    (so a cap would have to be 3), and with identifiers 0..99 and four
    requested chunks it builds four. *)
Lemma chunk_count_is_not_min_of_request_and_cap :
  ~ (exists partitionCapMax, forall minId maxId partitionSpec partitionDefaultChunks,
       valid_oid minId -> valid_oid maxId -> minId <= maxId ->
       runPartitionedReduce_chunks (Some minId) (Some maxId)
         partitionSpec partitionDefaultChunks
       = Z.min (requestedChunks partitionSpec partitionDefaultChunks) partitionCapMax).
Proof.
  intros [cap H].
  assert (H1 := H 0 2 (Some (mkPartitionSpec (Some 8))) 32).
  assert (H2 := H 0 99 (Some (mkPartitionSpec (Some 4))) 32).
  unfold valid_oid in H1, H2.
  specialize (H1 ltac:(lia) ltac:(lia) ltac:(lia)).
  specialize (H2 ltac:(lia) ltac:(lia) ltac:(lia)).
  change (3 = Z.min 8 cap) in H1.
  change (4 = Z.min 4 cap) in H2.
  lia.
Qed.

(** The cases of the repository's partitioner test. *)
Example one_chunk_is_one_open_range :
  buildObjectIdRanges 0x10 0xff 1 = [mkRange 0 0x10 None].
Proof. reflexivity. Qed.

Example eight_chunks_over_0x100_0x5ff :
  buildObjectIdRanges 0x100 0x5ff 8 =
  [mkRange 0 0x100 (Some 0x1a0); mkRange 1 0x1a0 (Some 0x240);
   mkRange 2 0x240 (Some 0x2e0); mkRange 3 0x2e0 (Some 0x380);
   mkRange 4 0x380 (Some 0x420); mkRange 5 0x420 (Some 0x4c0);
   mkRange 6 0x4c0 (Some 0x560); mkRange 7 0x560 None].
Proof. reflexivity. Qed.

Example no_range_when_max_below_min :
  buildObjectIdRanges 0xffffffffffffffffffffffff 1 4 = [].
Proof. reflexivity. Qed.

End PartitionerProps.

(* ------------------------------------------------------------------ *)
(** ** reduce-engine.ts: validation, and the accumulator group by group *)

Module ReduceEngineMore.
Import Js ReduceEngine Statements JsProps ReduceEngineProps.

Lemma find_none_Forall : forall (l : list string),
  find (fun g => negb (is_identifier g)) l = None <->
  Forall (fun g => is_identifier g = true) l.
Proof.
  induction l as [|g l IH]; cbn [find].
  - split; [constructor | reflexivity].
  - destruct (is_identifier g) eqn:Hg; cbn [negb].
    + rewrite IH. split; [now constructor | now inversion 1].
    + split; [discriminate | inversion 1; congruence].
Qed.

Lemma validate_metrics_iff : forall ms seen,
  validate_metrics ms seen = None <->
  Forall metric_ok ms /\ NoDup (map as_ ms) /\
  (forall a, In a (map as_ ms) -> ~ In a seen).
Proof.
  induction ms as [|metric rest IH]; intros seen; cbn [validate_metrics map].
  - split; [|reflexivity]. intros _. repeat split; try constructor. intros a [].
  - destruct (is_identifier (as_ metric)) eqn:Hid; cbn [negb].
    2: { split; [discriminate|]. intros [H _]. inversion H as [|? ? [Hc _] _]. congruence. }
    destruct (mem_string (as_ metric) seen) eqn:Hseen.
    { split; [discriminate|]. intros [_ [_ H]].
      apply mem_string_In in Hseen. exfalso. apply (H (as_ metric)); [now left | exact Hseen]. }
    assert (Hnot : ~ In (as_ metric) seen).
    { intros Hin. apply mem_string_In in Hin. congruence. }
    assert (Hfield :
      (match op metric with
       | OpCount => false
       | _ => match field metric with
              | Some f => negb (is_identifier f)
              | None => true
              end
       end = false) <->
      (op metric <> OpCount -> exists f, field metric = Some f /\ is_identifier f = true)).
    { destruct (op metric); (split; [intros H Hop | intros H]);
        try congruence; try reflexivity;
        try (destruct (field metric) as [f|]; [|discriminate];
             exists f; split; [reflexivity | now apply negb_false_iff]);
        destruct (H ltac:(discriminate)) as [f [-> Hf]]; now rewrite Hf. }
    match goal with |- (if ?b then _ else _) = _ <-> _ => destruct b eqn:Hb end.
    + split; [discriminate|]. intros [H _]. inversion H as [|? ? [_ Hf] _].
      apply Hfield in Hf. congruence.
    + rewrite IH. split.
      * intros [Hall [Hnd Hout]]. repeat split.
        -- constructor; [|exact Hall]. split; [exact Hid | now apply Hfield].
        -- constructor; [|exact Hnd]. intros Hin. apply (Hout _ Hin). now left.
        -- intros a [<-|Hin]; [exact Hnot|]. intros Hs. apply (Hout _ Hin). now right.
      * intros [Hall [Hnd Hout]]. inversion Hall; subst. inversion Hnd; subst.
        repeat split; try assumption.
        intros a Hin [<-|Hs]; [contradiction|]. apply (Hout a); [now right | exact Hs].
Qed.

(** X1. [validateReduceSpec] returns without a throw exactly on the specs
    with at least one metric, group-by fields and aliases made of letters,
    digits and underscores, aliases that are pairwise distinct, and a field
    of that form on every metric other than [count]. *)
Theorem validateReduceSpec_accepts : forall spec,
  validateReduceSpec spec = None <-> spec_ok spec.
Proof.
  intros spec. unfold validateReduceSpec, spec_ok.
  destruct (metrics spec) as [|m ms] eqn:Hm.
  - split; [discriminate | intros [H _]; congruence].
  - destruct (find _ (groupBy spec)) as [g|] eqn:Hf.
    + split; [discriminate|]. intros [_ [Hg _]].
      apply find_none_Forall in Hg. congruence.
    + apply find_none_Forall in Hf. rewrite validate_metrics_iff.
      split.
      * intros [Hall [Hnd _]]. repeat split; try assumption. discriminate.
      * intros [_ [_ [Hall Hnd]]]. repeat split; try assumption. intros a _ [].
Qed.

Section WithRuntime.
Context {RT : Runtime}.

(** *** The accumulator, group by group *)

Lemma folds_into_consume_into : forall spec state row c g',
  folds_into spec c row g' ->
  consume_into spec state row c = (upsert (group_key spec row) g' state, None).
Proof.
  intros spec state row c g' [n [Hn Hm]]. unfold consume_into. now rewrite Hn, Hm.
Qed.

Lemma consume_into_folds : forall spec state row c state',
  consume_into spec state row c = (state', None) ->
  exists g', folds_into spec c row g' /\ state' = upsert (group_key spec row) g' state.
Proof.
  intros spec state row c state'. unfold consume_into.
  destruct (numericFrom (prop row INPUT_COUNT_FIELD) INPUT_COUNT_FIELD) as [n|e] eqn:Hn;
    [|discriminate].
  destruct (merge_metrics _ _ _) as [g' thrown] eqn:Hm.
  intros H. injection H as <- ->. exists g'. split; [|reflexivity].
  exists n. now split.
Qed.

Lemma consume_folds : forall spec maxGroups state row state',
  consume spec maxGroups state row = (state', None) ->
  exists g',
    state' = upsert (group_key spec row) g' state /\
    folds_into spec
      (match lookup (group_key spec row) state with
       | Some c => c
       | None => fresh_group spec row
       end) row g'.
Proof.
  intros spec maxGroups state row state'. rewrite consume_unfold.
  destruct (lookup (group_key spec row) state) as [c|].
  - intros H. apply consume_into_folds in H. destruct H as [g' [Hf ->]]. now exists g'.
  - cbv zeta. fold (fresh_group spec row).
    assert (Hfresh : consume_into spec state row (fresh_group spec row) = (state', None) ->
                     exists g', state' = upsert (group_key spec row) g' state /\
                                folds_into spec (fresh_group spec row) row g').
    { intros H. apply consume_into_folds in H. destruct H as [g' [Hf ->]]. now exists g'. }
    destruct maxGroups as [m|]; [|exact Hfresh].
    destruct (Z.of_nat (List.length state) >=? m); [discriminate | exact Hfresh].
Qed.

Lemma grouped_nil : forall spec, grouped spec [] [].
Proof.
  intros spec. split; [constructor|]. split; [reflexivity|]. intros k g H. discriminate.
Qed.

Lemma consume_grouped : forall spec maxGroups done state row state',
  grouped spec done state ->
  consume spec maxGroups state row = (state', None) ->
  grouped spec (done ++ [row]) state'.
Proof.
  intros spec maxGroups done state row state' [Hnd [Hin Hrec]] H.
  apply consume_folds in H. destruct H as [g' [-> Hf]].
  split; [now apply upsert_NoDup|]. split.
  - intros k. rewrite upsert_keys_In, map_app, in_app_iff, Hin. cbn.
    split; intros [H|H]; auto. destruct H as [H|[]]; auto.
  - intros k g Hl. destruct (String.eqb_spec k (group_key spec row)) as [->|Hne].
    + rewrite lookup_upsert_same in Hl. injection Hl as <-.
      rewrite partials_of_snoc_same.
      destruct (lookup (group_key spec row) state) as [c|] eqn:Hc.
      * apply folded_next with (g := c); [now apply Hrec | exact Hf].
      * rewrite partials_of_absent.
        -- now apply folded_first.
        -- rewrite <- Hin. now apply lookup_None_iff.
    + rewrite lookup_upsert_other in Hl by exact Hne.
      rewrite partials_of_snoc_other by exact Hne. now apply Hrec.
Qed.

Lemma consume_all_grouped : forall spec maxGroups rest done state state',
  grouped spec done state ->
  consume_all spec maxGroups state rest = (state', None) ->
  grouped spec (done ++ rest) state'.
Proof.
  intros spec maxGroups. induction rest as [|row rest IH]; intros done state state' Hg H.
  - cbn in H. injection H as <-. now rewrite app_nil_r.
  - cbn [consume_all] in H.
    destruct (consume spec maxGroups state row) as [s1 [e|]] eqn:Hc; [discriminate|].
    replace (done ++ row :: rest) with ((done ++ [row]) ++ rest)
      by (now rewrite <- app_assoc).
    eapply IH; [|exact H]. eapply consume_grouped; eassumption.
Qed.

Lemma run_grouped : forall spec maxGroups partialRows state,
  consume_all spec maxGroups [] partialRows = (state, None) ->
  grouped spec partialRows state.
Proof.
  intros spec maxGroups partialRows state H.
  exact (consume_all_grouped spec maxGroups partialRows [] [] state (grouped_nil spec) H).
Qed.

Lemma consume_all_app : forall spec maxGroups a b state,
  consume_all spec maxGroups state (a ++ b) =
  match consume_all spec maxGroups state a with
  | (state', None) => consume_all spec maxGroups state' b
  | thrown => thrown
  end.
Proof.
  intros spec maxGroups. induction a as [|row a IH]; intros b state; cbn [app consume_all].
  - reflexivity.
  - destruct (consume spec maxGroups state row) as [s1 [e|]]; [reflexivity | apply IH].
Qed.

Lemma folded_alone : forall spec k rows g,
  folded spec rows g ->
  (forall p, In p rows -> group_key spec p = k) ->
  consume_all spec None [] rows = ([(k, g)], None).
Proof.
  intros spec k rows g H. induction H as [row g Hf|rows g row g' Hrows IH Hf]; intros Hk.
  - cbn [consume_all]. rewrite consume_unfold. cbn [lookup]. cbv zeta.
    fold (fresh_group spec row).
    rewrite (folds_into_consume_into _ _ _ _ _ Hf).
    rewrite (Hk row) by now left. reflexivity.
  - rewrite consume_all_app, IH by (intros p Hp; apply Hk, in_or_app; now left).
    cbn [consume_all]. rewrite consume_unfold.
    assert (Hkey : group_key spec row = k) by (apply Hk, in_or_app; right; now left).
    rewrite Hkey. cbn [lookup]. rewrite String.eqb_refl.
    rewrite (folds_into_consume_into _ _ _ _ _ Hf), Hkey. cbn [upsert].
    now rewrite String.eqb_refl.
Qed.

(** X2. Groups do not interfere.  After a run of [consume] calls without a
    throw, every group key of the partial rows has a record in the map, and
    that record is the one an accumulator without a bound builds from the
    partial rows of that group alone, in their arrival order. *)
Theorem groups_are_independent : forall spec maxGroups partialRows state,
  consume_all spec maxGroups [] partialRows = (state, None) ->
  forall k, In k (map (group_key spec) partialRows) ->
  exists g,
    lookup k state = Some g /\
    consume_all spec None [] (partials_of spec k partialRows) = ([(k, g)], None).
Proof.
  intros spec maxGroups partialRows state Hrun k Hk.
  destruct (run_grouped _ _ _ _ Hrun) as [Hnd [Hin Hrec]].
  destruct (lookup k state) as [g|] eqn:Hl.
  - exists g. split; [reflexivity|].
    apply folded_alone; [now apply Hrec|].
    intros p Hp. unfold partials_of in Hp. apply filter_In in Hp.
    now apply String.eqb_eq.
  - exfalso. apply lookup_None_iff in Hl. apply Hl. now apply Hin.
Qed.

End WithRuntime.

Lemma groups_are_independent_witness :
  let RT := TestRuntime.runtime in
  let state := fst (consume_all orders_spec (Some 5) [] orders_partials) in
  consume_all orders_spec (Some 5) [] orders_partials = (state, None) /\
  exists g,
    lookup (group_key orders_spec (orders_partial "us" 2 30)) state = Some g /\
    consume_all orders_spec None []
      (partials_of orders_spec (group_key orders_spec (orders_partial "us" 2 30))
                   orders_partials)
    = ([(group_key orders_spec (orders_partial "us" 2 30), g)], None).
Proof.
  cbv zeta. split; [reflexivity|].
  apply (groups_are_independent (RT := TestRuntime.runtime) orders_spec (Some 5)
           orders_partials
           (fst (consume_all (RT := TestRuntime.runtime) orders_spec (Some 5) []
                   orders_partials))
           eq_refl).
  now left.
Defined.

Section Metrics.
Context {RT : Runtime}.

(** *** What one call of [mergeMetricValue] does to the stored values *)

Lemma values_get_upsert : forall g alias v alias',
  values_get (set_values g (upsert alias v (values g))) alias' =
  if String.eqb alias' alias then v else values_get g alias'.
Proof.
  intros g alias v alias'. unfold values_get, set_values. cbn [values].
  destruct (String.eqb_spec alias' alias) as [->|Hne].
  - now rewrite lookup_upsert_same.
  - now rewrite lookup_upsert_other.
Qed.

Lemma mergeMetricValue_values_other : forall g metric doc g' alias,
  mergeMetricValue g metric doc = (g', None) ->
  alias <> as_ metric ->
  values_get g' alias = values_get g alias.
Proof.
  intros g metric doc g' alias H Hne. revert H. unfold mergeMetricValue.
  repeat match goal with
         | |- context [numericFrom ?v ?f] => destruct (numericFrom v f)
         | |- context [match ?x with _ => _ end] => destruct x
         end;
    intros H; inversion H; subst; try reflexivity;
    rewrite values_get_upsert;
    destruct (String.eqb_spec alias (as_ metric)); congruence.
Qed.

Lemma merge_metrics_values_other : forall ms g doc g' alias,
  merge_metrics g ms doc = (g', None) ->
  ~ In alias (map as_ ms) ->
  values_get g' alias = values_get g alias.
Proof.
  induction ms as [|m0 rest IH]; intros g doc g' alias H Hout.
  - cbn in H. now injection H as <-.
  - cbn [merge_metrics] in H.
    destruct (mergeMetricValue g m0 doc) as [g1 [e|]] eqn:Hm; [discriminate|].
    rewrite (IH _ _ _ _ H) by (intros Hin; apply Hout; now right).
    eapply mergeMetricValue_values_other; [exact Hm|].
    intros ->. apply Hout. now left.
Qed.

(** In a loop over metrics with distinct aliases, the value under the alias
    of a metric is the one its own call leaves. *)
Lemma merge_metrics_isolate : forall ms g doc g' metric,
  merge_metrics g ms doc = (g', None) ->
  NoDup (map as_ ms) -> In metric ms ->
  exists g0 g1,
    mergeMetricValue g0 metric doc = (g1, None) /\
    values_get g0 (as_ metric) = values_get g (as_ metric) /\
    values_get g' (as_ metric) = values_get g1 (as_ metric).
Proof.
  induction ms as [|m0 rest IH]; intros g doc g' metric H Hnd Hin; [destruct Hin|].
  cbn [merge_metrics] in H.
  destruct (mergeMetricValue g m0 doc) as [g1 [e|]] eqn:Hm; [discriminate|].
  cbn [map] in Hnd. inversion Hnd as [|? ? Hout Hnd']; subst.
  destruct Hin as [<-|Hin].
  - exists g, g1. split; [exact Hm|]. split; [reflexivity|].
    now apply (merge_metrics_values_other _ _ _ _ _ H).
  - destruct (IH _ _ _ _ H Hnd' Hin) as [ga [gb [Hstep [Hbefore Hafter]]]].
    exists ga, gb. split; [exact Hstep|]. split; [|exact Hafter].
    rewrite Hbefore. eapply mergeMetricValue_values_other; [exact Hm|].
    intros E. apply Hout. rewrite <- E. now apply in_map.
Qed.

Lemma numericFrom_VNum : forall n fieldName p,
  numericFrom (VNum n) fieldName = Ok p -> n = Fin p.
Proof.
  intros n fieldName p. unfold numericFrom. cbn [nullish Number_].
  destruct n; intros H; try discriminate. now injection H as <-.
Qed.

Lemma mergeMetricValue_sum : forall g metric doc g',
  is_sum (op metric) = true ->
  mergeMetricValue g metric doc = (g', None) ->
  exists p,
    numericFrom (values_get g (as_ metric)) (as_ metric) = Ok p /\
    values_get g' (as_ metric) = VNum (add (Fin p) (Fin (partial_value metric doc))).
Proof.
  intros g metric doc g' Hop. unfold mergeMetricValue, partial_value.
  destruct (op metric); try discriminate;
    destruct (numericFrom (prop doc (as_ metric)) (as_ metric)) as [c|e];
    try discriminate;
    destruct (numericFrom (values_get g (as_ metric)) (as_ metric)) as [p|e];
    try discriminate;
    intros H; injection H as <-; exists p; split; try reflexivity;
    rewrite values_get_upsert, String.eqb_refl; reflexivity.
Qed.

Lemma mergeMetricValue_extremum : forall g metric doc g' c,
  is_extremum (op metric) = true ->
  prop doc (as_ metric) = VNum (Fin c) ->
  mergeMetricValue g metric doc = (g', None) ->
  (values_get g (as_ metric) = VUndefined -> values_get g' (as_ metric) = VNum (Fin c)) /\
  (forall x, values_get g (as_ metric) = VNum (Fin x) ->
     (values_get g' (as_ metric) = VNum (Fin c) /\ beats (op metric) c x) \/
     (values_get g' (as_ metric) = VNum (Fin x) /\ beats (op metric) x c)).
Proof.
  intros g metric doc g' c Hop Hc. unfold mergeMetricValue. rewrite Hc.
  assert (Hlt : forall a b, negb (Qle_bool b a) = true -> (a <= b)%Q).
  { intros a b H. apply negb_true_iff in H. apply Qlt_le_weak, Qnot_le_lt.
    intros Hle. apply Qle_bool_iff in Hle. congruence. }
  assert (Hge : forall a b, negb (Qle_bool b a) = false -> (b <= a)%Q).
  { intros a b H. apply negb_false_iff in H. now apply Qle_bool_iff. }
  destruct (op metric) eqn:Hopm; try discriminate; cbn [beats]; intros H.
  - split.
    + intros Hu. rewrite Hu in H. injection H as <-.
      now rewrite values_get_upsert, String.eqb_refl.
    + intros x Hx. rewrite Hx in H.
      cbn [nullish pickComparable js_lt number_ltb] in H.
      destruct (negb (Qle_bool x c)) eqn:Hcmp; injection H as <-.
      * left. rewrite values_get_upsert, String.eqb_refl. split; [reflexivity|].
        now apply Hlt.
      * right. split; [exact Hx | now apply Hge].
  - split.
    + intros Hu. rewrite Hu in H. injection H as <-.
      now rewrite values_get_upsert, String.eqb_refl.
    + intros x Hx. rewrite Hx in H.
      cbn [nullish pickComparable js_lt number_ltb] in H.
      destruct (negb (Qle_bool c x)) eqn:Hcmp; injection H as <-.
      * left. rewrite values_get_upsert, String.eqb_refl. split; [reflexivity|].
        now apply Hlt.
      * right. split; [exact Hx | now apply Hge].
Qed.

(** *** The record of a group *)

Lemma folds_into_isolate : forall spec g row g' metric,
  folds_into spec g row g' ->
  NoDup (map as_ (metrics spec)) -> In metric (metrics spec) ->
  exists g0 g1,
    mergeMetricValue g0 metric row = (g1, None) /\
    values_get g0 (as_ metric) = values_get g (as_ metric) /\
    values_get g' (as_ metric) = values_get g1 (as_ metric).
Proof.
  intros spec g row g' metric [n [_ Hm]] Hnd Hin.
  exact (merge_metrics_isolate _ _ _ _ _ Hm Hnd Hin).
Qed.

Lemma folded_sum : forall spec rows g metric,
  folded spec rows g ->
  NoDup (map as_ (metrics spec)) -> In metric (metrics spec) ->
  is_sum (op metric) = true ->
  values_get g (as_ metric) = VNum (sum_doubles (map (partial_value metric) rows)).
Proof.
  intros spec rows g metric H Hnd Hin Hop.
  induction H as [row g Hf|rows g row g' Hrows IH Hf].
  - destruct (folds_into_isolate _ _ _ _ _ Hf Hnd Hin) as [g0 [g1 [Hstep [Hb Ha]]]].
    destruct (mergeMetricValue_sum _ _ _ _ Hop Hstep) as [p [Hp Hv]].
    rewrite Hb in Hp. cbn in Hp. injection Hp as <-.
    rewrite Ha, Hv. reflexivity.
  - destruct (folds_into_isolate _ _ _ _ _ Hf Hnd Hin) as [g0 [g1 [Hstep [Hb Ha]]]].
    destruct (mergeMetricValue_sum _ _ _ _ Hop Hstep) as [p [Hp Hv]].
    rewrite Hb, IH in Hp. apply numericFrom_VNum in Hp.
    rewrite Ha, Hv, <- Hp, map_app. cbn [map]. now rewrite sum_doubles_snoc.
Qed.

Lemma beats_refl : forall o a, beats o a a.
Proof. intros [] a; cbn; apply Qle_refl. Qed.

Lemma beats_trans : forall o a b c, beats o a b -> beats o b c -> beats o a c.
Proof. intros [] a b c; cbn; intros H1 H2; eapply Qle_trans; eassumption. Qed.

Lemma folded_extremum : forall spec rows g metric,
  folded spec rows g ->
  NoDup (map as_ (metrics spec)) -> In metric (metrics spec) ->
  is_extremum (op metric) = true ->
  (forall p, In p rows -> exists q, prop p (as_ metric) = VNum (Fin q)) ->
  exists q,
    values_get g (as_ metric) = VNum (Fin q) /\
    (exists p, In p rows /\ prop p (as_ metric) = VNum (Fin q)) /\
    (forall p q', In p rows -> prop p (as_ metric) = VNum (Fin q') ->
                  beats (op metric) q q').
Proof.
  intros spec rows g metric H Hnd Hin Hop.
  induction H as [row g Hf|rows g row g' Hrows IH Hf]; intros Hnum.
  - destruct (Hnum row ltac:(now left)) as [c Hc].
    destruct (folds_into_isolate _ _ _ _ _ Hf Hnd Hin) as [g0 [g1 [Hstep [Hb Ha]]]].
    destruct (mergeMetricValue_extremum _ _ _ _ _ Hop Hc Hstep) as [Hseed _].
    exists c. split; [rewrite Ha; apply Hseed; now rewrite Hb|].
    split; [exists row; split; [now left | exact Hc]|].
    intros p q' [<-|[]] Hq. rewrite Hc in Hq. injection Hq as <-. apply beats_refl.
  - destruct (IH ltac:(intros p Hp; apply Hnum, in_or_app; now left))
      as [x [Hx [[px [Hpx Hvx]] Hbest]]].
    destruct (Hnum row ltac:(apply in_or_app; right; now left)) as [c Hc].
    destruct (folds_into_isolate _ _ _ _ _ Hf Hnd Hin) as [g0 [g1 [Hstep [Hb Ha]]]].
    destruct (mergeMetricValue_extremum _ _ _ _ _ Hop Hc Hstep) as [_ Hcmp].
    destruct (Hcmp x ltac:(now rewrite Hb)) as [[Hv Hbt]|[Hv Hbt]].
    + exists c. split; [now rewrite Ha|]. split.
      * exists row. split; [apply in_or_app; right; now left | exact Hc].
      * intros p q' Hp Hq. apply in_app_or in Hp. destruct Hp as [Hp|[<-|[]]].
        -- eapply beats_trans; [exact Hbt | now apply (Hbest p)].
        -- rewrite Hc in Hq. injection Hq as <-. apply beats_refl.
    + exists x. split; [now rewrite Ha|]. split.
      * exists px. split; [apply in_or_app; now left | exact Hvx].
      * intros p q' Hp Hq. apply in_app_or in Hp. destruct Hp as [Hp|[<-|[]]].
        -- now apply (Hbest p).
        -- rewrite Hc in Hq. injection Hq as <-. exact Hbt.
Qed.

(** *** The rows of [finalize], record by record *)

Lemma Forall2_impl : forall {A B : Type} (P Q : A -> B -> Prop) l l',
  (forall a b, In a l -> P a b -> Q a b) -> Forall2 P l l' -> Forall2 Q l l'.
Proof.
  intros A B P Q l l' Himp H. induction H as [|a b l l' Hab H IH]; constructor.
  - apply Himp; [now left | exact Hab].
  - apply IH. intros a' b' Hin. apply Himp. now right.
Qed.

Lemma finalize_rows_of_records : forall spec maxGroups partialRows state,
  consume_all spec maxGroups [] partialRows = (state, None) ->
  let keys := map fst (sort_entries state) in
  Permutation keys (nodup string_dec (map (group_key spec) partialRows)) /\
  Forall2 (fun k row =>
             exists g, folded spec (partials_of spec k partialRows) g /\
                       row = output_row spec g)
          keys (rows (finalize spec state)).
Proof.
  intros spec maxGroups partialRows state Hrun keys.
  destruct (run_grouped _ _ _ _ Hrun) as [Hnd [Hin Hrec]].
  pose proof (sort_entries_perm state) as Hperm. split.
  - subst keys. rewrite (Permutation_map fst Hperm).
    apply NoDup_Permutation; [exact Hnd | apply NoDup_nodup|].
    intros k. now rewrite nodup_In, Hin.
  - subst keys. unfold finalize, toReduceSummary. cbn [rows].
    apply Forall2_maps. apply Forall_forall. intros [k g] He. cbn [fst snd].
    apply (Permutation_in _ Hperm) in He.
    exists g. split; [|reflexivity]. apply Hrec. now apply lookup_In.
Qed.



End Metrics.



Section Runs.
Context {RT : Runtime}.

(** *** Runs that throw *)

Lemma consume_all_thrown : forall spec maxGroups partialRows state state' e,
  consume_all spec maxGroups state partialRows = (state', Some e) ->
  exists done row rest s,
    partialRows = done ++ row :: rest /\
    consume_all spec maxGroups state done = (s, None) /\
    consume spec maxGroups s row = (state', Some e).
Proof.
  intros spec maxGroups. induction partialRows as [|row rest IH]; intros state state' e H.
  - discriminate.
  - cbn [consume_all] in H.
    destruct (consume spec maxGroups state row) as [s1 [e1|]] eqn:Hc.
    + injection H as <- <-. exists [], row, rest, state. now repeat split.
    + destruct (IH _ _ _ H) as [done [row' [rest' [s [-> [Hdone Hrow]]]]]].
      exists (row :: done), row', rest', s. split; [reflexivity|]. split; [|exact Hrow].
      cbn [consume_all]. now rewrite Hc.
Qed.

Lemma consume_all_keeps_bound : forall spec maxGroups partialRows state,
  groupCount state <= Z.max 0 maxGroups ->
  groupCount (fst (consume_all spec (Some maxGroups) state partialRows))
  <= Z.max 0 maxGroups.
Proof.
  intros spec m. induction partialRows as [|row rest IH]; intros state Hb; [exact Hb|].
  cbn [consume_all].
  pose proof (consume_keeps_bound spec m state row Hb) as Hstep.
  destruct (consume spec (Some m) state row) as [s1 [e|]]; [exact Hstep|].
  now apply IH.
Qed.

Lemma grouped_count : forall spec done state,
  grouped spec done state -> groupCount state = distinct_groups spec done.
Proof.
  intros spec done state [Hnd [Hin _]]. unfold groupCount, distinct_groups. f_equal.
  rewrite <- (length_map fst state). apply Permutation_length.
  apply NoDup_Permutation; [exact Hnd | apply NoDup_nodup|].
  intros k. now rewrite nodup_In, Hin.
Qed.

Lemma consume_cardinality_thrown : forall spec maxGroups state row state' e,
  consume spec (Some maxGroups) state row = (state', Some e) ->
  is_cardinality_error (Some e) = true ->
  lookup (group_key spec row) state = None /\ maxGroups <= groupCount state.
Proof.
  intros spec m state row state' e H He. rewrite consume_unfold in H.
  destruct (lookup (group_key spec row) state) as [c|].
  - pose proof (consume_into_throws spec state row c) as Hc.
    rewrite H in Hc. cbn [snd] in Hc. congruence.
  - cbv zeta in H. split; [reflexivity|]. unfold groupCount.
    destruct (Z.geb_spec (Z.of_nat (List.length state)) m) as [Hge|Hlt]; [lia|].
    pose proof (consume_into_throws spec state row
                  (mkGroupState (decodeGroup (groupBy spec) (prop row "_id")) [] [] (Fin 0%Q)))
      as Hc.
    rewrite H in Hc. cbn [snd] in Hc. congruence.
Qed.

Lemma few_groups_fit : forall spec maxGroups partialRows,
  distinct_groups spec partialRows <= maxGroups ->
  is_cardinality_error (snd (consume_all spec (Some maxGroups) [] partialRows)) = false.
Proof.
  intros spec m partialRows Hfew.
  destruct (consume_all spec (Some m) [] partialRows) as [state [e|]] eqn:Hrun;
    [|reflexivity].
  cbn [snd]. destruct (is_cardinality_error (Some e)) eqn:He; [exfalso | reflexivity].
  destruct (consume_all_thrown _ _ _ _ _ _ Hrun) as [done [row [rest [s [-> [Hdone Hrow]]]]]].
  destruct (consume_cardinality_thrown _ _ _ _ _ _ Hrow He) as [Habsent Hfull].
  pose proof (run_grouped _ _ _ _ Hdone) as Hg.
  destruct Hg as [Hnd [Hin _]].
  assert (Hlen : (S (List.length s) <= List.length
                    (nodup string_dec (map (group_key spec) (done ++ row :: rest))))%nat).
  { rewrite <- (length_map fst s).
    change (S (List.length (map fst s)))
      with (List.length (group_key spec row :: map fst s)).
    apply NoDup_incl_length.
    - constructor; [now apply lookup_None_iff | exact Hnd].
    - intros k [<-|Hk]; apply nodup_In; rewrite map_app, in_app_iff; cbn [map In].
      + right; now left.
      + left. now apply Hin. }
  unfold distinct_groups in Hfew. unfold groupCount in Hfull. lia.
Qed.

(** A run with a bound that does not throw the cardinality error is the
    run without the bound. *)
Lemma bound_unused : forall spec maxGroups partialRows state,
  is_cardinality_error (snd (consume_all spec (Some maxGroups) state partialRows)) = false ->
  consume_all spec (Some maxGroups) state partialRows =
  consume_all spec None state partialRows.
Proof.
  intros spec m. induction partialRows as [|row rest IH]; intros state H; [reflexivity|].
  cbn [consume_all] in *.
  assert (Hstep : consume spec (Some m) state row = consume spec None state row \/
                  consume spec (Some m) state row = (state, Some (ReduceCardinalityExceeded m))).
  { rewrite !consume_unfold. destruct (lookup (group_key spec row) state); [now left|].
    cbv zeta. destruct (Z.of_nat (List.length state) >=? m); [now right | now left]. }
  destruct Hstep as [Hstep|Hstep].
  - rewrite Hstep in *. destruct (consume spec None state row) as [s1 [e|]]; [reflexivity|].
    now apply IH.
  - rewrite Hstep in H. discriminate.
Qed.

(** X5. A run with a bound [maxGroups], started on an empty map: the map
    never holds more than [maxGroups] groups; when no call throws it holds
    one group per distinct key of the partial rows; and when the partial
    rows have no more than [maxGroups] distinct keys the cardinality error
    is not thrown. *)
Theorem consume_all_bound : forall spec maxGroups partialRows,
  let outcome := consume_all spec (Some maxGroups) [] partialRows in
  groupCount (fst outcome) <= Z.max 0 maxGroups /\
  (snd outcome = None -> groupCount (fst outcome) = distinct_groups spec partialRows) /\
  (distinct_groups spec partialRows <= maxGroups ->
   is_cardinality_error (snd outcome) = false).
Proof.
  intros spec m partialRows outcome. subst outcome. split; [|split].
  - apply consume_all_keeps_bound. unfold groupCount. cbn. lia.
  - destruct (consume_all spec (Some m) [] partialRows) as [state thrown] eqn:Hrun.
    cbn [fst snd]. intros ->. apply grouped_count. eapply run_grouped. exact Hrun.
  - apply few_groups_fit.
Qed.

(** X6. The bound of the streaming accumulator is transparent when it is
    not hit: with no more than [maxGroups] distinct group keys the run with
    the bound is the run without it, and whenever the run with the bound
    goes through, [reducePartitionRows] on the same partial rows returns
    what the accumulator finalizes to. *)
Theorem bound_is_transparent : forall spec maxGroups partialRows,
  (distinct_groups spec partialRows <= maxGroups ->
   consume_all spec (Some maxGroups) [] partialRows =
   consume_all spec None [] partialRows) /\
  (forall state,
     consume_all spec (Some maxGroups) [] partialRows = (state, None) ->
     reducePartitionRows spec partialRows = Ok (finalize spec state)).
Proof.
  intros spec m partialRows. split.
  - intros Hfew. apply bound_unused. now apply few_groups_fit.
  - intros state Hrun. unfold reducePartitionRows.
    rewrite <- (bound_unused spec m partialRows []) by now rewrite Hrun.
    now rewrite Hrun.
Qed.

(** *** Which fields make a run throw *)

Lemma mergeMetricValue_thrown : forall g metric doc g' e,
  mergeMetricValue g metric doc = (g', Some e) ->
  exists fieldName, e = NonNumericValue fieldName /\ reported_by metric fieldName.
Proof.
  intros g metric doc g' e. unfold mergeMetricValue, reported_by.
  destruct (op metric);
    repeat match goal with
           | |- context [numericFrom ?v ?f] =>
               let E := fresh "E" in destruct (numericFrom v f) eqn:E
           | |- context [match ?x with _ => _ end] => destruct x
           end;
    intros H; inversion H; subst;
    match goal with
    | E : numericFrom _ _ = Throw _ |- _ =>
        apply numericFrom_throws in E; subst; eexists; split; [reflexivity|]; auto
    end.
Qed.

Lemma merge_metrics_thrown : forall ms g doc g' e,
  merge_metrics g ms doc = (g', Some e) ->
  exists metric fieldName,
    In metric ms /\ e = NonNumericValue fieldName /\ reported_by metric fieldName.
Proof.
  induction ms as [|m0 rest IH]; intros g doc g' e H; cbn in H; [discriminate|].
  destruct (mergeMetricValue g m0 doc) as [g1 [e1|]] eqn:Hm.
  - injection H as <- <-. destruct (mergeMetricValue_thrown _ _ _ _ _ Hm) as [f [-> Hf]].
    exists m0, f. split; [now left | now split].
  - destruct (IH _ _ _ _ H) as [metric [f [Hin Hf]]].
    exists metric, f. split; [now right | exact Hf].
Qed.

Lemma consume_thrown : forall spec state row state' e,
  consume spec None state row = (state', Some e) ->
  exists fieldName,
    e = NonNumericValue fieldName /\
    (fieldName = INPUT_COUNT_FIELD \/
     exists metric, In metric (metrics spec) /\ reported_by metric fieldName).
Proof.
  intros spec state row state' e. rewrite consume_unfold.
  assert (Hinto : forall c, consume_into spec state row c = (state', Some e) ->
            exists fieldName,
              e = NonNumericValue fieldName /\
              (fieldName = INPUT_COUNT_FIELD \/
               exists metric, In metric (metrics spec) /\ reported_by metric fieldName)).
  { intros c. unfold consume_into.
    destruct (numericFrom (prop row INPUT_COUNT_FIELD) INPUT_COUNT_FIELD) as [n|e0] eqn:Hn.
    - destruct (merge_metrics _ _ _) as [c' thrown] eqn:Hm.
      intros H. injection H as _ ->.
      destruct (merge_metrics_thrown _ _ _ _ _ Hm) as [metric [f [Hin [-> Hf]]]].
      exists f. split; [reflexivity|]. right. now exists metric.
    - intros H. injection H as _ <-. apply numericFrom_throws in Hn. subst.
      eexists. split; [reflexivity | now left]. }
  destruct (lookup (group_key spec row) state); apply Hinto.
Qed.

Lemma sort_entries_length : forall (state : groups),
  List.length (sort_entries state) = List.length state.
Proof. intros state. apply Permutation_length, sort_entries_perm. Qed.

(** X7. [reducePartitionRows] either returns a summary with one output row
    per distinct group key of the partial rows, or throws the non-numeric
    error, naming the count column or a column of a [count], [sum] or [avg]
    metric of the spec: it never throws the cardinality error, and a [min]
    or [max] metric never makes it throw. *)
Theorem reducePartitionRows_outcome : forall spec partialRows,
  match reducePartitionRows spec partialRows with
  | Ok summary =>
      rowsOut summary = distinct_groups spec partialRows /\
      List.length (rows summary) = Z.to_nat (rowsOut summary)
  | Throw e =>
      exists fieldName,
        e = NonNumericValue fieldName /\
        (fieldName = INPUT_COUNT_FIELD \/
         exists metric, In metric (metrics spec) /\ reported_by metric fieldName)
  end.
Proof.
  intros spec partialRows. unfold reducePartitionRows.
  destruct (consume_all spec None [] partialRows) as [state [e|]] eqn:Hrun.
  - destruct (consume_all_thrown _ _ _ _ _ _ Hrun) as [done [row [rest [s [_ [_ Hrow]]]]]].
    exact (consume_thrown _ _ _ _ _ Hrow).
  - unfold finalize, toReduceSummary. cbn [rowsOut rows].
    rewrite length_map, sort_entries_length. split; [|now rewrite Nat2Z.id].
    apply (grouped_count spec partialRows state). eapply run_grouped. exact Hrun.
Qed.

(** *** Which partial rows a run accepts *)

Lemma is_number_reads : forall v fieldName,
  is_number v = true <-> exists q, numericFrom v fieldName = Ok q.
Proof.
  intros v fieldName. unfold is_number, numericFrom.
  destruct (nullish v); cbn [orb].
  - split; [eexists; reflexivity | reflexivity].
  - destruct (Number_ v); split; intros H; try discriminate; try reflexivity;
      try (eexists; reflexivity); destruct H as [q H]; discriminate.
Qed.

(** What [mergeMetricValue] asks of the columns of [doc] for [metric], and
    of the running sum it reads back. *)
Lemma mergeMetricValue_returns : forall g metric doc,
  (exists g', mergeMetricValue g metric doc = (g', None)) <->
  match op metric with
  | OpCount | OpSum => is_number (prop doc (as_ metric)) = true
  | OpAvg =>
      is_number (prop doc (AVG_SUM_PREFIX ++ as_ metric)) = true /\
      is_number (prop doc (AVG_COUNT_PREFIX ++ as_ metric)) = true
  | OpMin | OpMax => True
  end /\
  (is_sum (op metric) = true -> is_number (values_get g (as_ metric)) = true).
Proof.
  intros g metric doc. unfold mergeMetricValue.
  destruct (op metric) eqn:Hop; cbn [is_sum].
  - rewrite !(is_number_reads _ (as_ metric)).
    destruct (numericFrom (prop doc (as_ metric)) (as_ metric)) as [c|e];
      destruct (numericFrom (values_get g (as_ metric)) (as_ metric)) as [p|e'].
    + split; [intros _; split; [|intros _]; eexists; reflexivity
             | intros _; eexists; reflexivity].
    + split; [intros [x H]; discriminate | intros [_ H]].
      destruct (H eq_refl) as [x Hx]. discriminate.
    + split; [intros [x H]; discriminate | intros [[x H] _]; discriminate].
    + split; [intros [x H]; discriminate | intros [[x H] _]; discriminate].
  - rewrite !(is_number_reads _ (as_ metric)).
    destruct (numericFrom (prop doc (as_ metric)) (as_ metric)) as [c|e];
      destruct (numericFrom (values_get g (as_ metric)) (as_ metric)) as [p|e'].
    + split; [intros _; split; [|intros _]; eexists; reflexivity
             | intros _; eexists; reflexivity].
    + split; [intros [x H]; discriminate | intros [_ H]].
      destruct (H eq_refl) as [x Hx]. discriminate.
    + split; [intros [x H]; discriminate | intros [[x H] _]; discriminate].
    + split; [intros [x H]; discriminate | intros [[x H] _]; discriminate].
  - split; [intros _; split; [exact I | discriminate] | intros _].
    destruct (values_get g (as_ metric)); try (eexists; reflexivity);
      destruct (nullish (prop doc (as_ metric))); try (eexists; reflexivity);
      destruct (pickComparable (prop doc (as_ metric))); try (eexists; reflexivity);
      cbn [pickComparable]; try (eexists; reflexivity);
      repeat match goal with
             | |- context [match ?x with _ => _ end] => destruct x
             end; eexists; reflexivity.
  - split; [intros _; split; [exact I | discriminate] | intros _].
    destruct (values_get g (as_ metric)); try (eexists; reflexivity);
      destruct (nullish (prop doc (as_ metric))); try (eexists; reflexivity);
      destruct (pickComparable (prop doc (as_ metric))); try (eexists; reflexivity);
      cbn [pickComparable]; try (eexists; reflexivity);
      repeat match goal with
             | |- context [match ?x with _ => _ end] => destruct x
             end; eexists; reflexivity.
  - rewrite (is_number_reads _ (as_ metric ++ ".sum")%string),
            (is_number_reads _ (as_ metric ++ ".count")%string).
    destruct (numericFrom (prop doc (AVG_SUM_PREFIX ++ as_ metric)) _) as [a|e].
    + destruct (numericFrom (prop doc (AVG_COUNT_PREFIX ++ as_ metric)) _) as [b|e].
      * split; [intros _; split; [split; eexists; reflexivity | discriminate]
               | intros _; eexists; reflexivity].
      * split; [intros [x H]; discriminate | intros [[_ [x H]] _]; discriminate].
    + split; [intros [x H]; discriminate | intros [[[x H] _] _]; discriminate].
Qed.

Lemma merge_metrics_returns : forall ms g doc,
  NoDup (map as_ ms) ->
  (exists g', merge_metrics g ms doc = (g', None)) <->
  (forall metric, In metric ms ->
     match op metric with
     | OpCount | OpSum => is_number (prop doc (as_ metric)) = true
     | OpAvg =>
         is_number (prop doc (AVG_SUM_PREFIX ++ as_ metric)) = true /\
         is_number (prop doc (AVG_COUNT_PREFIX ++ as_ metric)) = true
     | OpMin | OpMax => True
     end /\
     (is_sum (op metric) = true -> is_number (values_get g (as_ metric)) = true)).
Proof.
  induction ms as [|m0 rest IH]; intros g doc Hnd.
  - cbn. split; [intros _ metric [] | intros _; eexists; reflexivity].
  - cbn [map] in Hnd. inversion Hnd as [|? ? Hout Hnd']; subst.
    pose proof (mergeMetricValue_returns g m0 doc) as Hfirst.
    cbn [merge_metrics].
    destruct (mergeMetricValue g m0 doc) as [g1 [e|]] eqn:Hm.
    + split.
      * intros [x H]. discriminate.
      * intros Hall. apply Hfirst in Hall; [|now left].
        destruct Hall as [x H]. discriminate.
    + assert (Hsame : forall metric, In metric rest ->
                        values_get g1 (as_ metric) = values_get g (as_ metric)).
      { intros metric Hin.
        apply (mergeMetricValue_values_other _ _ _ _ (as_ metric) Hm).
        intros E. apply Hout. rewrite <- E. now apply in_map. }
      rewrite (IH g1 doc Hnd'). split.
      * intros Hall metric [<-|Hin].
        -- apply Hfirst. now exists g1.
        -- rewrite <- (Hsame _ Hin). now apply Hall.
      * intros Hall metric Hin. rewrite (Hsame _ Hin). apply Hall. now right.
Qed.

Lemma folds_into_returns : forall spec g row,
  NoDup (map as_ (metrics spec)) ->
  (exists g', folds_into spec g row g') <->
  numeric_partial spec row /\
  (forall metric, In metric (metrics spec) -> is_sum (op metric) = true ->
                  is_number (values_get g (as_ metric)) = true).
Proof.
  intros spec g row Hnd. unfold folds_into, numeric_partial.
  rewrite (is_number_reads _ INPUT_COUNT_FIELD).
  split.
  - intros [g' [n [Hn Hm]]].
    assert (Hall : exists g', merge_metrics (set_inputCount g (add (inputCount g) (Fin n)))
                                            (metrics spec) row = (g', None))
      by now exists g'.
    pose proof (proj1 (merge_metrics_returns (metrics spec)
                         (set_inputCount g (add (inputCount g) (Fin n))) row Hnd) Hall)
      as Hdoc.
    split; [split; [now exists n|]|]; intros metric Hin; now apply (Hdoc metric Hin).
  - intros [[[n Hn] Hdoc] Hstored].
    assert (Hall : exists g', merge_metrics (set_inputCount g (add (inputCount g) (Fin n)))
                                            (metrics spec) row = (g', None)).
    { apply (proj2 (merge_metrics_returns (metrics spec)
                      (set_inputCount g (add (inputCount g) (Fin n))) row Hnd)).
      intros metric Hin. split; [now apply Hdoc | now apply Hstored]. }
    destruct Hall as [g' Hm]. exists g', n. now split.
Qed.

(** The running sums a record holds are those of the rows folded into it. *)
Lemma record_sums : forall spec done state row,
  NoDup (map as_ (metrics spec)) ->
  grouped spec done state ->
  forall metric, In metric (metrics spec) -> is_sum (op metric) = true ->
    is_number (values_get (match lookup (group_key spec row) state with
                           | Some c => c
                           | None => fresh_group spec row
                           end) (as_ metric)) =
    is_finite (sum_doubles (map (partial_value metric)
                                (partials_of spec (group_key spec row) done))).
Proof.
  intros spec done state row Hnd [_ [Hin Hrec]] metric Hmet Hop.
  destruct (lookup (group_key spec row) state) as [c|] eqn:Hl.
  - rewrite (folded_sum _ _ _ _ (Hrec _ _ Hl) Hnd Hmet Hop).
    unfold is_number. cbn [nullish Number_ orb].
    now destruct (sum_doubles _).
  - rewrite partials_of_absent; [reflexivity|].
    rewrite <- Hin. now apply lookup_None_iff.
Qed.

Lemma consume_returns : forall spec done state row,
  NoDup (map as_ (metrics spec)) ->
  grouped spec done state ->
  (exists state', consume spec None state row = (state', None)) <->
  numeric_partial spec row /\
  (forall metric, In metric (metrics spec) -> is_sum (op metric) = true ->
     is_finite (sum_doubles (map (partial_value metric)
                                 (partials_of spec (group_key spec row) done))) = true).
Proof.
  intros spec done state row Hnd Hg.
  pose proof (record_sums spec done state row Hnd Hg) as Hsums.
  assert (Hfold : (exists state', consume spec None state row = (state', None)) <->
                  exists g', folds_into spec
                               (match lookup (group_key spec row) state with
                                | Some c => c
                                | None => fresh_group spec row
                                end) row g').
  { split.
    - intros [state' H]. apply consume_folds in H. destruct H as [g' [_ Hf]]. now exists g'.
    - intros [g' Hf]. rewrite consume_unfold. cbv zeta. fold (fresh_group spec row).
      destruct (lookup (group_key spec row) state) as [c|];
        rewrite (folds_into_consume_into _ _ _ _ _ Hf); eexists; reflexivity. }
  rewrite Hfold, (folds_into_returns spec _ row Hnd). split.
  - intros [Hnum Hstored]. split; [exact Hnum|]. intros metric Hmet Hop.
    rewrite <- Hsums by assumption. now apply Hstored.
  - intros [Hnum Hfin]. split; [exact Hnum|]. intros metric Hmet Hop.
    rewrite Hsums by assumption. now apply Hfin.
Qed.

Lemma consume_all_returns : forall spec rest done state,
  NoDup (map as_ (metrics spec)) ->
  grouped spec done state ->
  (exists state', consume_all spec None state rest = (state', None)) <->
  Forall (numeric_partial spec) rest /\
  (forall before row after, rest = before ++ row :: after ->
   forall metric, In metric (metrics spec) -> is_sum (op metric) = true ->
     is_finite (sum_doubles (map (partial_value metric)
                  (partials_of spec (group_key spec row) (done ++ before)))) = true).
Proof.
  intros spec. induction rest as [|row rest IH]; intros done state Hnd Hg.
  - cbn. split; [|intros _; eexists; reflexivity].
    intros _. split; [constructor|]. intros before row after E.
    destruct before; discriminate.
  - cbn [consume_all].
    pose proof (consume_returns spec done state row Hnd Hg) as Hrow.
    destruct (consume spec None state row) as [s1 [e|]] eqn:Hc.
    + split.
      * intros [x H]. discriminate.
      * intros [Hall Hfin]. inversion Hall as [|? ? Hnum _]; subst.
        assert (Hex : exists state', (s1, Some e) = (state', @None error)).
        { apply Hrow. split; [exact Hnum|]. intros metric Hmet Hop.
          rewrite <- (app_nil_r done). now apply (Hfin [] row rest). }
        destruct Hex as [x H]. discriminate.
    + rewrite (IH (done ++ [row]) s1 Hnd (consume_grouped _ _ _ _ _ _ Hg Hc)).
      assert (Hhead : numeric_partial spec row /\
                (forall metric, In metric (metrics spec) -> is_sum (op metric) = true ->
                   is_finite (sum_doubles (map (partial_value metric)
                     (partials_of spec (group_key spec row) done))) = true))
        by (apply Hrow; now exists s1).
      destruct Hhead as [Hnum Hfin0]. split.
      * intros [Hall Hfin]. split; [now constructor|].
        intros before r after E metric Hmet Hop.
        destruct before as [|b before]; cbn [app] in E; injection E as <- ->.
        -- rewrite app_nil_r. now apply Hfin0.
        -- replace (done ++ row :: before) with ((done ++ [row]) ++ before)
             by now rewrite <- app_assoc.
           now apply (Hfin before r after).
      * intros [Hall Hfin]. split; [now inversion Hall|].
        intros before r after E metric Hmet Hop.
        replace ((done ++ [row]) ++ before) with (done ++ row :: before)
          by now rewrite <- app_assoc.
        apply (Hfin (row :: before) r after); [now rewrite E | assumption | assumption].
Qed.

(** X8. For a spec that [validateReduceSpec] accepts, [reducePartitionRows]
    returns a summary exactly when every partial row reads as a number in
    its count column and in the columns of the [count], [sum] and [avg]
    metrics ([null] and a missing column read as [0]), and no running sum
    of a [count] or [sum] metric has overflowed to an infinity by the time
    a further partial row of its group arrives. *)
Theorem reducePartitionRows_returns : forall spec partialRows,
  validateReduceSpec spec = None ->
  (exists summary, reducePartitionRows spec partialRows = Ok summary) <->
  Forall (numeric_partial spec) partialRows /\ sums_stay_finite spec partialRows.
Proof.
  intros spec partialRows Hvalid.
  assert (Hrun : (exists summary, reducePartitionRows spec partialRows = Ok summary) <->
                 exists state', consume_all spec None [] partialRows = (state', None)).
  { unfold reducePartitionRows.
    destruct (consume_all spec None [] partialRows) as [state [e|]].
    - split; intros [x H]; discriminate.
    - split; intros _; eexists; reflexivity. }
  rewrite Hrun.
  exact (consume_all_returns spec partialRows [] []
           (valid_spec_aliases _ Hvalid) (grouped_nil spec)).
Qed.

(** The overflow is there: three finite values, and the third call throws. *)
Example running_sum_overflows :
  let RT := TestRuntime.runtime in
  let spec := mkReduceSpec [] [mkMetric OpSum (Some "amount"%string) "total"] in
  let big := VNum (round (inject_Z (10 ^ 308))) in
  let row := fun v => [("_id", VNull); ("total", v);
                       ("__input_count", VNum (Fin 1))]%string in
  is_number big = true /\
  reducePartitionRows spec [row big; row big; row (VNum (Fin 0))]
  = Throw (NonNumericValue "total").
Proof. cbv zeta. split; vm_compute; reflexivity. Qed.

End Runs.

Lemma reducePartitionRows_returns_witness :
  let RT := TestRuntime.runtime in
  (exists summary, reducePartitionRows orders_spec orders_partials = Ok summary) <->
  Forall (numeric_partial orders_spec) orders_partials /\
  sums_stay_finite orders_spec orders_partials.
Proof.
  exact (reducePartitionRows_returns (RT := TestRuntime.runtime)
           orders_spec orders_partials eq_refl).
Defined.

(** A grouping field that the group object does not carry is read through
    its prototype: [constructor] gives the inherited function, a name that
    [Object.prototype] does not have gives [null]. *)
Example decodeGroup_of_an_inherited_field :
  let RT := TestRuntime.runtime in
  decodeGroup ["constructor"; "region"]%string (VObj [("region", VStr "eu")]%string)
  = [("constructor", VFunction "constructor"); ("region", VStr "eu")]%string /\
  decodeGroup ["status"]%string (VObj []) = [("status", VNull)]%string.
Proof. cbv zeta. split; vm_compute; reflexivity. Qed.

End ReduceEngineMore.

(* ------------------------------------------------------------------ *)
(** ** The aggregation pipelines *)

Module PipelinesProps.
Import Js Partitioner ReduceEngine Pipelines JsProps ReduceEngineProps.

(** *** Spreading one object into another *)

Lemma assign_keys : forall source target k,
  In k (map fst (assign target source)) <->
  In k (map fst target) \/ In k (map fst source).
Proof.
  unfold assign. induction source as [|[k0 v0] rest IH]; intros target k;
    cbn [fold_left map fst snd In].
  - tauto.
  - rewrite IH, upsert_keys_In. intuition congruence.
Qed.

Lemma assign_absent : forall source target k,
  ~ In k (map fst source) -> lookup k (assign target source) = lookup k target.
Proof.
  unfold assign. induction source as [|[k0 v0] rest IH]; intros target k Hout;
    cbn [fold_left map fst snd In] in *; [reflexivity|].
  rewrite IH by tauto. apply lookup_upsert_other. intros ->. apply Hout. now left.
Qed.

(** The last entry of [source] for a key is the one that stays. *)
Lemma assign_present : forall source target k,
  In k (map fst source) ->
  exists v, In (k, v) source /\ lookup k (assign target source) = Some v.
Proof.
  induction source as [|[k0 v0] rest IH]; intros target k Hin; [destruct Hin|].
  destruct (in_dec string_dec k (map fst rest)) as [Hrest|Hout].
  - destruct (IH (upsert k0 v0 target) k Hrest) as [v [Hv Hl]].
    exists v. split; [now right | exact Hl].
  - destruct Hin as [E|Hin]; [|contradiction]. cbn [fst] in E. subst k0.
    exists v0. split; [now left|].
    change (assign target ((k, v0) :: rest)) with (assign (upsert k v0 target) rest).
    rewrite assign_absent by exact Hout. apply lookup_upsert_same.
Qed.

(** *** [$match] *)

(** X9. The [$match] stage of a chunk's pipeline.  The [_id] condition is
    the chunk's range whatever the filters hold; the stage holds the job's
    [tenantId] when the filters have no entry under that key; an entry of
    the filters under any key but [_id] is in the stage, so that a filter
    under [tenantId] stands in place of the job's; and the stage has no
    other key. *)
Theorem match_stage_scope : forall tenantId filters range,
  let idMatch := id_match_doc (rangeToIdMatch range) in
  let stage := match_stage tenantId filters idMatch in
  lookup "_id"%string stage = lookup "_id"%string idMatch /\
  (~ In "tenantId"%string (map fst filters) ->
   lookup "tenantId"%string stage = Some (VStr tenantId)) /\
  (forall k, k <> "_id"%string -> In k (map fst filters) ->
     exists v, In (k, v) filters /\ lookup k stage = Some v) /\
  (forall k, In k (map fst stage) <->
     k = "tenantId"%string \/ k = "_id"%string \/ In k (map fst filters)).
Proof.
  intros tenantId filters range idMatch stage. subst stage idMatch.
  unfold match_stage, id_match_doc.
  set (cond := VObj _). split; [|split; [|split]].
  - change (assign ?t [("_id"%string, cond)]) with (upsert "_id"%string cond t).
    now rewrite lookup_upsert_same.
  - intros Hout.
    change (assign ?t [("_id"%string, cond)]) with (upsert "_id"%string cond t).
    rewrite lookup_upsert_other by discriminate.
    now rewrite assign_absent.
  - intros k Hne Hin.
    change (assign ?t [("_id"%string, cond)]) with (upsert "_id"%string cond t).
    rewrite lookup_upsert_other by exact Hne.
    now apply assign_present.
  - intros k. rewrite !assign_keys. cbn [map fst In]. intuition congruence.
Qed.

(** *** [$group] *)

Lemma buildMetricAccumulator_keys : forall metric,
  map fst (buildMetricAccumulator metric) = metric_keys metric.
Proof.
  intros metric. unfold buildMetricAccumulator, metric_keys, fromEntries.
  destruct (op metric); reflexivity.
Qed.

Lemma accumulators_keys : forall ms acc k,
  In k (map fst (fold_left (fun acc metric => assign acc (buildMetricAccumulator metric))
                           ms acc)) <->
  In k (map fst acc) \/ exists metric, In metric ms /\ In k (metric_keys metric).
Proof.
  induction ms as [|m0 rest IH]; intros acc k; cbn [fold_left].
  - split; [now left | intros [H|[m [[] _]]]; exact H].
  - rewrite IH, assign_keys, buildMetricAccumulator_keys. split.
    + intros [[H|H]|[m [Hin Hk]]]; [now left | right | right].
      * exists m0. split; [now left | exact H].
      * exists m. split; [now right | exact Hk].
    + intros [H|[m [[<-|Hin] Hk]]]; [left; now left | left; now right | right].
      now exists m.
Qed.

Lemma group_stage_keys : forall spec k,
  In k (map fst (group_stage spec)) <->
  k = "_id"%string \/ k = INPUT_COUNT_FIELD \/
  exists metric, In metric (metrics spec) /\ In k (metric_keys metric).
Proof.
  intros spec k. unfold group_stage, group_accumulators.
  rewrite assign_keys, upsert_keys_In, accumulators_keys. cbn [map fst In].
  intuition congruence.
Qed.

Section WithRuntime.
Context {RT : Runtime}.

Lemma mergeMetricValue_reads : forall g metric doc doc',
  (forall k, In k (metric_keys metric) -> prop doc k = prop doc' k) ->
  mergeMetricValue g metric doc = mergeMetricValue g metric doc'.
Proof.
  intros g metric doc doc' H. unfold mergeMetricValue. unfold metric_keys in H.
  destruct (op metric); cbn [In] in H.
  - now rewrite (H (as_ metric)) by now left.
  - now rewrite (H (as_ metric)) by now left.
  - now rewrite (H (as_ metric)) by now left.
  - now rewrite (H (as_ metric)) by now left.
  - rewrite (H (AVG_SUM_PREFIX ++ as_ metric)%string) by now left.
    now rewrite (H (AVG_COUNT_PREFIX ++ as_ metric)%string) by (right; now left).
Qed.

Lemma merge_metrics_reads : forall ms g doc doc',
  (forall metric k, In metric ms -> In k (metric_keys metric) -> prop doc k = prop doc' k) ->
  merge_metrics g ms doc = merge_metrics g ms doc'.
Proof.
  induction ms as [|m0 rest IH]; intros g doc doc' H; [reflexivity|].
  cbn [merge_metrics].
  rewrite (mergeMetricValue_reads g m0 doc doc') by (intros k; apply H; now left).
  destruct (mergeMetricValue g m0 doc') as [g1 [e|]]; [reflexivity|].
  apply IH. intros metric k Hin. apply H. now right.
Qed.


End WithRuntime.


End PipelinesProps.

(* ------------------------------------------------------------------ *)
(** ** The delimited and the JSON array streams *)

Module FormatsProps.
Import Js Formats JsProps.

Lemma concat_all_app : forall a b,
  concat_all (a ++ b) = (concat_all a ++ concat_all b)%string.
Proof.
  induction a as [|x a IH]; intros b; cbn [concat_all app]; [reflexivity|].
  now rewrite IH, append_assoc.
Qed.

Lemma join_cons : forall sep x rest,
  join sep (x :: rest) = (x ++ concat_all (map (fun y => sep ++ y) rest))%string.
Proof.
  intros sep x rest. revert x. induction rest as [|y rest IH]; intros x.
  - cbn. now rewrite append_empty_r.
  - change (join sep (x :: y :: rest)) with (x ++ sep ++ join sep (y :: rest))%string.
    rewrite IH. cbn [map concat_all]. now rewrite append_assoc.
Qed.

(** *** Reading a record back *)

Lemma rev_string_rev : forall s acc acc',
  rev_string (rev_string s acc) acc' = rev_string acc (s ++ acc')%string.
Proof.
  induction s as [|c s IH]; intros acc acc'; cbn [rev_string append]; [reflexivity|].
  now rewrite IH.
Qed.

Lemma rev_string_involutive : forall s,
  rev_string (rev_string s EmptyString) EmptyString = s.
Proof. intros s. rewrite rev_string_rev. cbn. apply append_empty_r. Qed.

Lemma includes_char_cons : forall c d s,
  includes (String c EmptyString) (String d s) =
  (Ascii.eqb c d || includes (String c EmptyString) s)%bool.
Proof.
  intros c d s. cbn [includes String.prefix].
  destruct (ascii_dec c d) as [->|Hne].
  - rewrite Ascii.eqb_refl. now destruct s.
  - destruct (Ascii.eqb_spec c d); [contradiction | reflexivity].
Qed.

Lemma plain_read : forall raw tail acc,
  includes (String comma_char EmptyString) raw = false ->
  read_record (raw ++ tail) InPlain acc = read_record tail InPlain (rev_string raw acc).
Proof.
  induction raw as [|c raw IH]; intros tail acc H; [reflexivity|].
  rewrite includes_char_cons in H. apply orb_false_iff in H. destruct H as [Hc H].
  cbn [append read_record rev_string].
  rewrite Ascii.eqb_sym, Hc. now apply IH.
Qed.

Lemma quoted_read : forall raw tail acc,
  read_record (double_quotes raw ++ dquote ++ tail) InQuoted acc =
  read_record tail AfterQuote (rev_string raw acc).
Proof.
  induction raw as [|c raw IH]; intros tail acc.
  - cbn [double_quotes append rev_string dquote read_record].
    now rewrite Ascii.eqb_refl.
  - cbn [double_quotes rev_string].
    destruct (Ascii.eqb c dquote_char) eqn:Hc.
    + cbn [append read_record]. rewrite Hc. apply IH.
    + cbn [append read_record]. rewrite Hc. apply IH.
Qed.

Lemma read_tail : forall tail st acc,
  st <> InQuoted ->
  tail = EmptyString \/ (exists more, tail = String comma_char more) ->
  read_record tail st acc = rev_string acc EmptyString :: after_field tail.
Proof.
  intros tail st acc Hst [->|[more ->]]; [reflexivity|].
  destruct st; try contradiction; reflexivity.
Qed.

Lemma read_field : forall raw tail,
  tail = EmptyString \/ (exists more, tail = String comma_char more) ->
  read_record (escape_raw raw ++ tail) AtStart EmptyString = raw :: after_field tail.
Proof.
  intros raw tail Htail. unfold escape_raw, needs_quotes.
  destruct (includes "," raw) eqn:Hcomma; cbn [orb].
  2: destruct (includes dquote raw) eqn:Hquote; cbn [orb].
  3: destruct (includes LF raw); cbn [orb].
  1-3: rewrite !append_assoc; cbn [dquote append read_record];
       rewrite Ascii.eqb_refl;
       change (String dquote_char tail) with (dquote ++ tail)%string;
       rewrite quoted_read, read_tail by (assumption || discriminate);
       now rewrite rev_string_involutive.
  destruct raw as [|c raw].
  - cbn [append]. rewrite read_tail by (assumption || discriminate). reflexivity.
  - change (includes "," (String c raw))
      with (includes (String comma_char EmptyString) (String c raw)) in Hcomma.
    change (includes dquote (String c raw))
      with (includes (String dquote_char EmptyString) (String c raw)) in Hquote.
    pose proof Hcomma as Hcomma'.
    rewrite includes_char_cons in Hcomma', Hquote.
    apply orb_false_iff in Hcomma', Hquote.
    destruct Hcomma' as [Hc1 Hrest], Hquote as [Hc2 _].
    cbn [append read_record].
    rewrite (Ascii.eqb_sym c dquote_char), Hc2, (Ascii.eqb_sym c comma_char), Hc1.
    rewrite plain_read by exact Hrest.
    rewrite read_tail by (assumption || discriminate).
    change (rev_string raw (String c EmptyString))
      with (rev_string (String c raw) EmptyString).
    now rewrite rev_string_involutive.
Qed.

(** The reader takes a record apart into the texts it was built from. *)
Lemma read_fields_join : forall fields,
  fields <> [] -> read_fields (join "," (map escape_raw fields)) = fields.
Proof.
  induction fields as [|x rest IH]; intros Hne; [contradiction|].
  destruct rest as [|y rest].
  - cbn [map join]. rewrite <- (append_empty_r (escape_raw x)).
    unfold read_fields. rewrite read_field by now left. reflexivity.
  - change (join "," (map escape_raw (x :: y :: rest)))
      with (escape_raw x ++ String comma_char (join "," (map escape_raw (y :: rest))))%string.
    unfold read_fields. rewrite read_field by (right; eexists; reflexivity).
    cbn [after_field]. f_equal. apply IH. discriminate.
Qed.

(** X11. A record of the delimited output is unambiguous: two rows of as
    many texts each that [escapeCsv] and [join] turn into the same line are
    the same row.  Commas, quotes and line feeds inside a text do not
    shift the fields. *)
Theorem csv_record_unambiguous : forall a b,
  List.length a = List.length b ->
  join "," (map escape_raw a) = join "," (map escape_raw b) ->
  a = b.
Proof.
  intros a b Hlen Hjoin.
  destruct a as [|x a], b as [|y b]; try discriminate; [reflexivity|].
  rewrite <- (read_fields_join (x :: a)), <- (read_fields_join (y :: b)) by discriminate.
  now rewrite Hjoin.
Qed.

Lemma csv_record_unambiguous_witness :
  ["a,b"; "c"]%string = [("a" ++ ",b"); "c"]%string.
Proof.
  exact (csv_record_unambiguous ["a,b"; "c"]%string [("a" ++ ",b"); "c"]%string
           eq_refl eq_refl).
Defined.

Section WithRuntime.
Context {RT : Runtime}.

(** *** The JSON array *)

Lemma json_rows_later : forall rows chunks,
  concat_all (json_rows rows false chunks) =
  (concat_all chunks ++
   concat_all (map (fun text => "," ++ text)
                   (map (fun row => JSON_stringify (VObj row)) rows)) ++ "]")%string
  /\ List.length (json_rows rows false chunks) = S (List.length chunks + List.length rows).
Proof.
  induction rows as [|row rows IH]; intros chunks; cbn [json_rows map concat_all].
  - rewrite concat_all_app, length_app. cbn. split; [reflexivity | lia].
  - destruct (IH (chunks ++ [("," ++ JSON_stringify (VObj row))%string])) as [Htext Hlen].
    rewrite Htext, Hlen, concat_all_app, length_app. cbn [concat_all List.length].
    split; [|lia]. now rewrite append_empty_r, !append_assoc.
Qed.

(** X12. The chunks of [createJsonArrayStream], put end to end, are the
    opening bracket, the rows' JSON texts separated by commas, and the
    closing bracket, with [[]] for no row at all; there is one chunk per
    row and one for the end. *)
Theorem createJsonArrayStream_text : forall rows,
  concat_all (createJsonArrayStream rows) =
  ("[" ++ join "," (map (fun row => JSON_stringify (VObj row)) rows) ++ "]")%string /\
  List.length (createJsonArrayStream rows) = S (List.length rows).
Proof.
  intros rows. unfold createJsonArrayStream. destruct rows as [|row rows].
  - split; reflexivity.
  - cbn [json_rows app map].
    destruct (json_rows_later rows [("[" ++ JSON_stringify (VObj row))%string])
      as [Htext Hlen].
    rewrite Htext, Hlen, join_cons. cbn [concat_all List.length]. split; [|lia].
    now rewrite append_empty_r, !append_assoc.
Qed.

(** *** The delimited stream *)

Lemma escapeCsv_throws : forall v e,
  escapeCsv v = Throw e ->
  (v = VDate None /\ e = InvalidTimeValue) \/
  (exists name, v = VFunction name /\ e = IncludesOfUndefined).
Proof.
  intros v e. unfold escapeCsv, raw_text.
  destruct v as [| | | | | |[ms|]| | |name|]; cbn [nullish]; try discriminate;
    intros H; injection H as <-.
  - left. now split.
  - right. now exists name.
Qed.

Lemma csv_rows_lines : forall rows headers chunks out,
  csv_rows rows (Some headers) chunks = (out, None) ->
  exists lines, out = chunks ++ lines /\ Forall2 (is_line headers) rows lines.
Proof.
  induction rows as [|row rows IH]; intros headers chunks out H; cbn [csv_rows] in H.
  - injection H as <-. exists []. split; [now rewrite app_nil_r | constructor].
  - destruct (mapM (fun header => escapeCsv (prop row header)) headers) as [cells|e] eqn:Hm;
      [|discriminate].
    destruct (IH _ _ _ H) as [lines [-> Hlines]].
    exists ((join "," cells ++ LF)%string :: lines). split.
    + now rewrite <- app_assoc.
    + constructor; [|exact Hlines]. exists cells. split; [|reflexivity].
      now apply mapM_Ok.
Qed.

Lemma csv_rows_thrown : forall rows headers chunks out e,
  csv_rows rows headers chunks = (out, Some e) ->
  exists row k, In row rows /\ failing_cell (prop row k) e.
Proof.
  induction rows as [|row rows IH]; intros headers chunks out e H; cbn [csv_rows] in H;
    [discriminate|].
  destruct (mapM _ _) as [cells|e'] eqn:Hm.
  - destruct (IH _ _ _ _ H) as [r [k [Hin Hk]]].
    exists r, k. split; [now right | exact Hk].
  - injection H as _ <-. apply mapM_Throw in Hm. destruct Hm as [k [_ Hk]].
    exists row, k. split; [now left|]. now apply escapeCsv_throws.
Qed.

Lemma missing_cell_is_empty : forall row header,
  ~ In header (map fst row) -> inherited header = VUndefined ->
  escapeCsv (prop row header) = Ok EmptyString.
Proof.
  intros row header Hout Hplain. unfold prop.
  apply lookup_None_iff in Hout. now rewrite Hout, Hplain.
Qed.

(** X13. What [createCsvStream] pushes.  Without a row nothing is pushed,
    not even a header.  Otherwise the first chunk is the header line, the
    keys of the first row, and one line per row follows, each with one
    cell per key of the first row, read from the row as [row[header]]
    reads: a key only a later row has is left out, and a key a later row
    lacks gives an empty cell unless [Object.prototype] defines it.  The
    stream fails on a [Date] that is not a valid time and on a cell that
    is a function, as an inherited method is, and on nothing else. *)
Theorem createCsvStream_lines : forall rows,
  match createCsvStream rows with
  | (chunks, None) =>
      match rows with
      | [] => chunks = []
      | first :: _ =>
          exists lines,
            chunks = (join "," (map fst first) ++ LF)%string :: lines /\
            Forall2 (is_line (map fst first)) rows lines
      end
  | (_, Some e) => exists row k, In row rows /\ failing_cell (prop row k) e
  end /\
  (forall row header,
     ~ In header (map fst row) -> inherited header = VUndefined ->
     escapeCsv (prop row header) = Ok EmptyString).
Proof.
  intros rows. split; [|exact missing_cell_is_empty].
  unfold createCsvStream.
  destruct (csv_rows rows None []) as [chunks [e|]] eqn:H.
  - exact (csv_rows_thrown _ _ _ _ _ H).
  - destruct rows as [|first rest]; [cbn in H; now injection H as <-|].
    change (csv_rows (first :: rest) None [])
      with (csv_rows (first :: rest) (Some (map fst first))
                     [(join "," (map fst first) ++ LF)%string]) in H.
    destruct (csv_rows_lines _ _ _ _ H) as [lines [-> Hlines]].
    now exists lines.
Qed.

End WithRuntime.

(** A column named as a method of [Object.prototype]: the second row, which
    lacks it, reads the inherited method, and the stream fails after the
    header and the first line. *)
Example csv_of_an_inherited_column :
  createCsvStream (RT := TestRuntime.runtime)
    [[("constructor", VNum (Fin 1))]; []]%string
  = ([("constructor" ++ LF)%string; ("1" ++ LF)%string], Some IncludesOfUndefined).
Proof. vm_compute. reflexivity. Qed.

End FormatsProps.

(* ------------------------------------------------------------------ *)
(** ** More on the helpers *)

Module HelpersMore.
Import Js Helpers JsProps HelpersProps.

Lemma sanitize_loop_settles : forall entries output,
  Forall (fun kv => sanitizeFilters (sanitizeFilters (snd kv)) = sanitizeFilters (snd kv))
         entries ->
  NoDup (map fst output) ->
  Forall (fun kv => unsafe_key (fst kv) = false /\
                    (is_object (snd kv) = true -> sanitizeFilters (snd kv) = snd kv))
         output ->
  let out := sanitize_loop sanitizeFilters entries output in
  NoDup (map fst out) /\
  Forall (fun kv => unsafe_key (fst kv) = false /\
                    (is_object (snd kv) = true -> sanitizeFilters (snd kv) = snd kv))
         out.
Proof.
  induction entries as [|[key v] rest IH]; intros output Hself Hnd Hout; cbv zeta.
  - now split.
  - inversion Hself as [|? ? Hv Hrest]; subst. cbn [snd] in Hv. cbn [sanitize_loop].
    destruct (unsafe_key key) eqn:Hkey; [now apply IH|].
    destruct (is_object v) eqn:Hobj.
    + apply IH; [exact Hrest | now apply upsert_NoDup|].
      apply upsert_Forall; [exact Hout|]. intros k' ->. cbn [fst snd]. now split.
    + apply IH; [exact Hrest | now apply upsert_NoDup|].
      apply upsert_Forall; [exact Hout|]. intros k' ->. cbn [fst snd].
      split; [exact Hkey | congruence].
Qed.

Lemma sanitize_loop_keeps : forall entries output,
  Forall (fun kv => unsafe_key (fst kv) = false /\
                    (is_object (snd kv) = true -> sanitizeFilters (snd kv) = snd kv))
         entries ->
  sanitize_loop sanitizeFilters entries output =
  fold_left (fun o kv => upsert (fst kv) (snd kv) o) entries output.
Proof.
  induction entries as [|[key v] rest IH]; intros output H; [reflexivity|].
  inversion H as [|? ? [Hkey Hv] Hrest]; subst. cbn [fst snd] in Hkey, Hv.
  cbn [sanitize_loop fold_left fst snd]. rewrite Hkey.
  destruct (is_object v); [rewrite Hv by reflexivity|]; now apply IH.
Qed.

(** X14. [sanitizeFilters] is idempotent: sanitizing its own result changes
    nothing. *)
Theorem sanitizeFilters_idempotent : forall input,
  sanitizeFilters (sanitizeFilters input) = sanitizeFilters input.
Proof.
  induction input as [| | | | | | | |entries IH| |] using value_ind; try reflexivity.
  rewrite sanitizeFilters_obj.
  destruct (sanitize_loop_settles entries [] IH (NoDup_nil _) (Forall_nil _))
    as [Hnd Hout].
  rewrite sanitizeFilters_obj, sanitize_loop_keeps by exact Hout.
  f_equal. now apply fromEntries_unique.
Qed.

Section WithRuntime.
Context {RT : Runtime}.

(** X15. The values [normalizeValue] returns unchanged are exactly those
    without an [ObjectId], without a [Date] and without a repeated key. *)
Theorem normalizeValue_fixed_points : forall w,
  normalizeValue w = Ok w <-> normal w.
Proof.
  intros w. split.
  - intros H. pose proof (normalizeValue_outcome w) as Hout.
    unfold normalize_outcome in Hout. now rewrite H in Hout.
  - apply normalizeValue_fixed.
Qed.

End WithRuntime.

End HelpersMore.

(* ------------------------------------------------------------------ *)
(** ** More on the partitioner *)

Module PartitionerMore.
Import Partitioner PartitionerProps.

Lemma ranges_loop_layout : forall n idx min max cs,
  0 <= min -> max < 2 ^ 96 -> 0 <= idx -> 1 <= cs ->
  forall i r, nth_error (ranges_loop n idx min max cs) i = Some r ->
    index r = idx + Z.of_nat i /\
    startInclusive r = min + (idx + Z.of_nat i) * cs /\
    startInclusive r <= max /\
    match endExclusive r with
    | Some e => e = startInclusive r + cs /\ e <= max
    | None => max < startInclusive r + cs
    end.
Proof.
  induction n as [|n IH]; intros idx min max cs Hmin Hmax Hidx Hcs i r Hr.
  - destruct i; discriminate.
  - cbn [ranges_loop] in Hr.
    destruct (Z.gtb_spec (min + idx * cs) max) as [Hc|Hc]; [destruct i; discriminate|].
    assert (Hs : valid_oid (min + idx * cs)) by (unfold valid_oid; nia).
    rewrite (bigIntToObjectId_id _ Hs) in Hr.
    destruct i as [|i].
    + cbn [nth_error] in Hr. injection Hr as <-. cbn [index startInclusive endExclusive].
      rewrite Z.add_0_r. split; [reflexivity|]. split; [reflexivity|]. split; [lia|].
      destruct (Z.leb_spec (min + idx * cs + cs) max) as [Hn|Hn]; [|lia].
      rewrite bigIntToObjectId_id by (unfold valid_oid; nia). lia.
    + cbn [nth_error] in Hr.
      destruct (IH (idx + 1) min max cs Hmin Hmax ltac:(lia) Hcs i r Hr)
        as [Hi [Hstart Hrest]].
      rewrite Nat2Z.inj_succ.
      replace (idx + Z.succ (Z.of_nat i)) with (idx + 1 + Z.of_nat i) by lia.
      now repeat split.
Qed.

(** X16. The layout of the ranges.  With [chunks = max(1, requestedChunks)]
    and [chunkSize = ceil(span / chunks)], the range at position [i] has
    index [i] and starts at [minId + i * chunkSize], inside the interval; a
    closed range holds exactly [chunkSize] identifiers, and the open one
    has at most [chunkSize] of the interval left. *)
Theorem buildObjectIdRanges_layout : forall minId maxId requestedChunks,
  valid_oid minId -> valid_oid maxId -> minId <= maxId ->
  let chunks := Z.max 1 requestedChunks in
  let chunkSize := (maxId - minId + 1 + chunks - 1) / chunks in
  forall i r, nth_error (buildObjectIdRanges minId maxId requestedChunks) i = Some r ->
    index r = Z.of_nat i /\
    startInclusive r = minId + Z.of_nat i * chunkSize /\
    startInclusive r <= maxId /\
    match endExclusive r with
    | Some e => e = startInclusive r + chunkSize /\ e <= maxId
    | None => maxId < startInclusive r + chunkSize
    end.
Proof.
  intros minId maxId k [Hmin _] [_ Hmax] Hle chunks chunkSize i r.
  unfold buildObjectIdRanges, objectIdToBigInt. fold chunks.
  destruct (Z.ltb_spec maxId minId) as [Hc|_]; [lia|].
  destruct (Z.eqb_spec chunks 1) as [Hone|Hmany].
  - assert (Hsize : chunkSize = maxId - minId + 1).
    { subst chunkSize. rewrite Hone.
      replace (maxId - minId + 1 + 1 - 1) with (maxId - minId + 1) by lia.
      apply Z.div_1_r. }
    destruct i as [|[|i]]; cbn [nth_error]; try discriminate.
    intros H. injection H as <-. cbn [index startInclusive endExclusive]. lia.
  - destruct (chunkSize_bounds (maxId - minId + 1) chunks) as [Hq [Hcs _]];
      [lia | subst chunks; lia|].
    rewrite Hq in Hcs |- *. fold chunkSize. fold chunkSize in Hcs.
    intros Hr.
    destruct (ranges_loop_layout _ 0 minId maxId chunkSize Hmin Hmax ltac:(lia) Hcs i r Hr)
      as [Hi [Hstart Hrest]].
    rewrite Z.add_0_l in Hi, Hstart. now repeat split.
Qed.

Lemma buildObjectIdRanges_layout_witness :
  let chunkSize := (1535 - 256 + 1 + Z.max 1 8 - 1) / Z.max 1 8 in
  let r := mkRange 1 416 (Some 576) in
  nth_error (buildObjectIdRanges 256 1535 8) 1 = Some r /\
  index r = Z.of_nat 1 /\
  startInclusive r = 256 + Z.of_nat 1 * chunkSize /\
  startInclusive r <= 1535 /\
  match endExclusive r with
  | Some e => e = startInclusive r + chunkSize /\ e <= 1535
  | None => 1535 < startInclusive r + chunkSize
  end.
Proof.
  split; [reflexivity|].
  apply (buildObjectIdRanges_layout 256 1535 8); [| | | reflexivity];
    unfold valid_oid; lia.
Defined.

End PartitionerMore.

(* ------------------------------------------------------------------ *)
(** ** The job: filters and groups *)

Module JobProps.
Import Js Helpers Partitioner ReduceEngine Pipelines Statements.
Import JsProps HelpersProps PipelinesProps.

Lemma assign_entries : forall source target kv,
  In kv (assign target source) -> In kv target \/ In kv source.
Proof.
  unfold assign. induction source as [|[k0 v0] rest IH]; intros target kv H;
    cbn [fold_left fst snd] in H; [now left|].
  apply IH in H. destruct H as [H|H]; [|right; now right].
  assert (Hup : forall l, In kv (upsert k0 v0 l) -> In kv l \/ kv = (k0, v0)).
  { induction l as [|[k' a'] l IHl]; cbn [upsert]; intros Hin.
    - destruct Hin as [<-|[]]. now right.
    - destruct (String.eqb_spec k0 k') as [->|Hne].
      + destruct Hin as [<-|Hin]; [now right | left; now right].
      + destruct Hin as [<-|Hin]; [left; now left|].
        destruct (IHl Hin) as [Hl|Hl]; [left; now right | now right]. }
  destruct (Hup _ H) as [Ht | ->]; [now left | right; now left].
Qed.

Lemma sanitize_loop_NoDup : forall self entries output,
  NoDup (map fst output) -> NoDup (map fst (sanitize_loop self entries output)).
Proof.
  intros self. induction entries as [|[key v] rest IH]; intros output Hnd; [exact Hnd|].
  cbn [sanitize_loop]. destruct (unsafe_key key); [now apply IH|].
  destruct (is_object v); apply IH; now apply upsert_NoDup.
Qed.

Lemma sanitized_entries : forall input,
  sanitizeFilters input = VObj (own_entries (sanitizeFilters input)).
Proof. intros input. destruct input; reflexivity. Qed.



(** The array of the example, in the stage with its [$where]. *)
Example operator_inside_an_array_reaches_the_stage :
  lookup "tags"%string
    (match_stage "t1"
       (own_entries
          (sanitizeFilters
             (VObj [("tags", VArr [VObj [("$where", VStr "1")]]);
                    ("$where", VStr "1")]%string)))
       (id_match_doc (rangeToIdMatch (mkRange 0 256 None))))
  = Some (VArr [VObj [("$where", VStr "1")]%string]).
Proof. reflexivity. Qed.

End JobProps.
